(** * nbodykit/distributedarray.py: boundary topology, unique labels, bincount

    A shallow embedding of [LinearTopology] and [DistributedArray].

    Every rank of the communicator runs the same method on its own local
    chunk.  A method is a program in the monad [prog]: it reads and writes
    numpy arrays that live in the rank's own store, it can raise, and it
    can take part in an all-gather.  [run_group] runs one program per rank
    in lock step: an all-gather completes when every rank has reached it,
    and every rank then receives the same list, in rank order.  The
    communicator is mpi4py's: [allgather] pickles what it sends, so a rank
    receives copies, and the copy of the [EmptyRank] object is another
    object than [EmptyRank].  An exception ends the rank that raises it
    and no other.

    Array elements, labels and counts are integers of the caller's dtype;
    they are modelled as [Z] (no overflow occurs for counts and labels of
    arrays that fit in memory).  The objects exchanged by [allgather] are
    either an [EmptyRankType] object or a number. *)

From stdpp Require Import base list sorting.
From Stdlib Require Import ZArith Lia Sorting.Sorted.

Open Scope Z_scope.

(** ** Python values exchanged between ranks *)

(** [EmptyRank = EmptyRankType()] is one object of the module;
    [EmptyRankCopy] is any other [EmptyRankType] object, which is what
    unpickling the pickled [EmptyRank] gives ([EmptyRankType] has no
    [__reduce__]); everything else that goes through [allgather] in this
    file is a number. *)
Inductive item : Type :=
| EmptyRank
| EmptyRankCopy
| Val (z : Z).

Definition item_eq_dec (a b : item) : {a = b} + {a <> b}.
Proof. decide equality. apply Z.eq_dec. Defined.

(** [x is EmptyRank]: the identity of the object. *)
Definition is_EmptyRank (x : item) : bool :=
  match x with EmptyRank => true | _ => false end.

(** [x == v] for an object [x] and an array element [v]:
    [EmptyRankType] defines no [__eq__], so an [EmptyRankType] object is
    equal to nothing but itself. *)
Definition item_eqb (x : item) (v : Z) : bool :=
  match x with Val z => z =? v | _ => false end.

(** [pickle.loads(pickle.dumps(x))]: what a rank receives for an object
    [x] that went through [allgather]. *)
Definition unpickled (x : item) : item :=
  match x with
  | Val z => Val z
  | EmptyRank | EmptyRankCopy => EmptyRankCopy
  end.

(** ** Stores, programs and the lock-step run of a group *)

Definition loc := nat.

(** The arrays of one rank, by address; a new array takes the next
    address. *)
Definition heap := list (list Z).

Inductive prog (A : Type) : Type :=
| Ret (a : A)
| Raise
| AllGather (v : item) (k : list item -> prog A)
| Alloc (arr : list Z) (k : loc -> prog A)
| Load (l : loc) (k : list Z -> prog A)
| Store (l : loc) (arr : list Z) (k : prog A).

Arguments Ret {A} a.
Arguments Raise {A}.
Arguments AllGather {A} v k.
Arguments Alloc {A} arr k.
Arguments Load {A} l k.
Arguments Store {A} l arr k.

Fixpoint bind {A B : Type} (p : prog A) (f : A -> prog B) : prog B :=
  match p with
  | Ret a => f a
  | Raise => Raise
  | AllGather v k => AllGather v (fun r => bind (k r) f)
  | Alloc arr k => Alloc arr (fun l => bind (k l) f)
  | Load l k => Load l (fun arr => bind (k arr) f)
  | Store l arr k => Store l arr (bind k f)
  end.

Declare Scope prog_scope.
Delimit Scope prog_scope with prog.
Notation "x <- c1 ;; c2" := (bind c1 (fun x => c2))
  (at level 100, c1 at next level, right associativity) : prog_scope.
Notation "c1 ;;; c2" := (bind c1 (fun _ => c2))
  (at level 100, right associativity) : prog_scope.
Open Scope prog_scope.

Definition allgather (v : item) : prog (list item) := AllGather v Ret.
Definition new_array (arr : list Z) : prog loc := Alloc arr Ret.
Definition read (l : loc) : prog (list Z) := Load l Ret.
Definition write (l : loc) (arr : list Z) : prog unit := Store l arr (Ret tt).

(** Lift a partial operation: [None] is a Python exception. *)
Definition try {A : Type} (o : option A) : prog A :=
  match o with Some a => Ret a | None => Raise end.

(** [for i in xs: body(i)] *)
Fixpoint for_each {A : Type} (xs : list A) (body : A -> prog unit) : prog unit :=
  match xs with
  | [] => Ret tt
  | i :: rest => body i ;;; for_each rest body
  end.

(** Where a rank stands once its local steps are done. *)
Inductive status (A : Type) : Type :=
| Returned (a : A) (h : heap)
| Raised
| Gathering (v : item) (k : list item -> prog A) (h : heap).

Arguments Returned {A} a h.
Arguments Raised {A}.
Arguments Gathering {A} v k h.

(** Run the local steps of a program up to its next all-gather. *)
Fixpoint advance {A : Type} (p : prog A) (h : heap) : status A :=
  match p with
  | Ret a => Returned a h
  | Raise => Raised
  | AllGather v k => Gathering v k h
  | Alloc arr k => advance (k (length h)) (h ++ [arr])
  | Load l k =>
      match h !! l with
      | Some arr => advance (k arr) h
      | None => Raised
      end
  | Store l arr k =>
      if decide (l < length h)%nat then advance k (<[l:=arr]> h) else Raised
  end.

(** How the call of a group ends: every rank returned; or every rank
    ended, some of them by an exception ([None]); or some rank waits for
    ever in an all-gather that another rank never reaches. *)
Inductive outcome (A : Type) : Type :=
| Done (res : list (A * heap))
| Failed (res : list (option (A * heap)))
| Deadlock
| OutOfFuel.

Arguments Done {A} res.
Arguments Failed {A} res.
Arguments Deadlock {A}.
Arguments OutOfFuel {A}.

Definition is_gathering {A : Type} (s : status A) : bool :=
  match s with Gathering _ _ _ => true | _ => false end.

Definition ended {A : Type} (s : status A) : option (A * heap) :=
  match s with Returned a h => Some (a, h) | _ => None end.

(** The status of a rank that has ended with [o]. *)
Definition status_of_end {A : Type} (o : option (A * heap)) : status A :=
  match o with Some (a, h) => Returned a h | None => Raised end.

Fixpoint all_returned {A : Type} (sts : list (status A)) : option (list (A * heap)) :=
  match sts with
  | [] => Some []
  | Returned a h :: rest =>
      match all_returned rest with
      | Some res => Some ((a, h) :: res)
      | None => None
      end
  | _ :: _ => None
  end.

Fixpoint all_gathering {A : Type} (sts : list (status A))
  : option (list (item * (list item -> prog A) * heap)) :=
  match sts with
  | [] => Some []
  | Gathering v k h :: rest =>
      match all_gathering rest with
      | Some res => Some ((v, k, h) :: res)
      | None => None
      end
  | _ :: _ => None
  end.

(** One round per unit of fuel: every rank runs to its next all-gather
    (or to its end).  An all-gather completes when every rank is in it,
    and delivers to every rank the unpickled contributions in rank order.
    An exception ends the rank that raised it; a rank that waits in an
    all-gather while another rank has returned or raised waits for ever.
    The trace records what each all-gather delivered. *)
Fixpoint run_group {A : Type} (fuel : nat) (ranks : list (prog A * heap))
    (trace : list (list item)) : list (list item) * outcome A :=
  match fuel with
  | O => (trace, OutOfFuel)
  | S fuel' =>
      let sts := map (fun ph => advance (fst ph) (snd ph)) ranks in
      match all_returned sts with
      | Some res => (trace, Done res)
      | None =>
          match all_gathering sts with
          | Some gs =>
              let vs := map (fun g => unpickled (fst (fst g))) gs in
              run_group fuel'
                (map (fun g => (snd (fst g) vs, snd g)) gs)
                (trace ++ [vs])
          | None =>
              if existsb is_gathering sts then (trace, Deadlock)
              else (trace, Failed (map ended sts))
          end
      end
  end.

(** ** Python list and array indexing *)

(** [l[i]], with Python's negative indices; [None] is [IndexError]. *)
Definition getitem {A : Type} (l : list A) (i : Z) : option A :=
  if 0 <=? i then l !! Z.to_nat i
  else if 0 <=? Z.of_nat (length l) + i then l !! Z.to_nat (Z.of_nat (length l) + i)
  else None.

(** [l[i] = x] on an array, in range. *)
Definition setitem {A : Type} (l : list A) (i : Z) (x : A) : list A :=
  if 0 <=? i then <[Z.to_nat i := x]> l
  else <[Z.to_nat (Z.of_nat (length l) + i) := x]> l.

(** [len(a)] and [a[i]] on an array of the store. *)
Definition array_len (l : loc) : prog nat :=
  arr <- read l ;; Ret (length arr).

Definition array_get (l : loc) (i : Z) : prog Z :=
  arr <- read l ;; try (getitem arr i).

(** [a[i] += c] in place; adding an [EmptyRankType] object is a
    [TypeError]. *)
Definition array_iadd_at (l : loc) (i : Z) (c : item) : prog unit :=
  match c with
  | Val z =>
      arr <- read l ;;
      x <- try (getitem arr i) ;;
      write l (setitem arr i (x + z))
  | _ => Raise
  end.

(** [a += s] in place, on every element. *)
Definition array_iadd (l : loc) (s : Z) : prog unit :=
  arr <- read l ;; write l (map (fun x => x + s) arr).

(** [sum(xs)] of gathered objects: [0 + xs[0] + xs[1] + ...]. *)
Fixpoint py_sum_from (acc : Z) (xs : list item) : option Z :=
  match xs with
  | [] => Some acc
  | Val z :: rest => py_sum_from (acc + z) rest
  | _ :: _ => None
  end.

Definition py_sum (xs : list item) : option Z := py_sum_from 0 xs.

(** ** The numpy primitives the module calls

    numpy is not part of the repository; [numpy.unique] and
    [numpy.bincount] follow their documented behaviour (the local
    distinct-values and dense-count primitives of the specification). *)

(** [numpy.unique(ar, return_inverse=True)]: the sorted distinct values
    of [ar], and for each element its index among them. *)
Fixpoint insert_sorted (v : Z) (l : list Z) : list Z :=
  match l with
  | [] => [v]
  | x :: rest =>
      if v <? x then v :: l
      else if v =? x then l
      else x :: insert_sorted v rest
  end.

Definition unique_values (ar : list Z) : list Z := foldr insert_sorted [] ar.

Fixpoint index_of (v : Z) (l : list Z) : Z :=
  match l with
  | [] => 0
  | x :: rest => if x =? v then 0 else 1 + index_of v rest
  end.

Definition numpy_unique (ar : list Z) : list Z * list Z :=
  let junk := unique_values ar in
  (junk, map (fun v => index_of v junk) ar).

(** Number of occurrences of [v] in [x]. *)
Definition count_of (x : list Z) (v : Z) : Z :=
  Z.of_nat (count_occ Z.eq_dec x v).

(** [numpy.bincount(x)]: [x] must hold non-negative integers
    ([ValueError] otherwise); the result has [max(x) + 1] bins and is
    empty for an empty [x]. *)
Definition numpy_bincount (x : list Z) : option (list Z) :=
  if forallb (fun v => 0 <=? v) x then
    let bins := match x with
                | [] => 0%nat
                | _ :: _ => Z.to_nat (foldr Z.max 0 x + 1)
                end in
    Some (map (fun b => count_of x (Z.of_nat b)) (seq 0 bins))
  else None.

(** [numpy.bincount(arr - offset)].  With a number as [offset] the
    difference is the array of the differences.  With an [EmptyRankType]
    object as [offset] the difference is no array of integers and
    [numpy.bincount] raises ([TypeError]). *)
Definition bincount_minus (arr : list Z) (offset : item) : option (list Z) :=
  match offset with
  | Val o => numpy_bincount (map (fun x => x - o) arr)
  | _ => None
  end.

(** ** The communicator and the objects of the module *)

Record Comm : Type := mkComm { rank : nat; size : nat }.

Record LinearTopology : Type := mkTopology {
  topo_local : loc;
  topo_comm : Comm
}.

Record DistributedArray : Type := mkArray {
  local : loc;
  comm : Comm;
  topology : LinearTopology
}.

(** [DistributedArray.__init__] *)
Definition DistributedArray_init (l : loc) (c : Comm) : DistributedArray :=
  {| local := l; comm := c; topology := mkTopology l c |}.

Module LinearTopology.

(** [heads]: the first items on each rank. *)
Definition heads (self : LinearTopology) : prog (list item) :=
n <- array_len (topo_local self) ;;
head <- (if decide (0 < n)%nat
         then x <- array_get (topo_local self) 0 ;; Ret (Val x)
         else Ret EmptyRank) ;;
allgather head.

(** [tails]: the last items on each rank. *)
Definition tails (self : LinearTopology) : prog (list item) :=
n <- array_len (topo_local self) ;;
tail <- (if decide (0 < n)%nat
         then x <- array_get (topo_local self) (-1) ;; Ret (Val x)
         else Ret EmptyRank) ;;
allgather tail.

(** The loop of [prev] and of [next]: [acc] is the list being built,
  [old] is [oldtail] (resp. [oldhead]). *)
Fixpoint fill_loop (gathered : list item) (acc : list item) (old : item) : list item :=
match gathered with
| [] => acc
| x :: rest =>
    if is_EmptyRank x then fill_loop rest (acc ++ [old]) old
    else fill_loop rest (acc ++ [x]) x
end.

(** [prev]: the item before the local data. *)
Definition prev (self : LinearTopology) : prog item :=
gathered <- tails self ;;
let tails := fill_loop gathered [EmptyRank] EmptyRank in
try (getitem tails (Z.of_nat (rank (topo_comm self)))).

(** [next]: the item after the local data. *)
Definition next (self : LinearTopology) : prog item :=
gathered <- heads self ;;
let heads := fill_loop gathered [] EmptyRank in
let heads := heads ++ [EmptyRank] in
try (getitem heads (Z.of_nat (rank (topo_comm self) + 1))).

End LinearTopology.

(** ** DistributedArray *)

(** What [bincount] returns: the bare count array when [local] is true,
    a new [DistributedArray] over it otherwise. *)
Inductive counts : Type :=
| LocalCounts (N : loc)
| GlobalCounts (d : DistributedArray).

Module DistributedArray.

(** The number of distinct values a rank contributes to the labels of
  the ranks after it (the [if len(self.local) == 0] block). *)
Definition contributed (self : DistributedArray) (next : item) (junk : list Z)
: prog Z :=
n <- array_len (local self) ;;
if decide (n = 0%nat) then Ret 0
else
  last <- array_get (local self) (-1) ;;
  if item_eqb next last then Ret (Z.of_nat (length junk) - 1)
  else Ret (Z.of_nat (length junk)).

(** [unique_labels]: assign unique labels to sorted local data. *)
Definition unique_labels (self : DistributedArray) : prog DistributedArray :=
prev <- LinearTopology.prev (topology self) ;;
next <- LinearTopology.next (topology self) ;;
arr <- read (local self) ;;
let (junk, label) := numpy_unique arr in
label <- new_array label ;;
Nunique <- contributed self next junk ;;
gathered <- allgather (Val Nunique) ;;
s <- try (py_sum (take (rank (comm self)) gathered)) ;;
array_iadd label s ;;;
Ret (DistributedArray_init label (comm self)).

(** The offset subtracted from the local data before counting (the
  [if prev is not EmptyRank] block): a number, or the object [prev]
  itself. *)
Definition bincount_offset (self : DistributedArray) (prev : item) : prog item :=
if negb (is_EmptyRank prev) then
  n <- array_len (local self) ;;
  if decide (0 < n)%nat then
    first <- array_get (local self) 0 ;;
    if negb (item_eqb prev first) then Ret (Val first) else Ret prev
  else Ret prev
else Ret (Val 0).

(** The two loops that add the counts of the values shared with other
  ranks to the first and to the last bin of [N]. *)
Definition fixup (self : DistributedArray) (N : loc)
  (heads tails headsN tailsN : list item) : prog unit :=
n <- array_len N ;;
if decide (0 < n)%nat then
  for_each (rev (seq 0 (rank (comm self)))) (fun i =>
    t <- try (getitem tails (Z.of_nat i)) ;;
    first <- array_get (local self) 0 ;;
    if item_eqb t first then
      c <- try (getitem tailsN (Z.of_nat i)) ;;
      array_iadd_at N 0 c
    else Ret tt) ;;;
  for_each (seq (rank (comm self) + 1)
                (size (comm self) - (rank (comm self) + 1))) (fun i =>
    h <- try (getitem heads (Z.of_nat i)) ;;
    last <- array_get (local self) (-1) ;;
    if item_eqb h last then
      c <- try (getitem headsN (Z.of_nat i)) ;;
      array_iadd_at N (-1) c
    else Ret tt)
else Ret tt.

(** [bincount]: assign count numbers from sorted local data. *)
Definition bincount (local_only : bool) (self : DistributedArray) : prog counts :=
prev <- LinearTopology.prev (topology self) ;;
offset <- bincount_offset self prev ;;
arr <- read (local self) ;;
N <- try (bincount_minus arr offset) ;;
N <- new_array N ;;
if local_only then Ret (LocalCounts N)
else
  heads <- LinearTopology.heads (topology self) ;;
  tails <- LinearTopology.tails (topology self) ;;
  let distN := DistributedArray_init N (comm self) in
  headsN <- LinearTopology.heads (topology distN) ;;
  tailsN <- LinearTopology.tails (topology distN) ;;
  fixup self N heads tails headsN tailsN ;;;
  Ret (GlobalCounts (DistributedArray_init N (comm self))).

End DistributedArray.

(** ** A group of ranks calling the same method *)

(** Rank [i] of a group over [chunks] holds its chunk at address 0 and
    calls [method] on the [DistributedArray] built over it. *)
Definition group {A : Type} (method : DistributedArray -> prog A)
    (chunks : list (list Z)) : list (prog A * heap) :=
  map (fun i => (method (DistributedArray_init 0%nat (mkComm i (length chunks))),
                 [nth i chunks []]))
      (seq 0 (length chunks)).

Definition collective {A : Type} (fuel : nat) (method : DistributedArray -> prog A)
    (chunks : list (list Z)) : list (list item) * outcome A :=
  run_group fuel (group method chunks) [].

(** The array a rank's result refers to, read from the rank's final
    store. *)
Definition counts_loc (c : counts) : loc :=
  match c with LocalCounts N => N | GlobalCounts d => local d end.

Definition result_array {A : Type} (where_ : A -> loc) (res : list (A * heap))
    (r : nat) : option (list Z) :=
  match res !! r with
  | Some (a, h) => h !! where_ a
  | None => None
  end.

Definition result_value {A : Type} (res : list (A * heap)) (r : nat) : option A :=
  fst <$> res !! r.

(** ** What a rank contributes to the exchanges *)

Definition head_item (arr : list Z) : item :=
  match arr with [] => EmptyRank | x :: _ => Val x end.

Definition tail_item (arr : list Z) : item :=
  match last arr with None => EmptyRank | Some x => Val x end.

(** ** What each rank obtains from [prev] and [next] *)

(** What every rank receives from the exchange of the heads and of the
    tails. *)
Definition gathered_heads (chunks : list (list Z)) : list item :=
  map (fun c => unpickled (head_item c)) chunks.

Definition gathered_tails (chunks : list (list Z)) : list item :=
  map (fun c => unpickled (tail_item c)) chunks.

Definition filled_tails (chunks : list (list Z)) : list item :=
  LinearTopology.fill_loop (gathered_tails chunks) [EmptyRank] EmptyRank.

Definition filled_heads (chunks : list (list Z)) : list item :=
  LinearTopology.fill_loop (gathered_heads chunks) [] EmptyRank ++ [EmptyRank].

Definition prev_value (chunks : list (list Z)) (r : nat) : item :=
  default EmptyRank (filled_tails chunks !! r).

Definition next_value (chunks : list (list Z)) (r : nat) : item :=
  default EmptyRank (filled_heads chunks !! (r + 1)%nat).

Definition ranks (chunks : list (list Z)) : list nat := seq 0 (length chunks).

Definition chunk (chunks : list (list Z)) (i : nat) : list Z := nth i chunks [].

(** ** Statements about the topology, in the words of the specification *)

Definition call_prev (d : DistributedArray) : prog item :=
  LinearTopology.prev (topology d).

Definition call_next (d : DistributedArray) : prog item :=
  LinearTopology.next (topology d).

(** The topology test on a group of four ranks whose chunks have 0, 2, 0
    and 3 items: [prev] on rank 2 is the last item of rank 1, [next] on
    rank 0 is the first item of rank [after0], [prev] on rank 0 and [next]
    on rank 3 are [EmptyRank]. *)
Definition topology_on_empties (after0 : nat) (chunks : list (list Z)) : Prop :=
  exists resP resN,
    snd (collective 2 call_prev chunks) = Done resP /\
    snd (collective 2 call_next chunks) = Done resN /\
    result_value resP 2 = Some (tail_item (chunk chunks 1)) /\
    tail_item (chunk chunks 1) <> EmptyRank /\
    result_value resN 0 = Some (head_item (chunk chunks after0)) /\
    head_item (chunk chunks after0) <> EmptyRank /\
    result_value resP 0 = Some EmptyRank /\
    result_value resN 3 = Some EmptyRank.

(** ** What each rank computes in [unique_labels] *)

(** The value of [Nunique] for a chunk [arr] whose [next()] is [next]. *)
Definition contributed_value (arr : list Z) (next : item) (junk : list Z) : Z :=
  match last arr with
  | None => 0
  | Some x =>
      if item_eqb next x then Z.of_nat (length junk) - 1
      else Z.of_nat (length junk)
  end.

Definition Nunique_at (chunks : list (list Z)) (i : nat) : Z :=
  contributed_value (chunk chunks i) (next_value chunks i)
    (fst (numpy_unique (chunk chunks i))).

Definition gathered_Nunique (chunks : list (list Z)) : list item :=
  map (fun i => Val (Nunique_at chunks i)) (ranks chunks).

(** [sum(allgather(Nunique)[:rank])] *)
Definition label_shift (chunks : list (list Z)) (i : nat) : Z :=
  fold_left Z.add (map (Nunique_at chunks) (seq 0 i)) 0.

Definition labels_at (chunks : list (list Z)) (i : nat) : list Z :=
  map (fun x => x + label_shift chunks i) (snd (numpy_unique (chunk chunks i))).

(** ** What each rank computes in [bincount] *)

Definition first_of (arr : list Z) : Z := default 0 (head arr).
Definition last_of (arr : list Z) : Z := default 0 (last arr).

(** The value of [offset] for a chunk [arr] whose [prev()] is [prev]. *)
Definition offset_value (arr : list Z) (prev : item) : item :=
  if negb (is_EmptyRank prev) then
    match arr with
    | [] => prev
    | first :: _ => if negb (item_eqb prev first) then Val first else prev
    end
  else Val 0.

Definition offset_object (chunks : list (list Z)) (i : nat) : item :=
  offset_value (chunk chunks i) (prev_value chunks i).

(** The number an object stands for in sums ([0] for an object that is
    no number). *)
Definition item_count (c : item) : Z :=
  match c with Val z => z | _ => 0 end.

(** The offset of rank [i], when it is a number. *)
Definition offset_at (chunks : list (list Z)) (i : nat) : Z :=
  item_count (offset_object chunks i).

(** [numpy.bincount(self.local - offset)] on rank [i]. *)
Definition local_count_at (chunks : list (list Z)) (i : nat) : option (list Z) :=
  bincount_minus (chunk chunks i) (offset_object chunks i).

Definition count_at (chunks : list (list Z)) (i : nat) : list Z :=
  default [] (local_count_at chunks i).

(** No rank raises in [numpy.bincount]. *)
Definition counts_defined (chunks : list (list Z)) : Prop :=
  forall i, (i < length chunks)%nat -> is_Some (local_count_at chunks i).

(** [N[0] += z] and [N[-1] += z] on a count array (nothing to do on an
    empty one). *)
Definition add_first (N : list Z) (z : Z) : list Z :=
  match getitem N 0 with
  | Some x => setitem N 0 (x + z)
  | None => N
  end.

Definition add_last (N : list Z) (z : Z) : list Z :=
  match getitem N (-1) with
  | Some x => setitem N (-1) (x + z)
  | None => N
  end.

(** What rank [i] adds to a bin that stands for the value [v]: its own
    boundary count when its boundary value [xs[i]] is [v], nothing
    otherwise. *)
Definition matching_count (xs counts : list item) (v : Z) (i : nat) : Z :=
  if item_eqb (default EmptyRank (xs !! i)) v
  then item_count (default EmptyRank (counts !! i))
  else 0.

Definition Zsum (l : list Z) : Z := foldr Z.add 0 l.

(** The count array after the two loops of the fix-up, the ranks taken in
    the order of the loops. *)
Definition fixup_value (r n : nat) (arr N : list Z)
    (heads tails headsN tailsN : list item) : list Z :=
  add_last
    (add_first N
       (Zsum (map (matching_count tails tailsN (first_of arr)) (rev (seq 0 r)))))
    (Zsum (map (matching_count heads headsN (last_of arr))
               (seq (r + 1) (n - (r + 1))))).

Definition gathered_headsN (chunks : list (list Z)) : list item :=
  map (fun i => unpickled (head_item (count_at chunks i))) (ranks chunks).

Definition gathered_tailsN (chunks : list (list Z)) : list item :=
  map (fun i => unpickled (tail_item (count_at chunks i))) (ranks chunks).

(** The count array rank [i] returns from the global [bincount]. *)
Definition global_count_at (chunks : list (list Z)) (i : nat) : list Z :=
  fixup_value i (length chunks) (chunk chunks i) (count_at chunks i)
    (gathered_heads chunks) (gathered_tails chunks)
    (gathered_headsN chunks) (gathered_tailsN chunks).

(** Every boundary value that can match comes with a boundary count. *)
Definition boundary_counts (xs counts : list item) (js : list nat) : Prop :=
  forall i, In i js ->
    exists t, xs !! i = Some t /\
      (forall x, t = Val x -> exists c, counts !! i = Some (Val c)).

(** ** Statements about [bincount], in the words of the specification *)

(** The fix-up as the specification words it: the tail counts of all
    ranks before [r] whose tail value is this rank's first value go to
    the first bin, the head counts of all ranks after [r] whose head value
    is this rank's last value go to the last bin. *)
Definition sum_before (tails tailsN : list item) (first : Z) (r : nat) : Z :=
  Zsum (map (matching_count tails tailsN first) (seq 0 r)).

Definition sum_after (heads headsN : list item) (last : Z) (r n : nat) : Z :=
  Zsum (map (matching_count heads headsN last) (seq (r + 1) (n - (r + 1)))).

Definition fixup_spec (r n : nat) (arr N : list Z)
    (heads tails headsN tailsN : list item) : list Z :=
  add_last (add_first N (sum_before tails tailsN (first_of arr) r))
           (sum_after heads headsN (last_of arr) r n).

(** What rank [i] ends [bincount(local=True)] with: the count array in a
    new array of its store, or an exception. *)
Definition local_result (chunks : list (list Z)) (i : nat) : option (counts * heap) :=
  match local_count_at chunks i with
  | Some N => Some (LocalCounts 1%nat, [chunk chunks i; N])
  | None => None
  end.

(** Whether the value a call of [bincount] returned is a
    [DistributedArray]. *)
Definition is_DistributedArray (c : counts) : bool :=
  match c with
  | GlobalCounts _ => true
  | LocalCounts _ => false
  end.

(** The number of all-gathers [bincount(local=True)] takes part in. *)
Definition local_bincount_exchanges (chunks : list (list Z)) : nat :=
  length (fst (collective 2 (DistributedArray.bincount true) chunks)).

(** The count rank [r] reports for the value [v]: the bin [v - offset] of
    the array it returns (nothing when the array has no such bin). *)
Definition bin_of (chunks : list (list Z)) (res : list (counts * heap))
    (r : nat) (v : Z) : Z :=
  match result_array counts_loc res r with
  | Some N =>
      if offset_at chunks r <=? v
      then default 0 (N !! Z.to_nat (v - offset_at chunks r))
      else 0
  | None => 0
  end.

(** Histogram conservation as the specification states it: for each
    value, the counts the ranks report add up to the count of the value in
    the concatenation of all chunks. *)
Definition histogram_conserved (chunks : list (list Z)) : Prop :=
  exists res,
    snd (collective 6 (DistributedArray.bincount false) chunks) = Done res /\
    forall v, Zsum (map (fun r => bin_of chunks res r v) (ranks chunks)) =
              count_of (concat chunks) v.

(** ** Further calls and measures *)

Definition call_heads (d : DistributedArray) : prog (list item) :=
  LinearTopology.heads (topology d).

Definition call_tails (d : DistributedArray) : prog (list item) :=
  LinearTopology.tails (topology d).

(** The number of distinct values of [l] that are smaller than [x]. *)
Definition smaller_distinct (l : list Z) (x : Z) : Z :=
  Z.of_nat (length (remove_dups (filter (fun v => v < x) l))).

(** The pipeline of [test]: [u = d.unique_labels()], then
    [u.bincount()]. *)
Definition labels_then_counts (d : DistributedArray) : prog counts :=
  u <- DistributedArray.unique_labels d ;;
  DistributedArray.bincount false u.

(** The distributed array of the labels that [unique_labels] returns. *)
Definition label_arrays (chunks : list (list Z)) : list (list Z) :=
  map (labels_at chunks) (ranks chunks).

(** * Reasoning about programs and groups *)

Section Advance.
Context {A B : Type}.

Lemma advance_bind (p : prog A) (f : A -> prog B) (h : heap) :
advance (bind p f) h =
match advance p h with
| Returned a h' => advance (f a) h'
| Raised => Raised
| Gathering v k h' => Gathering v (fun r => bind (k r) f) h'
end.
Proof.
revert h. induction p as [a| |v k IH|arr k IH|l k IH|l arr k IH]; intros h; simpl; auto.
- destruct (h !! l); auto.
- destruct (decide (l < length h)%nat); auto.
Qed.

Lemma advance_bind_returned (p : prog A) (f : A -> prog B) (h h' : heap) (a : A) :
advance p h = Returned a h' ->
advance (bind p f) h = advance (f a) h'.
Proof. intros H. rewrite advance_bind, H. reflexivity. Qed.

Lemma advance_bind_gathering (p : prog A) (f : A -> prog B) (h h' : heap) v k :
advance p h = Gathering v k h' ->
advance (bind p f) h = Gathering v (fun r => bind (k r) f) h'.
Proof. intros H. rewrite advance_bind, H. reflexivity. Qed.

End Advance.

(** Run the next local step of a program with the lemma that describes
    it. *)
Ltac local_step lem := erewrite advance_bind_returned; [cbv beta|lem].

Section Lockstep.
Context {A : Type}.
Implicit Types (cfg : nat -> prog A * heap) (rs : list nat).

Lemma run_group_gather fuel cfg rs tr
  (v : nat -> item) (k : nat -> list item -> prog A) (h : nat -> heap) :
rs <> [] ->
(forall i, In i rs ->
   advance (fst (cfg i)) (snd (cfg i)) = Gathering (v i) (k i) (h i)) ->
run_group (S fuel) (map cfg rs) tr =
run_group fuel (map (fun i => (k i (map (fun j => unpickled (v j)) rs), h i)) rs)
          (tr ++ [map (fun j => unpickled (v j)) rs]).
Proof.
intros Hne Hadv. simpl. rewrite map_map.
rewrite (map_ext_in _ (fun i => Gathering (v i) (k i) (h i)) rs Hadv).
assert (Hg : forall l, all_gathering
        (map (fun i => Gathering (v i) (k i) (h i)) l) =
        Some (map (fun i => (v i, k i, h i)) l)).
{ induction l as [|x l IH]; simpl; auto. rewrite IH. reflexivity. }
rewrite Hg. destruct rs as [|x rs]; [congruence|]. simpl.
rewrite !map_map. simpl. reflexivity.
Qed.

Lemma run_group_return fuel cfg rs tr (a : nat -> A) (h : nat -> heap) :
(forall i, In i rs ->
   advance (fst (cfg i)) (snd (cfg i)) = Returned (a i) (h i)) ->
run_group (S fuel) (map cfg rs) tr = (tr, Done (map (fun i => (a i, h i)) rs)).
Proof.
intros Hadv. simpl. rewrite map_map.
rewrite (map_ext_in _ (fun i => Returned (a i) (h i)) rs Hadv).
assert (Hr : forall l, all_returned
        (map (fun i => Returned (a i) (h i)) l) =
        Some (map (fun i => (a i, h i)) l)).
{ induction l as [|x l IH]; simpl; auto. rewrite IH. reflexivity. }
rewrite Hr. reflexivity.
Qed.

Lemma all_returned_raised (sts : list (status A)) :
In Raised sts -> all_returned sts = None.
Proof.
induction sts as [|s sts IH]; intros Hin; [destruct Hin|].
destruct Hin as [->|Hin]; [reflexivity|].
destruct s; simpl; auto. rewrite (IH Hin). reflexivity.
Qed.

Lemma all_gathering_raised (sts : list (status A)) :
In Raised sts -> all_gathering sts = None.
Proof.
induction sts as [|s sts IH]; intros Hin; [destruct Hin|].
destruct Hin as [->|Hin]; [reflexivity|].
destruct s; simpl; auto. rewrite (IH Hin). reflexivity.
Qed.

(** Every rank ends in this round, rank [i] by an exception. *)
Lemma run_group_failed fuel cfg rs tr (o : nat -> option (A * heap)) i :
In i rs -> o i = None ->
(forall j, In j rs ->
   advance (fst (cfg j)) (snd (cfg j)) = status_of_end (o j)) ->
run_group (S fuel) (map cfg rs) tr = (tr, Failed (map o rs)).
Proof.
intros Hi Hraise Hadv. simpl. rewrite map_map.
rewrite (map_ext_in _ (fun j => status_of_end (o j)) rs Hadv).
assert (Hin : In Raised (map (fun j => status_of_end (o j)) rs)).
{ apply in_map_iff. exists i. rewrite Hraise. auto. }
rewrite (all_returned_raised _ Hin), (all_gathering_raised _ Hin).
replace (existsb is_gathering (map (fun j => status_of_end (o j)) rs)) with false.
- rewrite map_map. f_equal. f_equal. apply map_ext. intros j.
destruct (o j) as [[a h]|]; reflexivity.
- symmetry. clear. induction rs as [|j rs IH]; [reflexivity|].
simpl. rewrite IH. destruct (o j) as [[a h]|]; reflexivity.
Qed.

(** Rank [i] raises while rank [j] waits in an all-gather. *)
Lemma run_group_deadlock fuel cfg rs tr i j v k h :
In i rs -> In j rs ->
advance (fst (cfg i)) (snd (cfg i)) = Raised ->
advance (fst (cfg j)) (snd (cfg j)) = Gathering v k h ->
run_group (S fuel) (map cfg rs) tr = (tr, Deadlock).
Proof.
intros Hi Hj Hraise Hgather. simpl. rewrite map_map.
assert (Hin : In Raised (map (fun x => advance (fst (cfg x)) (snd (cfg x))) rs)).
{ apply in_map_iff. exists i. auto. }
rewrite (all_returned_raised _ Hin), (all_gathering_raised _ Hin).
replace (existsb is_gathering (map (fun x => advance (fst (cfg x)) (snd (cfg x))) rs))
with true; [reflexivity|].
symmetry. apply existsb_exists. exists (Gathering v k h). split; [|reflexivity].
apply in_map_iff. exists j. auto.
Qed.

End Lockstep.

Section Indexing.
Context {A : Type}.
Implicit Types (l : list A).

Lemma getitem_nat l (i : nat) : getitem l (Z.of_nat i) = l !! i.
Proof.
unfold getitem. destruct (Z.leb_spec 0 (Z.of_nat i)); [|lia].
rewrite Nat2Z.id. reflexivity.
Qed.

Lemma getitem_first x l : getitem (x :: l) 0 = Some x.
Proof. reflexivity. Qed.

Lemma getitem_last l : getitem l (-1) = last l.
Proof.
unfold getitem. simpl (0 <=? -1). cbv iota.
rewrite last_lookup.
destruct l as [|x l]; [reflexivity|].
destruct (Z.leb_spec 0 (Z.of_nat (length (x :: l)) + -1)) as [_|H];
  [|simpl in H; lia].
f_equal. simpl. lia.
Qed.

Lemma setitem_first x y l : setitem (x :: l) 0 y = y :: l.
Proof. reflexivity. Qed.

Lemma setitem_length l i y : length (setitem l i y) = length l.
Proof. unfold setitem. destruct (0 <=? i); apply length_insert. Qed.

End Indexing.

Section LocalSteps.
Implicit Types (h : heap) (arr : list Z).

Lemma advance_read h l arr :
h !! l = Some arr -> advance (read l) h = Returned arr h.
Proof. intros H. simpl. rewrite H. reflexivity. Qed.

Lemma advance_new_array h arr :
advance (new_array arr) h = Returned (length h) (h ++ [arr]).
Proof. reflexivity. Qed.

Lemma advance_array_len h l arr :
h !! l = Some arr -> advance (array_len l) h = Returned (length arr) h.
Proof. intros H. simpl. rewrite H. reflexivity. Qed.

Lemma advance_array_get h l arr i x :
h !! l = Some arr -> getitem arr i = Some x ->
advance (array_get l i) h = Returned x h.
Proof. intros H Hi. simpl. rewrite H, Hi. reflexivity. Qed.

Lemma advance_try {A : Type} (o : option A) (a : A) h :
o = Some a -> advance (try o) h = Returned a h.
Proof. intros ->. reflexivity. Qed.

Lemma advance_heads self h arr :
h !! topo_local self = Some arr ->
advance (LinearTopology.heads self) h = Gathering (head_item arr) Ret h.
Proof.
intros H. unfold LinearTopology.heads.
rewrite (advance_bind_returned _ _ _ _ _ (advance_array_len _ _ _ H)).
destruct arr as [|x arr]; simpl; [reflexivity|].
rewrite H. reflexivity.
Qed.

Lemma advance_tails self h arr :
h !! topo_local self = Some arr ->
advance (LinearTopology.tails self) h = Gathering (tail_item arr) Ret h.
Proof.
intros H. unfold LinearTopology.tails.
rewrite (advance_bind_returned _ _ _ _ _ (advance_array_len _ _ _ H)).
destruct (decide (0 < length arr)%nat) as [Hlen|Hlen].
- destruct (last arr) as [x|] eqn:Hlast.
  + rewrite advance_bind.
    rewrite (advance_bind_returned _ _ _ _ _
               (advance_array_get _ _ _ (-1) x H ltac:(rewrite getitem_last; exact Hlast))).
    simpl. unfold tail_item. rewrite Hlast. reflexivity.
  + apply last_None in Hlast. subst arr. simpl in Hlen. lia.
- destruct arr; [reflexivity|simpl in Hlen; lia].
Qed.

End LocalSteps.

(** ** The fill loop of [prev] and [next] on gathered objects *)

Lemma unpickled_not_EmptyRank x : is_EmptyRank (unpickled x) = false.
Proof. destruct x; reflexivity. Qed.

Lemma unpickled_eqb x v : item_eqb (unpickled x) v = item_eqb x v.
Proof. destruct x; reflexivity. Qed.

Lemma unpickled_Val x z : unpickled x = Val z <-> x = Val z.
Proof. destruct x; simpl; split; congruence. Qed.

(** No gathered object is [EmptyRank], so the loop appends every object
    as it is. *)
Lemma fill_loop_copies (gathered acc : list item) (old : item) :
  Forall (fun x => is_EmptyRank x = false) gathered ->
  LinearTopology.fill_loop gathered acc old = acc ++ gathered.
Proof.
intros H. revert acc old. induction H as [|x g Hx Hg IH]; intros acc old; simpl.
- rewrite app_nil_r. reflexivity.
- rewrite Hx, IH, <- app_assoc. reflexivity.
Qed.

Lemma gathered_copies {B : Type} (f : B -> item) (l : list B) :
  Forall (fun x => is_EmptyRank x = false) (map (fun c => unpickled (f c)) l).
Proof.
apply Forall_forall. intros x Hx.
change (x ∈ (fun c => unpickled (f c)) <$> l) in Hx.
apply list_elem_of_fmap in Hx as (c & -> & _). apply unpickled_not_EmptyRank.
Qed.

Lemma filled_tails_cons chunks :
  filled_tails chunks = EmptyRank :: gathered_tails chunks.
Proof.
unfold filled_tails. rewrite fill_loop_copies; [reflexivity|].
apply gathered_copies.
Qed.

Lemma filled_heads_snoc chunks :
  filled_heads chunks = gathered_heads chunks ++ [EmptyRank].
Proof.
unfold filled_heads. rewrite fill_loop_copies; [reflexivity|].
apply gathered_copies.
Qed.

Section Groups.
Variable chunks : list (list Z).
Hypothesis nonempty_group : chunks <> [].

Lemma ranks_nonempty : ranks chunks <> [].
Proof using nonempty_group.
unfold ranks. destruct chunks; [congruence|]. simpl. discriminate.
Qed.

Lemma in_ranks i : In i (ranks chunks) <-> (i < length chunks)%nat.
Proof. unfold ranks. rewrite in_seq. lia. Qed.

Lemma map_chunk {B : Type} (f : list Z -> B) :
map (fun i => f (chunk chunks i)) (ranks chunks) = map f chunks.
Proof.
unfold ranks, chunk. clear nonempty_group.
induction chunks as [|c cs IH]; [reflexivity|].
simpl. f_equal. rewrite <- seq_shift, map_map. exact IH.
Qed.

Lemma map_unpickled_chunk (f : list Z -> item) :
map (fun i => unpickled (f (chunk chunks i))) (ranks chunks) =
map (fun c => unpickled (f c)) chunks.
Proof. apply (map_chunk (fun c => unpickled (f c))). Qed.

Lemma filled_tails_lookup i :
(i < length chunks)%nat -> filled_tails chunks !! i = Some (prev_value chunks i).
Proof.
intros Hi. unfold prev_value.
destruct (filled_tails chunks !! i) eqn:E; [reflexivity|].
apply lookup_ge_None in E. rewrite filled_tails_cons in E.
unfold gathered_tails in E. cbn [length] in E. rewrite length_map in E. lia.
Qed.

Lemma filled_heads_lookup i :
(i < length chunks)%nat ->
filled_heads chunks !! (i + 1)%nat = Some (next_value chunks i).
Proof.
intros Hi. unfold next_value.
destruct (filled_heads chunks !! (i + 1)%nat) eqn:E; [reflexivity|].
apply lookup_ge_None in E. rewrite filled_heads_snoc in E.
unfold gathered_heads in E. rewrite length_app, length_map in E.
simpl in E. lia.
Qed.

(** [prev] on a store whose array [l] is this rank's chunk. *)
Lemma advance_prev i l c h :
h !! l = Some (chunk chunks i) ->
advance (LinearTopology.prev (mkTopology l (mkComm i c))) h =
Gathering (tail_item (chunk chunks i))
  (fun gathered =>
     try (getitem (LinearTopology.fill_loop gathered [EmptyRank] EmptyRank)
                  (Z.of_nat i))) h.
Proof.
intros H. unfold LinearTopology.prev.
rewrite (advance_bind_gathering _ _ _ _ _ _ (advance_tails (mkTopology l (mkComm i c)) _ _ H)).
reflexivity.
Qed.

Lemma advance_next i l c h :
h !! l = Some (chunk chunks i) ->
advance (LinearTopology.next (mkTopology l (mkComm i c))) h =
Gathering (head_item (chunk chunks i))
  (fun gathered =>
     try (getitem (LinearTopology.fill_loop gathered [] EmptyRank ++ [EmptyRank])
                  (Z.of_nat (i + 1)))) h.
Proof.
intros H. unfold LinearTopology.next.
rewrite (advance_bind_gathering _ _ _ _ _ _ (advance_heads (mkTopology l (mkComm i c)) _ _ H)).
reflexivity.
Qed.

Lemma prev_after_gather i h :
(i < length chunks)%nat ->
advance (try (getitem (LinearTopology.fill_loop (gathered_tails chunks)
                         [EmptyRank] EmptyRank) (Z.of_nat i))) h =
Returned (prev_value chunks i) h.
Proof.
intros Hi. apply advance_try. rewrite getitem_nat.
apply filled_tails_lookup, Hi.
Qed.

Lemma next_after_gather i h :
(i < length chunks)%nat ->
advance (try (getitem (LinearTopology.fill_loop (gathered_heads chunks)
                         [] EmptyRank ++ [EmptyRank]) (Z.of_nat (i + 1)))) h =
Returned (next_value chunks i) h.
Proof.
intros Hi. apply advance_try. rewrite getitem_nat.
apply filled_heads_lookup, Hi.
Qed.

(** The whole group calling [prev]: one exchange of the tails. *)
Lemma collective_prev fuel :
collective (S (S fuel)) call_prev chunks =
([gathered_tails chunks],
 Done (map (fun i => (prev_value chunks i, [chunk chunks i])) (ranks chunks))).
Proof using nonempty_group.
unfold collective, group. fold (ranks chunks).
erewrite run_group_gather; [|apply ranks_nonempty|]; cycle 1.
{ intros i Hi. cbn [fst snd].
  unfold call_prev, call_next, DistributedArray_init. cbn [topology].
  fold (chunk chunks i). apply advance_prev. reflexivity. }
cbv beta. rewrite map_unpickled_chunk. simpl app.
apply run_group_return.
intros i Hi. cbn [fst snd]. apply prev_after_gather, in_ranks, Hi.
Qed.

(** The whole group calling [next]: one exchange of the heads. *)
Lemma collective_next fuel :
collective (S (S fuel)) call_next chunks =
([gathered_heads chunks],
 Done (map (fun i => (next_value chunks i, [chunk chunks i])) (ranks chunks))).
Proof using nonempty_group.
unfold collective, group. fold (ranks chunks).
erewrite run_group_gather; [|apply ranks_nonempty|]; cycle 1.
{ intros i Hi. cbn [fst snd].
  unfold call_prev, call_next, DistributedArray_init. cbn [topology].
  fold (chunk chunks i). apply advance_next. reflexivity. }
cbv beta. rewrite map_unpickled_chunk. simpl app.
apply run_group_return.
intros i Hi. cbn [fst snd]. apply next_after_gather, in_ranks, Hi.
Qed.

End Groups.

(** * The boundary topology *)

Lemma lookup_map_seq {B : Type} (f : nat -> B) (n r : nat) :
  (r < n)%nat -> map f (seq 0 n) !! r = Some (f r).
Proof.
  intros Hr. change (map f (seq 0 n)) with (f <$> seq 0 n).
  rewrite list_lookup_fmap, lookup_seq_lt by exact Hr. reflexivity.
Qed.

Lemma tail_item_empty_iff c : tail_item c = EmptyRank <-> c = [].
Proof.
  unfold tail_item. destruct (last c) eqn:E.
  - split; [discriminate|]. intros ->. discriminate.
  - apply last_None in E. subst. tauto.
Qed.

Lemma head_item_empty_iff c : head_item c = EmptyRank <-> c = [].
Proof. destruct c; simpl; split; congruence. Qed.

Lemma gathered_lookup (f : list Z -> item) chunks i :
  (i < length chunks)%nat ->
  map (fun c => unpickled (f c)) chunks !! i = Some (unpickled (f (chunk chunks i))).
Proof.
intros Hi. change (((fun c => unpickled (f c)) <$> chunks) !! i =
                   Some (unpickled (f (chunk chunks i)))).
rewrite list_lookup_fmap. unfold chunk. rewrite nth_lookup.
destruct (chunks !! i) eqn:E; [reflexivity|].
apply lookup_ge_None in E. lia.
Qed.

(** [prev()] on rank 0 is [EmptyRank] itself; on a later rank it is what
    the rank just before put in the exchange of the tails. *)
Lemma prev_value_first chunks : prev_value chunks 0 = EmptyRank.
Proof. unfold prev_value. rewrite filled_tails_cons. reflexivity. Qed.

Lemma prev_value_after chunks r :
  (r < length chunks)%nat ->
  prev_value chunks (S r) = unpickled (tail_item (chunk chunks r)).
Proof.
intros Hr. unfold prev_value. rewrite filled_tails_cons.
change ((EmptyRank :: gathered_tails chunks) !! S r) with (gathered_tails chunks !! r).
unfold gathered_tails. rewrite gathered_lookup by exact Hr. reflexivity.
Qed.

(** [next()] on the last rank is [EmptyRank] itself; on an earlier rank
    it is what the rank just after put in the exchange of the heads. *)
Lemma next_value_last chunks r :
  (r + 1)%nat = length chunks -> next_value chunks r = EmptyRank.
Proof.
intros Hr. unfold next_value. rewrite filled_heads_snoc.
rewrite lookup_app_r by (unfold gathered_heads; rewrite length_map; lia).
unfold gathered_heads. rewrite length_map, Hr, Nat.sub_diag. reflexivity.
Qed.

Lemma next_value_before chunks r :
  (r + 1 < length chunks)%nat ->
  next_value chunks r = unpickled (head_item (chunk chunks (r + 1))).
Proof.
intros Hr. unfold next_value. rewrite filled_heads_snoc.
rewrite lookup_app_l by (unfold gathered_heads; rewrite length_map; lia).
unfold gathered_heads. rewrite gathered_lookup by exact Hr. reflexivity.
Qed.

(** C7. On the group [[1]], [[]], [[2]] the nearest rank with data before
    rank 2 is rank 0, whose last item is 1; [prev()] on rank 2 returns the
    [EmptyRankType] object that the empty rank 1 put in the exchange: the
    gathered object is a copy, the test [tail is EmptyRank] does not
    recognise it and nothing is carried forward. *)
Theorem prev_returns_object_of_empty_rank_before :
  collective 2 call_prev [[1]; []; [2]] =
  ([[Val 1; EmptyRankCopy; Val 2]],
   Done [(EmptyRank, [[1]]); (Val 1, [[]]); (EmptyRankCopy, [[2]])]).
Proof. vm_compute. reflexivity. Qed.

(** C1. On the group [[1]], [[]], [[2]] the nearest rank with data after
    rank 0 is rank 2, whose first item is 2; [next()] on rank 0 returns
    the [EmptyRankType] object that the empty rank 1 put in the exchange
    of the heads. *)
Theorem next_returns_object_of_empty_rank_after :
  collective 2 call_next [[1]; []; [2]] =
  ([[Val 1; EmptyRankCopy; Val 2]],
   Done [(EmptyRankCopy, [[1]]); (Val 2, [[]]); (EmptyRank, [[2]])]).
Proof. vm_compute. reflexivity. Qed.

(** C8, as stated: with chunks [[]], [[1; 2]], [[]], [[3; 4; 5]] the
    item [next()] returns on rank 0 is not the first item of rank 3. *)
Lemma topology_on_empties_rank3_fails :
  ~ topology_on_empties 3 [[]; [1; 2]; []; [3; 4; 5]].
Proof.
  intros (resP & resN & _ & HN & _ & _ & H0 & _).
  vm_compute in HN. injection HN as <-.
  vm_compute in H0. discriminate.
Qed.

(** C8, amended. For a group of four ranks whose chunks have 0, 2, 0 and
    3 items: [prev()] on rank 2 is the last item of rank 1, [next()] on
    rank 0 is the first item of rank 1, [prev()] on rank 0 and [next()]
    on rank 3 are [EmptyRank]. *)
Theorem topology_on_empties_rank1 (chunks : list (list Z)) :
  map length chunks = [0; 2; 0; 3]%nat -> topology_on_empties 1 chunks.
Proof.
  intros Hsizes.
  destruct chunks as [|c0 [|c1 [|c2 [|c3 [|c4 cs]]]]]; try discriminate Hsizes.
  destruct c0 as [|? ?]; [|discriminate Hsizes].
  destruct c1 as [|a [|b [|? ?]]]; try discriminate Hsizes.
  destruct c2 as [|? ?]; [|discriminate Hsizes].
  destruct c3 as [|c [|d [|e [|? ?]]]]; try discriminate Hsizes.
  unfold topology_on_empties.
  rewrite collective_prev, collective_next by discriminate.
  do 2 eexists. split; [reflexivity|]. split; [reflexivity|].
  repeat split; try reflexivity; discriminate.
Qed.

Lemma topology_on_empties_rank1_witness :
  topology_on_empties 1 [[]; [1; 2]; []; [3; 4; 5]].
Proof. apply (topology_on_empties_rank1 [[]; [1; 2]; []; [3; 4; 5]]). reflexivity. Defined.

(** * unique_labels *)

Lemma py_sum_from_vals (zs : list Z) (acc : Z) :
  py_sum_from acc (map Val zs) = Some (fold_left Z.add zs acc).
Proof.
  revert acc. induction zs as [|z zs IH]; intros acc; simpl; auto.
Qed.

Lemma advance_contributed self h arr next junk :
  h !! local self = Some arr ->
  advance (DistributedArray.contributed self next junk) h =
  Returned (contributed_value arr next junk) h.
Proof.
  intros H. unfold DistributedArray.contributed, contributed_value.
  rewrite (advance_bind_returned _ _ _ _ _ (advance_array_len _ _ _ H)).
  destruct (last arr) as [x|] eqn:Hlast.
  - destruct (decide (length arr = 0%nat)) as [Hlen|Hlen].
    + destruct arr; [discriminate Hlast|discriminate Hlen].
    + rewrite (advance_bind_returned _ _ _ _ _
                 (advance_array_get _ _ _ (-1) x H ltac:(rewrite getitem_last; exact Hlast))).
      destruct (item_eqb next x); reflexivity.
  - apply last_None in Hlast. subst arr. reflexivity.
Qed.

Section UniqueLabels.
Variable chunks : list (list Z).
Hypothesis nonempty_group : chunks <> [].

Lemma sum_gathered_Nunique i :
(i < length chunks)%nat ->
py_sum (take i (gathered_Nunique chunks)) = Some (label_shift chunks i).
Proof.
intros Hi. unfold gathered_Nunique, ranks, py_sum, label_shift.
change (map (fun i0 => Val (Nunique_at chunks i0)) (seq 0 (length chunks)))
  with ((fun i0 => Val (Nunique_at chunks i0)) <$> seq 0 (length chunks)).
rewrite <- fmap_take, take_seq, Nat.min_l by lia.
change ((fun i0 => Val (Nunique_at chunks i0)) <$> seq 0 i)
  with (map (fun i0 => Val (Nunique_at chunks i0)) (seq 0 i)).
rewrite <- (map_map (Nunique_at chunks) Val).
apply py_sum_from_vals.
Qed.

Lemma collective_unique_labels fuel :
collective (S (S (S (S fuel)))) DistributedArray.unique_labels chunks =
([gathered_tails chunks; gathered_heads chunks; gathered_Nunique chunks],
 Done (map (fun i => (DistributedArray_init 1%nat (mkComm i (length chunks)),
                      [chunk chunks i; labels_at chunks i]))
           (ranks chunks))).
Proof using nonempty_group.
unfold collective, group. fold (ranks chunks).
(* prev(): the tails are exchanged *)
erewrite run_group_gather; [|apply ranks_nonempty, nonempty_group|]; cycle 1.
{ intros i Hi. cbn [fst snd].
  unfold DistributedArray.unique_labels, DistributedArray_init. cbn [topology local comm].
  fold (chunk chunks i).
  rewrite (advance_bind_gathering _ _ _ _ _ _
             (advance_prev chunks i 0%nat _ [chunk chunks i] eq_refl)).
  reflexivity. }
cbv beta. rewrite map_unpickled_chunk. simpl app.
(* next(): the heads are exchanged *)
erewrite run_group_gather; [|apply ranks_nonempty, nonempty_group|]; cycle 1.
{ intros i Hi. cbn [fst snd]. apply in_ranks in Hi.
  rewrite (advance_bind_returned _ _ _ _ _ (prev_after_gather chunks i _ Hi)).
  rewrite (advance_bind_gathering _ _ _ _ _ _
             (advance_next chunks i 0%nat _ [chunk chunks i] eq_refl)).
  reflexivity. }
cbv beta. rewrite map_unpickled_chunk. simpl app.
(* the distinct counts are exchanged *)
erewrite run_group_gather; [|apply ranks_nonempty, nonempty_group|]; cycle 1.
{ intros i Hi. cbn [fst snd]. apply in_ranks in Hi.
  rewrite (advance_bind_returned _ _ _ _ _ (next_after_gather chunks i _ Hi)).
  local_step ltac:(apply advance_read; reflexivity).
  unfold numpy_unique at 1. cbv zeta.
  local_step ltac:(apply advance_new_array). cbn [length app].
  local_step ltac:(apply (advance_contributed _ _ (chunk chunks i)); reflexivity).
  reflexivity. }
fold (gathered_Nunique chunks). simpl app.
apply run_group_return.
intros i Hi. cbn [fst snd]. apply in_ranks in Hi.
rewrite (advance_bind_returned _ _ _ _ _
           (advance_try _ _ _ (sum_gathered_Nunique i Hi))).
reflexivity.
Qed.

End UniqueLabels.

(** * bincount *)

Section Counting.
Implicit Types (x N : list Z).

Lemma numpy_bincount_empty : numpy_bincount [] = Some [].
Proof. reflexivity. Qed.

Lemma foldr_max_nonneg x : 0 <= foldr Z.max 0 x.
Proof. induction x as [|a x IH]; simpl; lia. Qed.

Lemma numpy_bincount_length x N :
numpy_bincount x = Some N -> x <> [] ->
length N = Z.to_nat (foldr Z.max 0 x + 1).
Proof.
unfold numpy_bincount. destruct (forallb _ x); [|discriminate].
intros [= <-] Hne. rewrite length_map, length_seq.
destruct x; [congruence|reflexivity].
Qed.

Lemma numpy_bincount_nonempty x N :
numpy_bincount x = Some N -> x <> [] -> N <> [].
Proof.
intros H Hne HN. apply (numpy_bincount_length _ _ H) in Hne.
subst N. simpl in Hne. pose proof (foldr_max_nonneg x). lia.
Qed.

Lemma numpy_bincount_of_empty N : numpy_bincount [] = Some N -> N = [].
Proof. intros [= <-]. reflexivity. Qed.

Lemma numpy_bincount_lookup x N (b : nat) :
numpy_bincount x = Some N -> (b < length N)%nat ->
N !! b = Some (count_of x (Z.of_nat b)).
Proof.
unfold numpy_bincount. destruct (forallb _ x); [|discriminate].
intros [= <-] Hb. rewrite length_map, length_seq in Hb.
apply (lookup_map_seq (fun b => count_of x (Z.of_nat b))). exact Hb.
Qed.

End Counting.

Section AddToBins.
Implicit Types (N : list Z).

Lemma add_first_cons x N z : add_first (x :: N) z = (x + z) :: N.
Proof. reflexivity. Qed.

Lemma add_first_nil z : add_first [] z = [].
Proof. reflexivity. Qed.

Lemma add_first_zero N : add_first N 0 = N.
Proof. destruct N as [|x N]; [reflexivity|]. rewrite add_first_cons. f_equal. lia. Qed.

Lemma add_first_add N a b : add_first (add_first N a) b = add_first N (a + b).
Proof.
destruct N as [|x N]; [reflexivity|]. rewrite !add_first_cons. f_equal. lia.
Qed.

Lemma add_last_snoc N x z : add_last (N ++ [x]) z = N ++ [x + z].
Proof.
unfold add_last. rewrite getitem_last, last_snoc.
unfold setitem. simpl (0 <=? -1). cbv iota.
rewrite length_app. simpl length.
replace (Z.to_nat (Z.of_nat (length N + 1) + -1)) with (length N + 0)%nat by lia.
rewrite insert_app_r. reflexivity.
Qed.

Lemma add_last_nil z : add_last [] z = [].
Proof. reflexivity. Qed.

Lemma add_last_zero N : add_last N 0 = N.
Proof.
destruct N as [|x N _] using rev_ind; [reflexivity|].
rewrite add_last_snoc. do 2 f_equal. lia.
Qed.

Lemma add_last_add N a b : add_last (add_last N a) b = add_last N (a + b).
Proof.
destruct N as [|x N _] using rev_ind; [reflexivity|].
rewrite !add_last_snoc. do 2 f_equal. lia.
Qed.

Lemma add_first_length N z : length (add_first N z) = length N.
Proof. destruct N; reflexivity. Qed.

Lemma add_last_length N z : length (add_last N z) = length N.
Proof.
destruct N as [|x N _] using rev_ind; [reflexivity|].
rewrite add_last_snoc, !length_app. reflexivity.
Qed.

End AddToBins.

Section BincountSteps.
Implicit Types (h : heap) (arr N : list Z).

Lemma advance_bincount_offset self h arr prev :
h !! local self = Some arr ->
advance (DistributedArray.bincount_offset self prev) h =
Returned (offset_value arr prev) h.
Proof.
intros H. unfold DistributedArray.bincount_offset, offset_value.
destruct (negb (is_EmptyRank prev)); [|reflexivity].
local_step ltac:(apply (advance_array_len _ _ arr); exact H).
destruct arr as [|first arr]; [reflexivity|].
destruct (decide (0 < length (first :: arr))%nat) as [_|Hlen]; [|simpl in Hlen; lia].
local_step ltac:(apply (advance_array_get _ _ (first :: arr) 0 first); [exact H|reflexivity]).
destruct (negb (item_eqb prev first)); reflexivity.
Qed.

Lemma advance_array_iadd_at h l N i x z :
h !! l = Some N -> getitem N i = Some x ->
advance (array_iadd_at l i (Val z)) h =
Returned tt (<[l := setitem N i (x + z)]> h).
Proof.
intros H Hi. unfold array_iadd_at.
local_step ltac:(apply (advance_read _ _ N); exact H).
local_step ltac:(apply (advance_try _ x); exact Hi).
simpl. destruct (decide (l < length h)%nat) as [_|Hl]; [reflexivity|].
apply lookup_lt_Some in H. lia.
Qed.

Variables (arr : list Z) (r n : nat).
Variables (heads tails headsN tailsN : list item).

Let self := DistributedArray_init 0%nat (mkComm r n).

Lemma advance_loop_before (js : list nat) N first :
head arr = Some first -> N <> [] ->
boundary_counts tails tailsN js ->
advance
  (for_each js (fun i =>
     t <- try (getitem tails (Z.of_nat i)) ;;
     first <- array_get (local self) 0 ;;
     if item_eqb t first then
       c <- try (getitem tailsN (Z.of_nat i)) ;;
       array_iadd_at 1%nat 0 c
     else Ret tt))
  [arr; N] =
Returned tt
  [arr; add_first N (Zsum (map (matching_count tails tailsN first) js))].
Proof.
intros Hfirst. revert N. induction js as [|i js IH]; intros N HN Hb.
- simpl. rewrite add_first_zero. reflexivity.
- destruct (Hb i (or_introl eq_refl)) as (t & Ht & Hc).
  cbn [for_each map Zsum foldr]. fold (Zsum (map (matching_count tails tailsN first) js)).
  rewrite <- add_first_add.
  assert (Hbody :
    advance
      (t <- try (getitem tails (Z.of_nat i)) ;;
       first <- array_get (local self) 0 ;;
       if item_eqb t first then
         c <- try (getitem tailsN (Z.of_nat i)) ;;
         array_iadd_at 1%nat 0 c
       else Ret tt) [arr; N] =
    Returned tt [arr; add_first N (matching_count tails tailsN first i)]).
  { local_step ltac:(apply (advance_try _ t); rewrite getitem_nat; exact Ht).
    local_step ltac:(apply (advance_array_get _ _ arr 0 first);
                     [reflexivity|destruct arr; [discriminate Hfirst|exact Hfirst]]).
    unfold matching_count. rewrite Ht. cbn [default from_option id].
    destruct (item_eqb t first) eqn:Heq.
    - destruct t as [| |tx]; try discriminate Heq.
      destruct (Hc tx eq_refl) as (c & Hcount).
      local_step ltac:(apply (advance_try _ (Val c)); rewrite getitem_nat; exact Hcount).
      rewrite Hcount. cbn [default from_option id item_count].
      destruct N as [|x N]; [congruence|].
      rewrite (advance_array_iadd_at [arr; x :: N] 1%nat (x :: N) 0 x c eq_refl eq_refl).
      reflexivity.
    - rewrite add_first_zero. reflexivity. }
  rewrite (advance_bind_returned _ _ _ _ _ Hbody).
  apply IH.
  + destruct N; [congruence|discriminate].
  + intros j Hj. apply Hb. right. exact Hj.
Qed.

Lemma advance_loop_after (js : list nat) N lst :
last arr = Some lst -> N <> [] ->
boundary_counts heads headsN js ->
advance
  (for_each js (fun i =>
     h <- try (getitem heads (Z.of_nat i)) ;;
     last <- array_get (local self) (-1) ;;
     if item_eqb h last then
       c <- try (getitem headsN (Z.of_nat i)) ;;
       array_iadd_at 1%nat (-1) c
     else Ret tt))
  [arr; N] =
Returned tt
  [arr; add_last N (Zsum (map (matching_count heads headsN lst) js))].
Proof.
intros Hlast. revert N. induction js as [|i js IH]; intros N HN Hb.
- simpl. rewrite add_last_zero. reflexivity.
- destruct (Hb i (or_introl eq_refl)) as (t & Ht & Hc).
  cbn [for_each map Zsum foldr]. fold (Zsum (map (matching_count heads headsN lst) js)).
  rewrite <- add_last_add.
  assert (Hbody :
    advance
      (h <- try (getitem heads (Z.of_nat i)) ;;
       last <- array_get (local self) (-1) ;;
       if item_eqb h last then
         c <- try (getitem headsN (Z.of_nat i)) ;;
         array_iadd_at 1%nat (-1) c
       else Ret tt) [arr; N] =
    Returned tt [arr; add_last N (matching_count heads headsN lst i)]).
  { local_step ltac:(apply (advance_try _ t); rewrite getitem_nat; exact Ht).
    local_step ltac:(apply (advance_array_get _ _ arr (-1) lst);
                     [reflexivity|rewrite getitem_last; exact Hlast]).
    unfold matching_count. rewrite Ht. cbn [default from_option id].
    destruct (item_eqb t lst) eqn:Heq.
    - destruct t as [| |tx]; try discriminate Heq.
      destruct (Hc tx eq_refl) as (c & Hcount).
      local_step ltac:(apply (advance_try _ (Val c)); rewrite getitem_nat; exact Hcount).
      rewrite Hcount. cbn [default from_option id item_count].
      destruct (getitem N (-1)) as [x|] eqn:Hget.
      + rewrite (advance_array_iadd_at [arr; N] 1%nat N (-1) x c eq_refl Hget).
        unfold add_last. rewrite Hget. reflexivity.
      + rewrite getitem_last in Hget. apply last_None in Hget. congruence.
    - rewrite add_last_zero. reflexivity. }
  rewrite (advance_bind_returned _ _ _ _ _ Hbody).
  apply IH.
  + intros HN'. apply HN. apply (f_equal length) in HN'.
    rewrite add_last_length in HN'. destruct N; [reflexivity|discriminate HN'].
  + intros j Hj. apply Hb. right. exact Hj.
Qed.

(** The fix-up on a store that holds the chunk and its count array. *)
Lemma advance_fixup N :
(N <> [] -> arr <> []) ->
boundary_counts tails tailsN (rev (seq 0 r)) ->
boundary_counts heads headsN (seq (r + 1) (n - (r + 1))) ->
advance (DistributedArray.fixup self 1%nat heads tails headsN tailsN) [arr; N] =
Returned tt [arr; fixup_value r n arr N heads tails headsN tailsN].
Proof.
intros Harr Hb Ha. unfold DistributedArray.fixup, fixup_value.
local_step ltac:(apply (advance_array_len _ _ N); reflexivity).
destruct N as [|x N'] eqn:EN.
- reflexivity.
- destruct (decide (0 < length (x :: N'))%nat) as [_|Hlen]; [|simpl in Hlen; lia].
  rewrite <- EN in *.
  assert (HN : N <> []) by (rewrite EN; discriminate).
  specialize (Harr HN).
  destruct arr as [|first arr'] eqn:Earr; [congruence|]. rewrite <- Earr in *.
  destruct (last arr) as [lst|] eqn:Hlast;
    [|apply last_None in Hlast; congruence].
  assert (Hfirst : head arr = Some first) by (rewrite Earr; reflexivity).
  unfold first_of, last_of. rewrite Hfirst, Hlast. cbn [default from_option id].
  cbn [rank size comm self DistributedArray_init].
  erewrite advance_bind_returned;
    [|apply (advance_loop_before _ N first Hfirst HN Hb)].
  apply advance_loop_after; auto.
  intros HN'. apply (f_equal length) in HN'.
  rewrite add_first_length in HN'. rewrite EN in HN'. discriminate HN'.
Qed.

End BincountSteps.

Section BincountGroup.
Variable chunks : list (list Z).
Hypothesis nonempty_group : chunks <> [].
Hypothesis defined : counts_defined chunks.

Lemma chunk_lookup i :
(i < length chunks)%nat -> chunks !! i = Some (chunk chunks i).
Proof.
intros Hi. unfold chunk. rewrite nth_lookup.
destruct (chunks !! i) eqn:E; [reflexivity|].
apply lookup_ge_None in E. lia.
Qed.

Lemma local_count_at_defined i :
(i < length chunks)%nat -> local_count_at chunks i = Some (count_at chunks i).
Proof using defined.
intros Hi. unfold count_at. destruct (defined i Hi) as [N ->]. reflexivity.
Qed.

(** A rank whose count is defined has a number as offset. *)
Lemma local_count_numeric i N :
local_count_at chunks i = Some N ->
offset_object chunks i = Val (offset_at chunks i) /\
numpy_bincount (map (fun x => x - offset_at chunks i) (chunk chunks i)) = Some N.
Proof.
unfold local_count_at, offset_at, bincount_minus.
destruct (offset_object chunks i); try discriminate. auto.
Qed.

Lemma count_at_numeric i :
(i < length chunks)%nat ->
numpy_bincount (map (fun x => x - offset_at chunks i) (chunk chunks i)) =
Some (count_at chunks i).
Proof using defined.
intros Hi. apply local_count_numeric, local_count_at_defined, Hi.
Qed.

Lemma count_at_nonempty i :
(i < length chunks)%nat -> chunk chunks i <> [] -> count_at chunks i <> [].
Proof using defined.
intros Hi Hne. eapply numpy_bincount_nonempty.
- apply count_at_numeric, Hi.
- destruct (chunk chunks i); [congruence|discriminate].
Qed.

Lemma count_at_empty i :
(i < length chunks)%nat -> chunk chunks i = [] -> count_at chunks i = [].
Proof using defined.
intros Hi He. apply numpy_bincount_of_empty.
rewrite <- (count_at_numeric i Hi). rewrite He. reflexivity.
Qed.

Lemma boundary_counts_tails js :
(forall j, In j js -> (j < length chunks)%nat) ->
boundary_counts (gathered_tails chunks) (gathered_tailsN chunks) js.
Proof using defined.
intros Hjs j Hj. specialize (Hjs j Hj).
exists (unpickled (tail_item (chunk chunks j))). split.
- unfold gathered_tails. apply gathered_lookup, Hjs.
- intros x Hx. apply unpickled_Val in Hx. unfold gathered_tailsN, ranks.
  rewrite lookup_map_seq by exact Hjs.
  destruct (tail_item (count_at chunks j)) as [| |c] eqn:E; [| |eauto].
  + apply tail_item_empty_iff in E. exfalso.
    apply (count_at_nonempty j Hjs); [|exact E].
    intros He. rewrite He in Hx. discriminate Hx.
  + unfold tail_item in E. destruct (last (count_at chunks j)); discriminate E.
Qed.

Lemma boundary_counts_heads js :
(forall j, In j js -> (j < length chunks)%nat) ->
boundary_counts (gathered_heads chunks) (gathered_headsN chunks) js.
Proof using defined.
intros Hjs j Hj. specialize (Hjs j Hj).
exists (unpickled (head_item (chunk chunks j))). split.
- unfold gathered_heads. apply gathered_lookup, Hjs.
- intros x Hx. apply unpickled_Val in Hx. unfold gathered_headsN, ranks.
  rewrite lookup_map_seq by exact Hjs.
  destruct (head_item (count_at chunks j)) as [| |c] eqn:E; [| |eauto].
  + apply head_item_empty_iff in E. exfalso.
    apply (count_at_nonempty j Hjs); [|exact E].
    intros He. rewrite He in Hx. discriminate Hx.
  + destruct (count_at chunks j); discriminate E.
Qed.

(** The local count: [prev()], the offset, [numpy.bincount] and the
  new array, up to the point where [local] is tested. *)
Lemma advance_local_count {B : Type} i (k : loc -> prog B) :
(i < length chunks)%nat ->
advance
  (offset <- DistributedArray.bincount_offset
               (DistributedArray_init 0%nat (mkComm i (length chunks)))
               (prev_value chunks i) ;;
   arr <- read 0%nat ;;
   N <- try (bincount_minus arr offset) ;;
   N <- new_array N ;;
   k N)
  [chunk chunks i] =
advance (k 1%nat) [chunk chunks i; count_at chunks i].
Proof using defined.
intros Hi.
local_step ltac:(apply (advance_bincount_offset _ _ (chunk chunks i)); reflexivity).
local_step ltac:(apply advance_read; reflexivity).
local_step ltac:(apply advance_try; apply (local_count_at_defined i Hi)).
local_step ltac:(apply advance_new_array).
reflexivity.
Qed.

(** [bincount(local=True)]: the tails are exchanged, nothing else. *)
Lemma collective_bincount_local fuel :
collective (S (S fuel)) (DistributedArray.bincount true) chunks =
([gathered_tails chunks],
 Done (map (fun i => (LocalCounts 1%nat, [chunk chunks i; count_at chunks i]))
           (ranks chunks))).
Proof using nonempty_group defined.
unfold collective, group. fold (ranks chunks).
erewrite run_group_gather; [|apply ranks_nonempty, nonempty_group|]; cycle 1.
{ intros i Hi. cbn [fst snd].
  unfold DistributedArray.bincount, DistributedArray_init. cbn [topology local comm].
  fold (chunk chunks i).
  rewrite (advance_bind_gathering _ _ _ _ _ _
             (advance_prev chunks i 0%nat _ [chunk chunks i] eq_refl)).
  reflexivity. }
cbv beta. rewrite map_unpickled_chunk. simpl app.
apply run_group_return.
intros i Hi. cbn [fst snd]. apply in_ranks in Hi.
rewrite (advance_bind_returned _ _ _ _ _ (prev_after_gather chunks i _ Hi)).
rewrite (advance_local_count i _ Hi). reflexivity.
Qed.

(** The global [bincount]: five exchanges, then the fix-up. *)
Lemma collective_bincount_global fuel :
collective (S (S (S (S (S (S fuel)))))) (DistributedArray.bincount false) chunks =
([gathered_tails chunks; gathered_heads chunks; gathered_tails chunks;
  gathered_headsN chunks; gathered_tailsN chunks],
 Done (map (fun i => (GlobalCounts
                        (DistributedArray_init 1%nat (mkComm i (length chunks))),
                      [chunk chunks i; global_count_at chunks i]))
           (ranks chunks))).
Proof using nonempty_group defined.
unfold collective, group. fold (ranks chunks).
(* prev(): tails of the values *)
erewrite run_group_gather; [|apply ranks_nonempty, nonempty_group|]; cycle 1.
{ intros i Hi. cbn [fst snd].
  unfold DistributedArray.bincount, DistributedArray_init. cbn [topology local comm].
  fold (chunk chunks i).
  rewrite (advance_bind_gathering _ _ _ _ _ _
             (advance_prev chunks i 0%nat _ [chunk chunks i] eq_refl)).
  reflexivity. }
cbv beta. rewrite map_unpickled_chunk. simpl app.
(* heads of the values *)
erewrite run_group_gather; [|apply ranks_nonempty, nonempty_group|]; cycle 1.
{ intros i Hi. cbn [fst snd]. apply in_ranks in Hi.
  rewrite (advance_bind_returned _ _ _ _ _ (prev_after_gather chunks i _ Hi)).
  rewrite (advance_local_count i _ Hi).
  rewrite (advance_bind_gathering _ _ _ _ _ _
             (advance_heads (mkTopology 0%nat _)
                [chunk chunks i; count_at chunks i] (chunk chunks i) eq_refl)).
  reflexivity. }
cbv beta. rewrite map_unpickled_chunk. simpl app.
(* tails of the values *)
erewrite run_group_gather; [|apply ranks_nonempty, nonempty_group|]; cycle 1.
{ intros i Hi. cbn [fst snd]. cbn [bind].
  rewrite (advance_bind_gathering _ _ _ _ _ _
             (advance_tails (mkTopology 0%nat _)
                [chunk chunks i; count_at chunks i] (chunk chunks i) eq_refl)).
  reflexivity. }
cbv beta. rewrite map_unpickled_chunk. simpl app.
(* heads of the counts *)
erewrite run_group_gather; [|apply ranks_nonempty, nonempty_group|]; cycle 1.
{ intros i Hi. cbn [fst snd]. cbn [bind].
  rewrite (advance_bind_gathering _ _ _ _ _ _
             (advance_heads (mkTopology 1%nat _)
                [chunk chunks i; count_at chunks i] (count_at chunks i) eq_refl)).
  reflexivity. }
fold (gathered_headsN chunks). simpl app.
(* tails of the counts *)
erewrite run_group_gather; [|apply ranks_nonempty, nonempty_group|]; cycle 1.
{ intros i Hi. cbn [fst snd]. cbn [bind].
  rewrite (advance_bind_gathering _ _ _ _ _ _
             (advance_tails (mkTopology 1%nat _)
                [chunk chunks i; count_at chunks i] (count_at chunks i) eq_refl)).
  reflexivity. }
fold (gathered_tailsN chunks). simpl app.
(* the fix-up *)
apply run_group_return.
intros i Hi. cbn [fst snd]. cbn [bind]. apply in_ranks in Hi.
erewrite advance_bind_returned; cycle 1.
{ apply (advance_fixup (chunk chunks i) i (length chunks)).
  - intros HN He. apply HN. apply count_at_empty; assumption.
  - apply boundary_counts_tails. intros j Hj.
    apply in_rev, in_seq in Hj. lia.
  - apply boundary_counts_heads. intros j Hj. apply in_seq in Hj. lia. }
reflexivity.
Qed.

End BincountGroup.

Lemma Zsum_app (l1 l2 : list Z) : Zsum (l1 ++ l2) = Zsum l1 + Zsum l2.
Proof. unfold Zsum. induction l1 as [|x l1 IH]; simpl; lia. Qed.

Lemma Zsum_rev (l : list Z) : Zsum (rev l) = Zsum l.
Proof.
  induction l as [|x l IH]; [reflexivity|].
  simpl rev. rewrite Zsum_app, IH. unfold Zsum. simpl. lia.
Qed.

Lemma fixup_value_spec r n arr N heads tails headsN tailsN :
  fixup_value r n arr N heads tails headsN tailsN =
  fixup_spec r n arr N heads tails headsN tailsN.
Proof.
  unfold fixup_value, fixup_spec, sum_before, sum_after.
  rewrite map_rev, Zsum_rev. reflexivity.
Qed.

Lemma two_more (fuel n : nat) : (n <= fuel)%nat -> exists f, fuel = (n + f)%nat.
Proof. intros H. exists (fuel - n)%nat. lia. Qed.

(** C6. On the group [[]], [[5]] every rank before rank 1 is empty, and
    [prev()] hands rank 1 the copy of [EmptyRank] that rank 0 put in the
    exchange.  The test [prev is not EmptyRank] holds of the copy, so the
    offset is the first local element 5, not 0, and the count array is
    [[1]], not [[0; 0; 0; 0; 0; 1]].  On [[5]], [[]], [[]] rank 2 is empty
    as well: its offset is the copy itself and [numpy.bincount] raises
    there, while the two other ranks return. *)
Theorem bincount_offset_of_EmptyRank_copy :
  collective 2 call_prev [[]; [5]] =
    ([[EmptyRankCopy; Val 5]],
     Done [(EmptyRank, [[]]); (EmptyRankCopy, [[5]])]) /\
  advance (DistributedArray.bincount_offset
             (DistributedArray_init 0%nat (mkComm 1 2)) EmptyRankCopy) [[5]] =
    Returned (Val 5) [[5]] /\
  collective 2 (DistributedArray.bincount true) [[]; [5]] =
    ([[EmptyRankCopy; Val 5]],
     Done [(LocalCounts 1%nat, [[]; []]); (LocalCounts 1%nat, [[5]; [1]])]) /\
  advance (DistributedArray.bincount_offset
             (DistributedArray_init 0%nat (mkComm 2 3)) EmptyRankCopy) [[]] =
    Returned EmptyRankCopy [[]] /\
  collective 2 (DistributedArray.bincount true) [[5]; []; []] =
    ([[Val 5; EmptyRankCopy; EmptyRankCopy]],
     Failed [Some (LocalCounts 1%nat, [[5]; [0; 0; 0; 0; 0; 1]]);
             Some (LocalCounts 1%nat, [[]; []]);
             None]).
Proof. repeat split; vm_compute; reflexivity. Qed.

Lemma counts_defined_by_evaluation (chunks : list (list Z)) :
  forallb (fun i => bool_decide (is_Some (local_count_at chunks i))) (ranks chunks) = true ->
  counts_defined chunks.
Proof.
  intros H i Hi. rewrite forallb_forall in H.
  specialize (H i). rewrite in_ranks in H.
  apply bool_decide_eq_true in H; auto.
Defined.

(** C4, as stated: on the group [[0; 0]], [[0; 1]] a call of
    [bincount(local=True)] takes part in an all-gather, and a rank that
    calls it alone waits for the other rank for ever. *)
Lemma local_bincount_exchanges_tails :
  local_bincount_exchanges [[0; 0]; [0; 1]] <> 0%nat /\
  run_group 2
    [(DistributedArray.bincount true (DistributedArray_init 0%nat (mkComm 0 2)), [[0; 0]]);
     (Ret (LocalCounts 0%nat), [[0; 1]])] [] = ([], Deadlock).
Proof. split; [vm_compute; discriminate|vm_compute; reflexivity]. Qed.

(** C4, amended. [bincount(local=True)] takes part in exactly one
    collective exchange, the all-gather of the tails that [prev()] makes,
    and then returns the count array of [self.local - offset] without the
    four further exchanges of the global path. *)
Theorem local_bincount_one_exchange (chunks : list (list Z)) (r fuel : nat) :
  (r < length chunks)%nat -> counts_defined chunks -> (6 <= fuel)%nat ->
  exists res,
    collective fuel (DistributedArray.bincount true) chunks =
      ([gathered_tails chunks], Done res) /\
    local_bincount_exchanges chunks = 1%nat /\
    (exists N h, res !! r = Some (LocalCounts N, h) /\
                 h !! N = local_count_at chunks r) /\
    length (fst (collective fuel (DistributedArray.bincount false) chunks)) = 5%nat.
Proof.
  intros Hr Hdef Hfuel.
  assert (Hne : chunks <> []) by (intros ->; simpl in Hr; lia).
  destruct (two_more fuel 6 Hfuel) as [f ->]. cbn [Nat.add].
  unfold local_bincount_exchanges.
  rewrite !(collective_bincount_local chunks Hne Hdef).
  rewrite (collective_bincount_global chunks Hne Hdef).
  eexists. split; [reflexivity|]. split; [reflexivity|]. split; [|reflexivity].
  exists 1%nat, [chunk chunks r; count_at chunks r]. split.
  - unfold ranks. rewrite lookup_map_seq by exact Hr. reflexivity.
  - rewrite (local_count_at_defined chunks Hdef r Hr). reflexivity.
Qed.

Lemma local_bincount_one_exchange_witness :
  (1 < length [[0; 0]; [0; 1]])%nat /\ counts_defined [[0; 0]; [0; 1]] /\
  exists res,
    collective 6 (DistributedArray.bincount true) [[0; 0]; [0; 1]] =
      ([gathered_tails [[0; 0]; [0; 1]]], Done res) /\
    local_bincount_exchanges [[0; 0]; [0; 1]] = 1%nat /\
    (exists N h, res !! 1%nat = Some (LocalCounts N, h) /\
                 h !! N = local_count_at [[0; 0]; [0; 1]] 1) /\
    length (fst (collective 6 (DistributedArray.bincount false) [[0; 0]; [0; 1]])) = 5%nat.
Proof.
  assert (Hd : counts_defined [[0; 0]; [0; 1]])
    by (apply counts_defined_by_evaluation; vm_compute; reflexivity).
  split; [simpl; lia|]. split; [exact Hd|].
  apply (local_bincount_one_exchange [[0; 0]; [0; 1]] 1 6); [simpl; lia|exact Hd|lia].
Defined.



(** * Frame: the source chunk *)

(** C9, as stated: what [bincount(local=True)] returns on the group
    [[1; 1; 2]], [[2; 2; 3]] is the count array itself, on both ranks, not
    a [DistributedArray]. *)
Lemma local_bincount_returns_bare_array :
  exists res,
    snd (collective 2 (DistributedArray.bincount true) [[1; 1; 2]; [2; 2; 3]]) = Done res /\
    map (fun ch => is_DistributedArray (fst ch)) res = [false; false].
Proof. eexists. split; vm_compute; reflexivity. Qed.

(** C9, amended. [unique_labels()] and [bincount()] leave the source
    chunk as it was: the array [self.local] holds the same elements after
    the call, and the result is in an array that is not [self.local] and
    did not exist before the call.  [unique_labels()] and [bincount()]
    with [local=False] return a new [DistributedArray] over that array,
    [bincount(local=True)] returns the array itself. *)
Theorem labels_and_counts_leave_source_unchanged
    (chunks : list (list Z)) (r fuel : nat) :
  (r < length chunks)%nat -> counts_defined chunks -> (6 <= fuel)%nat ->
  let self := DistributedArray_init 0%nat (mkComm r (length chunks)) in
  let before : heap := [chunk chunks r] in
  before !! local self = Some (chunk chunks r) /\
  (exists res d after,
      snd (collective fuel DistributedArray.unique_labels chunks) = Done res /\
      res !! r = Some (d, after) /\
      after !! local self = Some (chunk chunks r) /\
      local d <> local self /\
      before !! local d = None /\
      is_Some (after !! local d) /\
      d = DistributedArray_init (local d) (comm self)) /\
  (exists res d after,
      snd (collective fuel (DistributedArray.bincount false) chunks) = Done res /\
      res !! r = Some (GlobalCounts d, after) /\
      after !! local self = Some (chunk chunks r) /\
      local d <> local self /\
      before !! local d = None /\
      is_Some (after !! local d) /\
      d = DistributedArray_init (local d) (comm self)) /\
  (exists res N after,
      snd (collective fuel (DistributedArray.bincount true) chunks) = Done res /\
      res !! r = Some (LocalCounts N, after) /\
      after !! local self = Some (chunk chunks r) /\
      N <> local self /\
      before !! N = None /\
      is_Some (after !! N)).
Proof.
  intros Hr Hdef Hfuel self before.
  assert (Hne : chunks <> []) by (intros ->; simpl in Hr; lia).
  destruct (two_more fuel 6 Hfuel) as [f ->]. cbn [Nat.add].
  rewrite (collective_unique_labels chunks Hne).
  rewrite (collective_bincount_global chunks Hne Hdef).
  rewrite (collective_bincount_local chunks Hne Hdef).
  split; [reflexivity|]. split; [|split].
  - eexists. exists (DistributedArray_init 1%nat (mkComm r (length chunks))).
    exists [chunk chunks r; labels_at chunks r].
    split; [reflexivity|].
    split; [unfold ranks; rewrite lookup_map_seq by exact Hr; reflexivity|].
    repeat split; simpl; eauto.
  - eexists. exists (DistributedArray_init 1%nat (mkComm r (length chunks))).
    exists [chunk chunks r; global_count_at chunks r].
    split; [reflexivity|].
    split; [unfold ranks; rewrite lookup_map_seq by exact Hr; reflexivity|].
    repeat split; simpl; eauto.
  - eexists. exists 1%nat, [chunk chunks r; count_at chunks r].
    split; [reflexivity|].
    split; [unfold ranks; rewrite lookup_map_seq by exact Hr; reflexivity|].
    repeat split; simpl; eauto.
Qed.

Lemma labels_and_counts_leave_source_unchanged_witness :
  (1 < length [[1; 1; 2]; [2; 2; 3]])%nat /\ counts_defined [[1; 1; 2]; [2; 2; 3]] /\
  let self := DistributedArray_init 0%nat (mkComm 1 (length [[1; 1; 2]; [2; 2; 3]])) in
  let before : heap := [chunk [[1; 1; 2]; [2; 2; 3]] 1] in
  before !! local self = Some (chunk [[1; 1; 2]; [2; 2; 3]] 1) /\
  (exists res d after,
      snd (collective 6 DistributedArray.unique_labels [[1; 1; 2]; [2; 2; 3]]) = Done res /\
      res !! 1%nat = Some (d, after) /\
      after !! local self = Some (chunk [[1; 1; 2]; [2; 2; 3]] 1) /\
      local d <> local self /\
      before !! local d = None /\
      is_Some (after !! local d) /\
      d = DistributedArray_init (local d) (comm self)) /\
  (exists res d after,
      snd (collective 6 (DistributedArray.bincount false) [[1; 1; 2]; [2; 2; 3]]) = Done res /\
      res !! 1%nat = Some (GlobalCounts d, after) /\
      after !! local self = Some (chunk [[1; 1; 2]; [2; 2; 3]] 1) /\
      local d <> local self /\
      before !! local d = None /\
      is_Some (after !! local d) /\
      d = DistributedArray_init (local d) (comm self)) /\
  (exists res N after,
      snd (collective 6 (DistributedArray.bincount true) [[1; 1; 2]; [2; 2; 3]]) = Done res /\
      res !! 1%nat = Some (LocalCounts N, after) /\
      after !! local self = Some (chunk [[1; 1; 2]; [2; 2; 3]] 1) /\
      N <> local self /\
      before !! N = None /\
      is_Some (after !! N)).
Proof.
  assert (Hd : counts_defined [[1; 1; 2]; [2; 2; 3]])
    by (apply counts_defined_by_evaluation; vm_compute; reflexivity).
  split; [simpl; lia|]. split; [exact Hd|].
  apply (labels_and_counts_leave_source_unchanged [[1; 1; 2]; [2; 2; 3]] 1 6);
    [simpl; lia|exact Hd|lia].
Defined.

(** * unique_labels: the labels *)

(** The example of the specification: a value that spans the boundary
    gets the same label on both ranks. *)
Example unique_labels_boundary_example :
  snd (collective 4 DistributedArray.unique_labels [[1; 1; 2]; [2; 2; 3]]) =
  Done [(DistributedArray_init 1%nat (mkComm 0 2), [[1; 1; 2]; [0; 0; 1]]);
        (DistributedArray_init 1%nat (mkComm 1 2), [[2; 2; 3]; [1; 1; 2]])].
Proof. vm_compute. reflexivity. Qed.

(** C2. On the sorted group [[1]], [[]], [[1]] the two equal values get
    the labels 0 and 1: [next()] on rank 0 is the object the empty rank 1
    put in the exchange, which is not equal to rank 0's last element, so
    rank 0 contributes its one distinct value although that value goes on
    on rank 2. *)
Theorem unique_labels_different_labels_for_equal_values :
  collective 4 DistributedArray.unique_labels [[1]; []; [1]] =
  ([[Val 1; EmptyRankCopy; Val 1]; [Val 1; EmptyRankCopy; Val 1];
    [Val 1; Val 0; Val 1]],
   Done [(DistributedArray_init 1%nat (mkComm 0 3), [[1]; [0]]);
         (DistributedArray_init 1%nat (mkComm 1 3), [[]; []]);
         (DistributedArray_init 1%nat (mkComm 2 3), [[1]; [1]])]).
Proof. vm_compute. reflexivity. Qed.

(** ** numpy.unique: the distinct values *)

Section Unique.
Implicit Types (l ar : list Z) (v x : Z).

Lemma elem_of_insert_sorted x v l : x ∈ insert_sorted v l <-> x = v \/ x ∈ l.
Proof.
induction l as [|y l IH]; simpl.
- rewrite list_elem_of_singleton, elem_of_nil. tauto.
- destruct (Z.ltb_spec v y).
+ rewrite elem_of_cons. tauto.
+ destruct (Z.eqb_spec v y) as [->|Hne].
  * rewrite elem_of_cons. tauto.
  * rewrite !elem_of_cons, IH. tauto.
Qed.

Lemma insert_sorted_strict v l :
StronglySorted Z.lt l -> StronglySorted Z.lt (insert_sorted v l).
Proof.
induction 1 as [|y l Hs IH Hy]; simpl.
- repeat constructor.
- destruct (Z.ltb_spec v y).
+ constructor; [constructor; assumption|].
  constructor; [assumption|].
  eapply Forall_impl; [exact Hy|]. intros z Hz. simpl in Hz. lia.
+ destruct (Z.eqb_spec v y) as [->|Hne].
  * constructor; assumption.
  * constructor; [exact IH|].
    apply Forall_forall. intros z Hz. apply elem_of_insert_sorted in Hz.
    destruct Hz as [->|Hz]; [lia|].
    rewrite Forall_forall in Hy. apply Hy, Hz.
Qed.

Lemma unique_values_strict ar : StronglySorted Z.lt (unique_values ar).
Proof.
induction ar as [|x ar IH]; simpl; [constructor|].
apply insert_sorted_strict, IH.
Qed.

Lemma elem_of_unique_values x ar : x ∈ unique_values ar <-> x ∈ ar.
Proof.
induction ar as [|y ar IH]; simpl; [reflexivity|].
rewrite elem_of_insert_sorted, elem_of_cons, IH. reflexivity.
Qed.

Lemma strict_NoDup l : StronglySorted Z.lt l -> NoDup l.
Proof.
induction 1 as [|y l Hs IH Hy]; constructor; [|exact IH].
intros Hin. rewrite Forall_forall in Hy. specialize (Hy y Hin). lia.
Qed.

(** [len(junk)] is the number of distinct values of the chunk. *)
Lemma unique_values_length ar :
length (unique_values ar) = length (remove_dups ar).
Proof.
apply Permutation_length, NoDup_Permutation.
- apply strict_NoDup, unique_values_strict.
- apply NoDup_remove_dups.
- intros x. rewrite elem_of_unique_values, elem_of_remove_dups. reflexivity.
Qed.

End Unique.

(** C10. In [unique_labels()] a rank takes one off its distinct count
    only when [next()] returns an element that is equal to its last local
    element: [EmptyRank] is equal to no element, so a rank whose chunk is
    not empty and whose [next()] is [EmptyRank] contributes its full
    number of distinct values to the gathered counts. *)
Theorem full_distinct_count_when_next_is_EmptyRank
    (chunks : list (list Z)) (r fuel : nat) (c : list Z) :
  chunks !! r = Some c -> c <> [] -> (4 <= fuel)%nat ->
  exists resN nxt tails heads gathered res n,
    snd (collective fuel call_next chunks) = Done resN /\
    result_value resN r = Some nxt /\
    collective fuel DistributedArray.unique_labels chunks =
      ([tails; heads; gathered], Done res) /\
    gathered !! r = Some (Val n) /\
    (nxt = EmptyRank -> n = Z.of_nat (length (remove_dups c))) /\
    (n = Z.of_nat (length (remove_dups c)) - 1 <->
     exists x, nxt = Val x /\ last c = Some x) /\
    (n = Z.of_nat (length (remove_dups c)) \/
     n = Z.of_nat (length (remove_dups c)) - 1).
Proof.
intros Hc Hne Hfuel.
assert (Hr : (r < length chunks)%nat) by (eapply lookup_lt_Some; exact Hc).
assert (Hgroup : chunks <> []) by (intros ->; simpl in Hr; lia).
destruct (two_more fuel 4 Hfuel) as [f ->]. cbn [Nat.add].
rewrite (collective_next chunks Hgroup), (collective_unique_labels chunks Hgroup).
eexists. exists (next_value chunks r). do 4 eexists. exists (Nunique_at chunks r).
split; [reflexivity|].
split; [unfold result_value, ranks; rewrite lookup_map_seq by exact Hr; reflexivity|].
split; [reflexivity|].
split; [unfold gathered_Nunique, ranks; rewrite lookup_map_seq by exact Hr; reflexivity|].
unfold Nunique_at, contributed_value.
assert (Hchunk : chunk chunks r = c).
{ unfold chunk. rewrite nth_lookup, Hc. reflexivity. }
rewrite Hchunk. cbn [numpy_unique fst]. rewrite unique_values_length.
destruct (last c) as [x|] eqn:Hlast; [|apply last_None in Hlast; congruence].
destruct (next_value chunks r) as [| |y]; cbn [item_eqb].
- split; [reflexivity|]. split; [|left; reflexivity].
  split; [lia|]. intros (z & Hz & _). discriminate Hz.
- split; [reflexivity|]. split; [|left; reflexivity].
  split; [lia|]. intros (z & Hz & _). discriminate Hz.
- destruct (Z.eqb_spec y x) as [->|Hyx].
  + split; [discriminate|]. split; [|right; reflexivity].
    split; [eauto|reflexivity].
  + split; [discriminate|]. split; [|left; reflexivity].
    split; [lia|]. intros (z & [= ->] & [= ->]). congruence.
Qed.

Lemma full_distinct_count_when_next_is_EmptyRank_witness :
  [[1; 1; 2]; [2; 2; 3]] !! 1%nat = Some [2; 2; 3] /\ [2; 2; 3] <> [] /\
  exists resN nxt tails heads gathered res n,
    snd (collective 4 call_next [[1; 1; 2]; [2; 2; 3]]) = Done resN /\
    result_value resN 1 = Some nxt /\
    collective 4 DistributedArray.unique_labels [[1; 1; 2]; [2; 2; 3]] =
      ([tails; heads; gathered], Done res) /\
    gathered !! 1%nat = Some (Val n) /\
    (nxt = EmptyRank -> n = Z.of_nat (length (remove_dups [2; 2; 3]))) /\
    (n = Z.of_nat (length (remove_dups [2; 2; 3])) - 1 <->
     exists x, nxt = Val x /\ last [2; 2; 3] = Some x) /\
    (n = Z.of_nat (length (remove_dups [2; 2; 3])) \/
     n = Z.of_nat (length (remove_dups [2; 2; 3])) - 1).
Proof.
split; [reflexivity|]. split; [discriminate|].
apply (full_distinct_count_when_next_is_EmptyRank [[1; 1; 2]; [2; 2; 3]] 1 4 [2; 2; 3]);
  [reflexivity|discriminate|lia].
Defined.


(** * bincount on a sorted array: what the bins hold *)

Section Sums.
Implicit Types (l : list nat) (f g : nat -> Z).

Lemma Zsum_map_ext l f g :
(forall i, In i l -> f i = g i) -> Zsum (map f l) = Zsum (map g l).
Proof. intros H. rewrite (map_ext_in f g l H). reflexivity. Qed.

Lemma Zsum_map_zero l f : (forall i, In i l -> f i = 0) -> Zsum (map f l) = 0.
Proof.
induction l as [|i l IH]; intros H; [reflexivity|].
cbn [map Zsum foldr]. fold (Zsum (map f l)).
rewrite (H i (or_introl eq_refl)), IH; [reflexivity|].
intros j Hj. apply H. right. exact Hj.
Qed.

Lemma seq_split_at (r n : nat) :
(r < n)%nat -> seq 0 n = seq 0 r ++ r :: seq (r + 1) (n - (r + 1)).
Proof.
intros Hr. replace n with (r + S (n - (r + 1)))%nat at 1 by lia.
rewrite seq_app. cbn [seq Nat.add]. replace (S r) with (r + 1)%nat by lia.
reflexivity.
Qed.

End Sums.

Section Occurrences.
Implicit Types (c : list Z) (v : Z).

Lemma count_of_nil v : count_of [] v = 0.
Proof. reflexivity. Qed.

Lemma count_of_not_in c v : v ∉ c -> count_of c v = 0.
Proof.
intros H. unfold count_of.
replace (count_occ Z.eq_dec c v) with 0%nat; [reflexivity|].
symmetry. apply count_occ_not_In. rewrite <- list_elem_of_In. exact H.
Qed.

Lemma count_of_app c1 c2 v : count_of (c1 ++ c2) v = count_of c1 v + count_of c2 v.
Proof. unfold count_of. rewrite count_occ_app. lia. Qed.

Lemma count_of_concat (cs : list (list Z)) v :
count_of (concat cs) v = Zsum (map (fun c => count_of c v) cs).
Proof.
induction cs as [|c cs IH]; [reflexivity|].
cbn [concat map Zsum foldr]. fold (Zsum (map (fun c => count_of c v) cs)).
rewrite count_of_app, IH. reflexivity.
Qed.

Lemma count_of_shift c v off :
count_of (map (fun x => x - off) c) (v - off) = count_of c v.
Proof.
unfold count_of. f_equal. symmetry.
apply (count_occ_map (fun x => x - off) Z.eq_dec Z.eq_dec).
intros x y Hxy. lia.
Qed.

Lemma foldr_max_ge (ys : list Z) y : y ∈ ys -> y <= foldr Z.max 0 ys.
Proof.
induction ys as [|z ys IH]; intros H; [inversion H|].
apply elem_of_cons in H as [->|H]; simpl; [lia|].
specialize (IH H). lia.
Qed.

Lemma foldr_max_le (ys : list Z) m :
0 <= m -> (forall y, y ∈ ys -> y <= m) -> foldr Z.max 0 ys <= m.
Proof.
intros Hm. induction ys as [|z ys IH]; intros H; simpl; [lia|].
assert (z <= m) by (apply H; left).
assert (foldr Z.max 0 ys <= m) by (apply IH; intros y Hy; apply H; right; exact Hy).
lia.
Qed.

Lemma numpy_bincount_defined (x : list Z) :
(forall v, v ∈ x -> 0 <= v) -> is_Some (numpy_bincount x).
Proof.
intros H. unfold numpy_bincount.
replace (forallb (fun v => 0 <=? v) x) with true; [eauto|].
symmetry. apply forallb_forall. intros v Hv.
apply Z.leb_le, H, list_elem_of_In, Hv.
Qed.

End Occurrences.

Section SortedChunk.
Variable c : list Z.
Hypothesis sorted : StronglySorted Z.le c.

Lemma sorted_head_le f x : head c = Some f -> x ∈ c -> f <= x.
Proof using sorted.
intros Hf Hx. destruct c as [|y c']; [discriminate|]. injection Hf as ->.
apply StronglySorted_cons in sorted as [Hall _].
apply elem_of_cons in Hx as [->|Hx]; [lia|].
rewrite Forall_forall in Hall. apply Hall, Hx.
Qed.

Lemma sorted_le_last l x : last c = Some l -> x ∈ c -> x <= l.
Proof using sorted.
intros Hl Hx. revert sorted Hl Hx. clear.
induction c as [|y c' IH]; intros Hs Hl Hx; [discriminate|].
apply StronglySorted_cons in Hs as [Hall Hs].
destruct c' as [|z c''].
- injection Hl as <-. apply list_elem_of_singleton in Hx. lia.
- change (last (y :: z :: c'')) with (last (z :: c'')) in Hl.
apply elem_of_cons in Hx as [->|Hx].
+ assert (Hin : l ∈ z :: c'').
  { apply list_elem_of_lookup. exists (pred (length (z :: c''))).
    rewrite <- last_lookup. exact Hl. }
  rewrite Forall_forall in Hall. apply Hall, Hin.
+ apply IH; assumption.
Qed.

Lemma last_elem_of l : last c = Some l -> l ∈ c.
Proof using.
intros Hl. apply list_elem_of_lookup. exists (pred (length c)).
rewrite <- last_lookup. exact Hl.
Qed.

Lemma head_elem_of f : head c = Some f -> f ∈ c.
Proof using.
intros Hf. apply list_elem_of_lookup. exists 0%nat.
rewrite <- head_lookup. exact Hf.
Qed.

(** The bins of [numpy.bincount(c - off)] for a sorted chunk whose
  elements are not below [off]. *)
Lemma bincount_sorted_length off l N :
last c = Some l -> (forall x, x ∈ c -> off <= x) ->
numpy_bincount (map (fun x => x - off) c) = Some N ->
length N = Z.to_nat (l - off + 1).
Proof using sorted.
intros Hl Hoff HN.
assert (Hne : map (fun x => x - off) c <> []).
{ destruct c; [discriminate Hl|discriminate]. }
rewrite (numpy_bincount_length _ _ HN Hne). do 2 f_equal.
assert (Hin : l ∈ c) by (apply last_elem_of, Hl).
apply Z.le_antisymm.
- apply foldr_max_le; [specialize (Hoff l Hin); lia|].
intros y Hy. change (y ∈ (fun x => x - off) <$> c) in Hy.
apply list_elem_of_fmap in Hy as (x & -> & Hx).
pose proof (sorted_le_last l x Hl Hx). lia.
- apply foldr_max_ge. change ((l - off) ∈ (fun x => x - off) <$> c).
apply list_elem_of_fmap. exists l. split; [reflexivity|exact Hin].
Qed.

Lemma bincount_sorted_lookup off N (b : nat) :
numpy_bincount (map (fun x => x - off) c) = Some N ->
(b < length N)%nat ->
N !! b = Some (count_of c (off + Z.of_nat b)).
Proof.
intros HN Hb. rewrite (numpy_bincount_lookup _ _ b HN Hb). f_equal.
rewrite <- (count_of_shift c (off + Z.of_nat b) off). f_equal. lia.
Qed.

End SortedChunk.

Lemma sorted_concat_chunks (cs : list (list Z)) :
  StronglySorted Z.le (concat cs) ->
  (forall i c, cs !! i = Some c -> StronglySorted Z.le c) /\
  (forall i j ci cj x y,
      (i < j)%nat -> cs !! i = Some ci -> cs !! j = Some cj ->
      x ∈ ci -> y ∈ cj -> x <= y).
Proof.
induction cs as [|c cs IH]; intros Hs.
- split; intros; discriminate.
- cbn [concat] in Hs. apply StronglySorted_app in Hs as (Hcross & Hc & Hrest).
  destruct (IH Hrest) as [IH1 IH2]. split.
  + intros [|i] ci Hi; simpl in Hi; [injection Hi as <-; exact Hc|eauto].
  + intros i j ci cj x y Hij Hi Hj Hx Hy.
    destruct j as [|j]; [lia|]. simpl in Hj.
    destruct i as [|i]; simpl in Hi.
    * injection Hi as <-. apply (Hcross x y Hx).
      apply list_elem_of_In, in_concat. exists cj.
      split; [|apply list_elem_of_In, Hy].
      apply list_elem_of_In, list_elem_of_lookup. eauto.
    * apply (IH2 i j ci cj); auto. lia.
Qed.

Lemma item_eqb_true x v : item_eqb x v = true -> x = Val v.
Proof.
destruct x as [| |z]; simpl; try discriminate.
intros H. apply Z.eqb_eq in H. congruence.
Qed.

(** ** The offset, rank by rank *)

Section Offsets.
Variable chunks : list (list Z).

Lemma offset_object_first : offset_object chunks 0 = Val 0.
Proof. unfold offset_object, offset_value. rewrite prev_value_first. reflexivity. Qed.

(** A rank after rank 0 that holds data takes its first element: what
  [prev()] returns there is never [EmptyRank] itself. *)
Lemma offset_object_data r f :
(r < length chunks)%nat -> head (chunk chunks (S r)) = Some f ->
offset_object chunks (S r) = Val f.
Proof.
intros Hr Hf. unfold offset_object, offset_value.
rewrite prev_value_after by exact Hr. rewrite unpickled_not_EmptyRank. cbn [negb].
destruct (chunk chunks (S r)) as [|y c]; [discriminate|]. injection Hf as ->.
destruct (item_eqb (unpickled (tail_item (chunk chunks r))) f) eqn:E;
cbn [negb]; [|reflexivity].
apply item_eqb_true in E. exact E.
Qed.

(** An empty rank after rank 0 takes what the rank before it put in the
  exchange of the tails. *)
Lemma offset_object_empty r :
(r < length chunks)%nat -> chunk chunks (S r) = [] ->
offset_object chunks (S r) = unpickled (tail_item (chunk chunks r)).
Proof.
intros Hr He. unfold offset_object, offset_value.
rewrite prev_value_after by exact Hr. rewrite unpickled_not_EmptyRank, He.
reflexivity.
Qed.

End Offsets.

Section SortedGroup.
Variable chunks : list (list Z).
Hypothesis sorted_chunks : StronglySorted Z.le (concat chunks).
Hypothesis nonneg : forall x, x ∈ concat chunks -> 0 <= x.
Hypothesis no_empty_pair :
forall r, (S r < length chunks)%nat -> chunk chunks r = [] -> chunk chunks (S r) <> [].

Lemma chunk_elem_rank i x : x ∈ chunk chunks i -> (i < length chunks)%nat.
Proof.
intros Hx. destruct (decide (i < length chunks)%nat) as [|Hge]; [assumption|].
unfold chunk in Hx. rewrite nth_overflow in Hx by lia. inversion Hx.
Qed.

Lemma chunk_nonempty_rank i : chunk chunks i <> [] -> (i < length chunks)%nat.
Proof.
intros Hne. destruct (decide (i < length chunks)%nat) as [|Hge]; [assumption|].
unfold chunk in Hne. rewrite nth_overflow in Hne by lia. congruence.
Qed.

Lemma chunk_sorted i : StronglySorted Z.le (chunk chunks i).
Proof using sorted_chunks.
destruct (decide (i < length chunks)%nat) as [Hi|Hge].
- apply (proj1 (sorted_concat_chunks chunks sorted_chunks) i).
apply chunk_lookup, Hi.
- unfold chunk. rewrite nth_overflow by lia. constructor.
Qed.

Lemma chunks_ordered i j x y :
(i < j)%nat -> x ∈ chunk chunks i -> y ∈ chunk chunks j -> x <= y.
Proof using sorted_chunks.
intros Hij Hx Hy.
apply (proj2 (sorted_concat_chunks chunks sorted_chunks) i j
       (chunk chunks i) (chunk chunks j)); auto.
- apply chunk_lookup. eapply chunk_elem_rank; eauto.
- apply chunk_lookup. eapply chunk_elem_rank; eauto.
Qed.

Lemma chunk_elem_nonneg i x : x ∈ chunk chunks i -> 0 <= x.
Proof using nonneg.
intros Hx. apply nonneg. apply list_elem_of_In, in_concat.
exists (chunk chunks i). split; [|apply list_elem_of_In, Hx].
apply list_elem_of_In, list_elem_of_lookup. exists i.
apply chunk_lookup. eapply chunk_elem_rank; eauto.
Qed.

(** The offset of a rank that holds data: 0 on rank 0, the rank's first
  element on every other rank. *)
Lemma offset_at_cases r f :
(r < length chunks)%nat -> head (chunk chunks r) = Some f ->
(r = 0%nat /\ offset_object chunks r = Val 0) \/
(r <> 0%nat /\ offset_object chunks r = Val f).
Proof.
intros Hr Hf. destruct r as [|r].
- left. split; [reflexivity|apply offset_object_first].
- right. split; [discriminate|]. apply offset_object_data; [lia|exact Hf].
Qed.

Lemma offset_at_le r x :
(r < length chunks)%nat -> x ∈ chunk chunks r -> offset_at chunks r <= x.
Proof using sorted_chunks nonneg.
intros Hr Hx. unfold offset_at.
destruct (head (chunk chunks r)) as [f|] eqn:Hf.
- destruct (offset_at_cases r f Hr Hf) as [[_ ->]|[_ ->]]; cbn [item_count].
+ eapply chunk_elem_nonneg; eauto.
+ apply (sorted_head_le (chunk chunks r) (chunk_sorted r) f x Hf Hx).
- apply head_None in Hf. rewrite Hf in Hx. inversion Hx.
Qed.

(** On a sorted group of non-negative numbers in which no empty rank
  comes directly after an empty rank, no rank raises in
  [numpy.bincount]. *)
Lemma counts_defined_sorted : counts_defined chunks.
Proof using sorted_chunks nonneg no_empty_pair.
intros i Hi. unfold local_count_at.
destruct (head (chunk chunks i)) as [f|] eqn:Hf.
- assert (Hoff : offset_object chunks i = Val (offset_at chunks i)).
{ unfold offset_at.
  destruct (offset_at_cases i f Hi Hf) as [[_ ->]|[_ ->]]; reflexivity. }
rewrite Hoff. cbn [bincount_minus]. apply numpy_bincount_defined.
intros v Hv. change (v ∈ (fun x => x - offset_at chunks i) <$> chunk chunks i) in Hv.
apply list_elem_of_fmap in Hv as (x & -> & Hx).
pose proof (offset_at_le i x Hi Hx). lia.
- apply head_None in Hf. rewrite Hf. destruct i as [|i].
+ rewrite offset_object_first. eexists. reflexivity.
+ rewrite offset_object_empty by (try exact Hf; lia).
  destruct (last (chunk chunks i)) as [l|] eqn:Hl.
  * unfold tail_item. rewrite Hl. eexists. reflexivity.
  * apply last_None in Hl. exfalso. apply (no_empty_pair i Hi Hl Hf).
Qed.

End SortedGroup.

Section BinLookups.
Implicit Types (N : list Z) (z : Z) (b : nat).

Lemma add_first_lookup N z b :
add_first N z !! b = (fun x => if decide (b = 0%nat) then x + z else x) <$> (N !! b).
Proof.
destruct N as [|x N]; [reflexivity|]. rewrite add_first_cons.
destruct b as [|b]; simpl; [reflexivity|].
destruct (N !! b); reflexivity.
Qed.

Lemma add_last_lookup N z b :
add_last N z !! b =
(fun x => if decide (S b = length N) then x + z else x) <$> (N !! b).
Proof.
destruct N as [|x N _] using rev_ind; [reflexivity|].
rewrite add_last_snoc, length_app. cbn [length].
destruct (decide (b < length N)%nat) as [Hb|Hb].
- rewrite !lookup_app_l by exact Hb.
destruct (N !! b); [|reflexivity]. simpl.
destruct (decide (S b = (length N + 1)%nat)); [lia|reflexivity].
- rewrite !lookup_app_r by lia.
destruct (b - length N)%nat as [|k] eqn:Hk; simpl; [|reflexivity].
destruct (decide (S b = (length N + 1)%nat)); [reflexivity|lia].
Qed.

Lemma tail_item_last N x : last N = Some x -> tail_item N = Val x.
Proof. intros H. unfold tail_item. rewrite H. reflexivity. Qed.

Lemma head_item_first N x : N !! 0%nat = Some x -> head_item N = Val x.
Proof. destruct N; simpl; [discriminate|]. intros [= ->]. reflexivity. Qed.

End BinLookups.

Section SortedCounts.
Variable chunks : list (list Z).
Hypothesis sorted_chunks : StronglySorted Z.le (concat chunks).
Hypothesis nonneg : forall x, x ∈ concat chunks -> 0 <= x.
Hypothesis no_empty_pair :
forall r, (S r < length chunks)%nat -> chunk chunks r = [] -> chunk chunks (S r) <> [].

Let defined : counts_defined chunks :=
counts_defined_sorted chunks sorted_chunks nonneg no_empty_pair.

Lemma count_at_length i l :
(i < length chunks)%nat -> last (chunk chunks i) = Some l ->
length (count_at chunks i) = Z.to_nat (l - offset_at chunks i + 1).
Proof using sorted_chunks nonneg no_empty_pair.
intros Hi Hl.
apply (bincount_sorted_length (chunk chunks i) (chunk_sorted chunks sorted_chunks i)
       (offset_at chunks i) l (count_at chunks i) Hl).
- intros x Hx. apply (offset_at_le chunks sorted_chunks nonneg i x Hi Hx).
- apply (count_at_numeric chunks defined i Hi).
Qed.

Lemma count_at_lookup i (b : nat) :
(i < length chunks)%nat -> (b < length (count_at chunks i))%nat ->
count_at chunks i !! b =
Some (count_of (chunk chunks i) (offset_at chunks i + Z.of_nat b)).
Proof using sorted_chunks nonneg no_empty_pair.
intros Hi Hb. apply bincount_sorted_lookup; [|exact Hb].
apply (count_at_numeric chunks defined i Hi).
Qed.

Lemma offset_le_last i l :
(i < length chunks)%nat -> last (chunk chunks i) = Some l ->
offset_at chunks i <= l.
Proof using sorted_chunks nonneg no_empty_pair.
intros Hi Hl. apply (offset_at_le chunks sorted_chunks nonneg i l Hi).
apply last_elem_of, Hl.
Qed.

(** The count a rank puts in the exchange of the count tails: that of
  its last value. *)
Lemma tail_count i l :
(i < length chunks)%nat -> last (chunk chunks i) = Some l ->
tail_item (count_at chunks i) = Val (count_of (chunk chunks i) l).
Proof using sorted_chunks nonneg no_empty_pair.
intros Hi Hl. apply tail_item_last. rewrite last_lookup.
pose proof (count_at_length i l Hi Hl) as Hlen.
pose proof (offset_le_last i l Hi Hl) as Hle.
rewrite count_at_lookup by (try exact Hi; lia).
do 2 f_equal. lia.
Qed.

(** The count a rank after rank 0 puts in the exchange of the count
  heads: that of its first value. *)
Lemma head_count i f :
(i < length chunks)%nat -> head (chunk chunks i) = Some f ->
i <> 0%nat ->
head_item (count_at chunks i) = Val (count_of (chunk chunks i) f).
Proof using sorted_chunks nonneg no_empty_pair.
intros Hi Hf Hi0. apply head_item_first.
destruct (last (chunk chunks i)) as [l|] eqn:Hl.
- pose proof (count_at_length i l Hi Hl) as Hlen.
pose proof (offset_le_last i l Hi Hl) as Hle.
rewrite count_at_lookup by (try exact Hi; lia).
unfold offset_at.
destruct (offset_at_cases chunks i f Hi Hf) as [[Hi0' _]|[_ ->]]; [congruence|].
cbn [item_count]. do 2 f_equal. lia.
- apply last_None in Hl. rewrite Hl in Hf. discriminate.
Qed.

Lemma gathered_tails_item i :
(i < length chunks)%nat ->
default EmptyRank (gathered_tails chunks !! i) =
unpickled (tail_item (chunk chunks i)).
Proof.
intros Hi. unfold gathered_tails. rewrite gathered_lookup by exact Hi. reflexivity.
Qed.

Lemma gathered_heads_item i :
(i < length chunks)%nat ->
default EmptyRank (gathered_heads chunks !! i) =
unpickled (head_item (chunk chunks i)).
Proof.
intros Hi. unfold gathered_heads. rewrite gathered_lookup by exact Hi. reflexivity.
Qed.

Lemma gathered_tailsN_item i :
(i < length chunks)%nat ->
default EmptyRank (gathered_tailsN chunks !! i) =
unpickled (tail_item (count_at chunks i)).
Proof.
intros Hi. unfold gathered_tailsN, ranks.
rewrite lookup_map_seq by exact Hi. reflexivity.
Qed.

Lemma gathered_headsN_item i :
(i < length chunks)%nat ->
default EmptyRank (gathered_headsN chunks !! i) =
unpickled (head_item (count_at chunks i)).
Proof.
intros Hi. unfold gathered_headsN, ranks.
rewrite lookup_map_seq by exact Hi. reflexivity.
Qed.

(** What a rank before [r] adds to the first bin of rank [r] is the
  number of its elements that are equal to the first value of rank [r]. *)
Lemma matching_tail_count r i f :
(r < length chunks)%nat -> (i < r)%nat -> head (chunk chunks r) = Some f ->
matching_count (gathered_tails chunks) (gathered_tailsN chunks) f i =
count_of (chunk chunks i) f.
Proof using sorted_chunks nonneg no_empty_pair.
intros Hr Hi Hf. unfold matching_count.
rewrite gathered_tails_item, gathered_tailsN_item by lia.
destruct (last (chunk chunks i)) as [l|] eqn:Hl.
- rewrite (tail_item_last _ _ Hl). cbn [unpickled item_eqb].
destruct (Z.eqb_spec l f) as [->|Hne].
+ rewrite (tail_count i f) by (try exact Hl; lia). reflexivity.
+ symmetry. apply count_of_not_in. intros Hin.
  pose proof (sorted_le_last (chunk chunks i)
                (chunk_sorted chunks sorted_chunks i) l f Hl Hin).
  pose proof (chunks_ordered chunks sorted_chunks i r l f Hi
                (last_elem_of _ _ Hl) (head_elem_of _ _ Hf)).
  lia.
- apply last_None in Hl. rewrite Hl. reflexivity.
Qed.

(** What a rank after [r] adds to the last bin of rank [r] is the number
  of its elements that are equal to the last value of rank [r]. *)
Lemma matching_head_count r i l :
(i < length chunks)%nat -> (r < i)%nat -> last (chunk chunks r) = Some l ->
matching_count (gathered_heads chunks) (gathered_headsN chunks) l i =
count_of (chunk chunks i) l.
Proof using sorted_chunks nonneg no_empty_pair.
intros Hi Hr Hl. unfold matching_count.
rewrite gathered_heads_item, gathered_headsN_item by lia.
destruct (chunk chunks i) as [|f c] eqn:Hc; [reflexivity|].
cbn [head_item unpickled item_eqb].
assert (Hf : head (chunk chunks i) = Some f) by (rewrite Hc; reflexivity).
destruct (Z.eqb_spec f l) as [->|Hne].
- rewrite <- Hc, (head_count i l Hi Hf ltac:(lia)), Hc. reflexivity.
- symmetry. apply count_of_not_in. intros Hin. rewrite <- Hc in Hin.
pose proof (sorted_head_le (chunk chunks i)
              (chunk_sorted chunks sorted_chunks i) f l Hf Hin).
pose proof (chunks_ordered chunks sorted_chunks r i l f Hr
              (last_elem_of _ _ Hl) (head_elem_of _ _ Hf)).
lia.
Qed.

(** The elements before rank [r] that are equal to the value of bin [b]
  of rank [r]: those the fix-up adds for the first bin, none for the
  other bins. *)
Lemma before_sum r (b : nat) f :
(r < length chunks)%nat -> head (chunk chunks r) = Some f ->
Zsum (map (fun i => count_of (chunk chunks i) (offset_at chunks r + Z.of_nat b))
          (seq 0 r)) =
if decide (b = 0%nat)
then sum_before (gathered_tails chunks) (gathered_tailsN chunks) f r
else 0.
Proof using sorted_chunks nonneg no_empty_pair.
intros Hr Hf. unfold sum_before, offset_at.
destruct (offset_at_cases chunks r f Hr Hf) as [[-> _]|[_ ->]]; cbn [item_count].
- destruct (decide (b = 0%nat)); reflexivity.
- destruct (decide (b = 0%nat)) as [->|Hb].
+ apply Zsum_map_ext. intros i Hi. apply in_seq in Hi.
  rewrite (matching_tail_count r i f) by (try assumption; lia).
  f_equal. lia.
+ apply Zsum_map_zero. intros i Hi. apply in_seq in Hi.
  apply count_of_not_in. intros Hin.
  pose proof (chunks_ordered chunks sorted_chunks i r _ f ltac:(lia) Hin
                (head_elem_of _ _ Hf)).
  lia.
Qed.

Lemma after_sum r (b : nat) l :
(r < length chunks)%nat -> last (chunk chunks r) = Some l ->
(b < length (count_at chunks r))%nat ->
Zsum (map (fun i => count_of (chunk chunks i) (offset_at chunks r + Z.of_nat b))
          (seq (r + 1) (length chunks - (r + 1)))) =
if decide (S b = length (count_at chunks r))
then sum_after (gathered_heads chunks) (gathered_headsN chunks) l r (length chunks)
else 0.
Proof using sorted_chunks nonneg no_empty_pair.
intros Hr Hl Hb. unfold sum_after.
pose proof (count_at_length r l Hr Hl) as Hlen.
pose proof (offset_le_last r l Hr Hl) as Hle.
destruct (decide (S b = length (count_at chunks r))) as [Hlast|Hnot].
- apply Zsum_map_ext. intros i Hi. apply in_seq in Hi.
rewrite (matching_head_count r i l) by (try assumption; lia).
f_equal. lia.
- apply Zsum_map_zero. intros i Hi. apply in_seq in Hi.
apply count_of_not_in. intros Hin.
pose proof (chunks_ordered chunks sorted_chunks r i l _ ltac:(lia)
              (last_elem_of _ _ Hl) Hin).
lia.
Qed.

(** Every bin of the array a rank returns from the global [bincount]
  holds the number of occurrences of its value in the whole array. *)
Lemma global_count_at_lookup r (b : nat) :
(r < length chunks)%nat -> (b < length (global_count_at chunks r))%nat ->
global_count_at chunks r !! b =
Some (count_of (concat chunks) (offset_at chunks r + Z.of_nat b)).
Proof using sorted_chunks nonneg no_empty_pair.
intros Hr Hb. unfold global_count_at in *. rewrite fixup_value_spec in *.
unfold fixup_spec in *. rewrite add_last_length, add_first_length in Hb.
destruct (chunk chunks r) as [|f c] eqn:Hc.
{ rewrite (count_at_empty chunks defined r Hr Hc) in Hb. simpl in Hb. lia. }
assert (Hf : head (chunk chunks r) = Some f) by (rewrite Hc; reflexivity).
destruct (last (chunk chunks r)) as [l|] eqn:Hl;
[|apply last_None in Hl; congruence].
rewrite <- Hc. unfold first_of, last_of. rewrite Hf, Hl. cbn [default from_option id].
rewrite add_last_lookup, add_first_lookup, add_first_length.
rewrite (count_at_lookup r b Hr Hb). cbn [fmap option_fmap option_map].
f_equal.
rewrite count_of_concat, <- (map_chunk chunks (fun c => count_of c _)).
unfold ranks. rewrite (seq_split_at r (length chunks) Hr).
rewrite map_app, Zsum_app. cbn [map Zsum foldr].
fold (Zsum (map (fun i => count_of (chunk chunks i) (offset_at chunks r + Z.of_nat b))
              (seq (r + 1) (length chunks - (r + 1))))).
rewrite (before_sum r b f Hr Hf), (after_sum r b l Hr Hl Hb).
destruct (decide (b = 0%nat)), (decide (S b = length (count_at chunks r))); lia.
Qed.

Lemma global_count_at_covers r v :
(r < length chunks)%nat -> v ∈ chunk chunks r ->
offset_at chunks r <= v <
offset_at chunks r + Z.of_nat (length (global_count_at chunks r)).
Proof using sorted_chunks nonneg no_empty_pair.
intros Hr Hv. unfold global_count_at. rewrite fixup_value_spec.
unfold fixup_spec. rewrite add_last_length, add_first_length.
destruct (last (chunk chunks r)) as [l|] eqn:Hl.
- rewrite (count_at_length r l Hr Hl).
pose proof (offset_at_le chunks sorted_chunks nonneg r v Hr Hv).
pose proof (sorted_le_last (chunk chunks r)
              (chunk_sorted chunks sorted_chunks r) l v Hl Hv).
lia.
- apply last_None in Hl. rewrite Hl in Hv. inversion Hv.
Qed.

End SortedCounts.

(** C3, as stated: on the sorted group [[0; 0]], [[0; 1]] both ranks
    report 3 for the value 0 (the example of the docstring of
    [bincount]), so the reports add up to 6 where the array holds the
    value three times. *)
Lemma histogram_sum_counts_shared_value_twice :
  Sorted Z.le (concat [[0; 0]; [0; 1]]) /\ ~ histogram_conserved [[0; 0]; [0; 1]].
Proof.
split.
- simpl. repeat first [apply Sorted_cons | apply Sorted_nil
                      | apply HdRel_cons | apply HdRel_nil]; lia.
- intros (res & Hrun & Hsum). vm_compute in Hrun. injection Hrun as <-.
  specialize (Hsum 0). vm_compute in Hsum. discriminate Hsum.
Qed.

(** C3, amended. For every sorted distributed sequence of non-negative
    integers in which no empty rank comes directly after an empty rank,
    the array a rank returns from the global [bincount()] holds in every
    bin the number of occurrences of the bin's value in the concatenation
    of all chunks, and every value of the rank's chunk has its bin: each
    rank that holds a value reports its full global count.  Bin [b] of a
    rank stands for the value [offset + b], where the offset is 0 on rank
    0 and the rank's first element on every other rank that holds data. *)
Theorem bincount_every_bin_holds_global_count
    (chunks : list (list Z)) (r fuel : nat) :
  (r < length chunks)%nat ->
  Sorted Z.le (concat chunks) ->
  (forall x, x ∈ concat chunks -> 0 <= x) ->
  (forall j, (S j < length chunks)%nat -> chunk chunks j = [] ->
             chunk chunks (S j) <> []) ->
  (6 <= fuel)%nat ->
  exists res N,
    snd (collective fuel (DistributedArray.bincount false) chunks) = Done res /\
    result_array counts_loc res r = Some N /\
    (forall f, head (chunk chunks r) = Some f ->
        offset_at chunks r = if decide (r = 0%nat) then 0 else f) /\
    (forall b : nat,
        (b < length N)%nat ->
        N !! b = Some (count_of (concat chunks) (offset_at chunks r + Z.of_nat b))) /\
    (forall v, v ∈ chunk chunks r -> bin_of chunks res r v = count_of (concat chunks) v).
Proof.
intros Hr Hsorted Hnonneg Hpair Hfuel.
assert (Hss : StronglySorted Z.le (concat chunks)).
{ apply Sorted.Sorted_StronglySorted; [|exact Hsorted].
  intros x y z. apply Z.le_trans. }
assert (Hne : chunks <> []) by (intros ->; simpl in Hr; lia).
pose proof (counts_defined_sorted chunks Hss Hnonneg Hpair) as Hdef.
destruct (two_more fuel 6 Hfuel) as [f ->]. cbn [Nat.add].
rewrite (collective_bincount_global chunks Hne Hdef). cbn [snd].
eexists. exists (global_count_at chunks r).
split; [reflexivity|].
assert (Hres : result_array counts_loc
          (map (fun i => (GlobalCounts
                            (DistributedArray_init 1%nat (mkComm i (length chunks))),
                          [chunk chunks i; global_count_at chunks i]))
               (ranks chunks)) r = Some (global_count_at chunks r)).
{ unfold result_array, ranks. rewrite lookup_map_seq by exact Hr. reflexivity. }
split; [exact Hres|]. split; [|split].
- intros x Hx. unfold offset_at.
  destruct (offset_at_cases chunks r x Hr Hx) as [[-> ->]|[Hr0 ->]]; [reflexivity|].
  destruct (decide (r = 0%nat)); [congruence|reflexivity].
- intros b Hb. apply (global_count_at_lookup chunks Hss Hnonneg Hpair r b Hr Hb).
- intros v Hv. unfold bin_of. rewrite Hres.
  pose proof (global_count_at_covers chunks Hss Hnonneg Hpair r v Hr Hv) as Hcov.
  destruct (Z.leb_spec (offset_at chunks r) v) as [_|Hlt]; [|lia].
  rewrite (global_count_at_lookup chunks Hss Hnonneg Hpair r) by (try exact Hr; lia).
  cbn [default from_option id]. f_equal. lia.
Qed.

Lemma bincount_every_bin_holds_global_count_witness :
  (1 < length [[0; 0]; [0; 1]])%nat /\
  Sorted Z.le (concat [[0; 0]; [0; 1]]) /\
  (forall x, x ∈ concat [[0; 0]; [0; 1]] -> 0 <= x) /\
  (forall j, (S j < length [[0; 0]; [0; 1]])%nat -> chunk [[0; 0]; [0; 1]] j = [] ->
             chunk [[0; 0]; [0; 1]] (S j) <> []) /\
  exists res N,
    snd (collective 6 (DistributedArray.bincount false) [[0; 0]; [0; 1]]) = Done res /\
    result_array counts_loc res 1 = Some N /\
    (forall f, head (chunk [[0; 0]; [0; 1]] 1) = Some f ->
        offset_at [[0; 0]; [0; 1]] 1 = if decide (1%nat = 0%nat) then 0 else f) /\
    (forall b : nat,
        (b < length N)%nat ->
        N !! b = Some (count_of (concat [[0; 0]; [0; 1]])
                         (offset_at [[0; 0]; [0; 1]] 1 + Z.of_nat b))) /\
    (forall v, v ∈ chunk [[0; 0]; [0; 1]] 1 ->
               bin_of [[0; 0]; [0; 1]] res 1 v = count_of (concat [[0; 0]; [0; 1]]) v).
Proof.
assert (Hs : Sorted Z.le (concat [[0; 0]; [0; 1]])).
{ simpl. repeat first [apply Sorted_cons | apply Sorted_nil
                      | apply HdRel_cons | apply HdRel_nil]; lia. }
assert (Hn : forall x, x ∈ concat [[0; 0]; [0; 1]] -> 0 <= x).
{ intros x Hx. simpl in Hx.
  repeat (apply elem_of_cons in Hx as [->|Hx]; [lia|]). inversion Hx. }
assert (Hp : forall j, (S j < length [[0; 0]; [0; 1]])%nat ->
                       chunk [[0; 0]; [0; 1]] j = [] ->
                       chunk [[0; 0]; [0; 1]] (S j) <> []).
{ intros j Hj. simpl in Hj. assert (j = 0%nat) as -> by lia. discriminate. }
split; [simpl; lia|]. split; [exact Hs|]. split; [exact Hn|]. split; [exact Hp|].
apply (bincount_every_bin_holds_global_count [[0; 0]; [0; 1]] 1 6);
  [simpl; lia|exact Hs|exact Hn|exact Hp|lia].
Defined.


(** * Further properties of the topology *)

Section Exchanges.
Variable chunks : list (list Z).
Hypothesis nonempty_group : chunks <> [].

(** The whole group calling [heads]. *)
Lemma collective_heads fuel :
collective (S (S fuel)) call_heads chunks =
([gathered_heads chunks],
 Done (map (fun i => (gathered_heads chunks, [chunk chunks i])) (ranks chunks))).
Proof using nonempty_group.
unfold collective, group. fold (ranks chunks).
erewrite run_group_gather; [|apply ranks_nonempty, nonempty_group|]; cycle 1.
{ intros i Hi. cbn [fst snd].
unfold call_heads, DistributedArray_init. cbn [topology].
fold (chunk chunks i).
apply (advance_heads (mkTopology 0%nat _) [chunk chunks i] (chunk chunks i) eq_refl). }
cbv beta. rewrite map_unpickled_chunk. simpl app.
apply run_group_return. intros i Hi. reflexivity.
Qed.

(** The whole group calling [tails]. *)
Lemma collective_tails fuel :
collective (S (S fuel)) call_tails chunks =
([gathered_tails chunks],
 Done (map (fun i => (gathered_tails chunks, [chunk chunks i])) (ranks chunks))).
Proof using nonempty_group.
unfold collective, group. fold (ranks chunks).
erewrite run_group_gather; [|apply ranks_nonempty, nonempty_group|]; cycle 1.
{ intros i Hi. cbn [fst snd].
unfold call_tails, DistributedArray_init. cbn [topology].
fold (chunk chunks i).
apply (advance_tails (mkTopology 0%nat _) [chunk chunks i] (chunk chunks i) eq_refl). }
cbv beta. rewrite map_unpickled_chunk. simpl app.
apply run_group_return. intros i Hi. reflexivity.
Qed.

End Exchanges.

(** X1. [heads()] makes one all-gather and returns, on every rank, the
    list that has one entry per rank, in rank order: the first item of
    the rank's chunk, or a copy of [EmptyRank] when the chunk is empty;
    the store of the rank is left as it was. *)
Theorem heads_lists_first_items (chunks : list (list Z)) (r fuel : nat) :
  (r < length chunks)%nat -> (2 <= fuel)%nat ->
  exists res hs,
    collective fuel call_heads chunks = ([hs], Done res) /\
    res !! r = Some (hs, [chunk chunks r]) /\
    length hs = length chunks /\
    (forall i c, chunks !! i = Some c ->
        hs !! i = Some (match c with [] => EmptyRankCopy | x :: _ => Val x end)) /\
    (forall i, hs !! i = Some EmptyRankCopy <-> chunks !! i = Some []).
Proof.
intros Hr Hfuel.
assert (Hne : chunks <> []) by (intros ->; simpl in Hr; lia).
destruct (two_more fuel 2 Hfuel) as [f ->]. cbn [Nat.add].
rewrite (collective_heads chunks Hne). do 2 eexists.
split; [reflexivity|].
split; [unfold ranks; rewrite lookup_map_seq by exact Hr; reflexivity|].
split; [apply length_map|].
change (gathered_heads chunks) with ((fun c => unpickled (head_item c)) <$> chunks).
split.
- intros i c Hc. rewrite list_lookup_fmap, Hc. destruct c; reflexivity.
- intros i. rewrite list_lookup_fmap. destruct (chunks !! i) as [c|]; simpl.
  + destruct c; simpl; split; intros H; first [reflexivity|discriminate H].
  + split; discriminate.
Qed.

Lemma heads_lists_first_items_witness :
  (1 < length [[]; [1; 2]; []; [3; 4; 5]])%nat /\
  exists res hs,
    collective 2 call_heads [[]; [1; 2]; []; [3; 4; 5]] = ([hs], Done res) /\
    res !! 1%nat = Some (hs, [chunk [[]; [1; 2]; []; [3; 4; 5]] 1]) /\
    length hs = length [[]; [1; 2]; []; [3; 4; 5]] /\
    (forall i c, [[]; [1; 2]; []; [3; 4; 5]] !! i = Some c ->
        hs !! i = Some (match c with [] => EmptyRankCopy | x :: _ => Val x end)) /\
    (forall i, hs !! i = Some EmptyRankCopy <-> [[]; [1; 2]; []; [3; 4; 5]] !! i = Some []).
Proof.
split; [simpl; lia|].
apply (heads_lists_first_items [[]; [1; 2]; []; [3; 4; 5]] 1 2); simpl; lia.
Defined.

(** X2. [tails()] makes one all-gather and returns, on every rank, the
    list that has one entry per rank, in rank order: the last item of the
    rank's chunk, or a copy of [EmptyRank] when the chunk is empty; the
    store of the rank is left as it was. *)
Theorem tails_lists_last_items (chunks : list (list Z)) (r fuel : nat) :
  (r < length chunks)%nat -> (2 <= fuel)%nat ->
  exists res ts,
    collective fuel call_tails chunks = ([ts], Done res) /\
    res !! r = Some (ts, [chunk chunks r]) /\
    length ts = length chunks /\
    (forall i c, chunks !! i = Some c ->
        ts !! i = Some (match last c with None => EmptyRankCopy | Some x => Val x end)) /\
    (forall i, ts !! i = Some EmptyRankCopy <-> chunks !! i = Some []).
Proof.
intros Hr Hfuel.
assert (Hne : chunks <> []) by (intros ->; simpl in Hr; lia).
destruct (two_more fuel 2 Hfuel) as [f ->]. cbn [Nat.add].
rewrite (collective_tails chunks Hne). do 2 eexists.
split; [reflexivity|].
split; [unfold ranks; rewrite lookup_map_seq by exact Hr; reflexivity|].
split; [apply length_map|].
change (gathered_tails chunks) with ((fun c => unpickled (tail_item c)) <$> chunks).
split.
- intros i c Hc. rewrite list_lookup_fmap, Hc. unfold tail_item. simpl.
  destruct (last c); reflexivity.
- intros i. rewrite list_lookup_fmap. destruct (chunks !! i) as [c|]; simpl.
  + unfold tail_item. destruct (last c) eqn:Hl; simpl.
    * split; intros H; [discriminate H|].
      injection H as ->. discriminate Hl.
    * apply last_None in Hl. subst c. split; reflexivity.
  + split; discriminate.
Qed.

Lemma tails_lists_last_items_witness :
  (1 < length [[]; [1; 2]; []; [3; 4; 5]])%nat /\
  exists res ts,
    collective 2 call_tails [[]; [1; 2]; []; [3; 4; 5]] = ([ts], Done res) /\
    res !! 1%nat = Some (ts, [chunk [[]; [1; 2]; []; [3; 4; 5]] 1]) /\
    length ts = length [[]; [1; 2]; []; [3; 4; 5]] /\
    (forall i c, [[]; [1; 2]; []; [3; 4; 5]] !! i = Some c ->
        ts !! i = Some (match last c with None => EmptyRankCopy | Some x => Val x end)) /\
    (forall i, ts !! i = Some EmptyRankCopy <-> [[]; [1; 2]; []; [3; 4; 5]] !! i = Some []).
Proof.
split; [simpl; lia|].
apply (tails_lists_last_items [[]; [1; 2]; []; [3; 4; 5]] 1 2); simpl; lia.
Defined.

(** X3. [next()] makes one all-gather, of the heads, and leaves the store
    as it was.  It returns [EmptyRank] on the last rank of the group; on
    every other rank it returns what the following rank put in the
    exchange: that rank's first item when it holds data, and a copy of
    [EmptyRank] when it is empty, whatever the ranks further on hold. *)
Theorem next_item_of_following_rank (chunks : list (list Z)) (r fuel : nat) :
  (r < length chunks)%nat -> (2 <= fuel)%nat ->
  exists res nxt,
    collective fuel call_next chunks = ([gathered_heads chunks], Done res) /\
    res !! r = Some (nxt, [chunk chunks r]) /\
    ((r + 1)%nat = length chunks -> nxt = EmptyRank) /\
    (forall x c, chunks !! (r + 1)%nat = Some (x :: c) -> nxt = Val x) /\
    (chunks !! (r + 1)%nat = Some [] -> nxt = EmptyRankCopy).
Proof.
intros Hr Hfuel.
assert (Hne : chunks <> []) by (intros ->; simpl in Hr; lia).
destruct (two_more fuel 2 Hfuel) as [f ->]. cbn [Nat.add].
rewrite (collective_next chunks Hne). eexists. exists (next_value chunks r).
split; [reflexivity|].
split; [unfold ranks; rewrite lookup_map_seq by exact Hr; reflexivity|].
split; [|split].
- intros Hlast. apply next_value_last, Hlast.
- intros x c Hc.
  assert (Hlt : (r + 1 < length chunks)%nat) by (eapply lookup_lt_Some; exact Hc).
  rewrite next_value_before by exact Hlt.
  unfold chunk. rewrite nth_lookup, Hc. reflexivity.
- intros Hc.
  assert (Hlt : (r + 1 < length chunks)%nat) by (eapply lookup_lt_Some; exact Hc).
  rewrite next_value_before by exact Hlt.
  unfold chunk. rewrite nth_lookup, Hc. reflexivity.
Qed.

Lemma next_item_of_following_rank_witness :
  (1 < length [[]; [1; 2]; []; [3; 4; 5]])%nat /\
  exists res nxt,
    collective 2 call_next [[]; [1; 2]; []; [3; 4; 5]] =
      ([gathered_heads [[]; [1; 2]; []; [3; 4; 5]]], Done res) /\
    res !! 1%nat = Some (nxt, [chunk [[]; [1; 2]; []; [3; 4; 5]] 1]) /\
    ((1 + 1)%nat = length [[]; [1; 2]; []; [3; 4; 5]] -> nxt = EmptyRank) /\
    (forall x c, [[]; [1; 2]; []; [3; 4; 5]] !! (1 + 1)%nat = Some (x :: c) ->
                 nxt = Val x) /\
    ([[]; [1; 2]; []; [3; 4; 5]] !! (1 + 1)%nat = Some [] -> nxt = EmptyRankCopy).
Proof.
split; [simpl; lia|].
apply (next_item_of_following_rank [[]; [1; 2]; []; [3; 4; 5]] 1 2); simpl; lia.
Defined.

(** X4. [prev()] makes one all-gather, of the tails, and leaves the store
    as it was.  It returns [EmptyRank] on rank 0; on every other rank it
    returns what the rank just before put in the exchange: that rank's
    last item when it holds data, and a copy of [EmptyRank] when it is
    empty, whatever the ranks further back hold. *)
Theorem prev_item_of_preceding_rank (chunks : list (list Z)) (r fuel : nat) :
  (r < length chunks)%nat -> (2 <= fuel)%nat ->
  exists res prv,
    collective fuel call_prev chunks = ([gathered_tails chunks], Done res) /\
    res !! r = Some (prv, [chunk chunks r]) /\
    (r = 0%nat -> prv = EmptyRank) /\
    (forall r' x, r = S r' -> last (chunk chunks r') = Some x -> prv = Val x) /\
    (forall r', r = S r' -> chunk chunks r' = [] -> prv = EmptyRankCopy).
Proof.
intros Hr Hfuel.
assert (Hne : chunks <> []) by (intros ->; simpl in Hr; lia).
destruct (two_more fuel 2 Hfuel) as [f ->]. cbn [Nat.add].
rewrite (collective_prev chunks Hne). eexists. exists (prev_value chunks r).
split; [reflexivity|].
split; [unfold ranks; rewrite lookup_map_seq by exact Hr; reflexivity|].
split; [|split].
- intros ->. apply prev_value_first.
- intros r' x -> Hl. rewrite prev_value_after by lia.
  unfold tail_item. rewrite Hl. reflexivity.
- intros r' -> He. rewrite prev_value_after by lia. rewrite He. reflexivity.
Qed.

Lemma prev_item_of_preceding_rank_witness :
  (3 < length [[]; [1; 2]; []; [3; 4; 5]])%nat /\
  exists res prv,
    collective 2 call_prev [[]; [1; 2]; []; [3; 4; 5]] =
      ([gathered_tails [[]; [1; 2]; []; [3; 4; 5]]], Done res) /\
    res !! 3%nat = Some (prv, [chunk [[]; [1; 2]; []; [3; 4; 5]] 3]) /\
    (3%nat = 0%nat -> prv = EmptyRank) /\
    (forall r' x, 3%nat = S r' -> last (chunk [[]; [1; 2]; []; [3; 4; 5]] r') = Some x ->
                  prv = Val x) /\
    (forall r', 3%nat = S r' -> chunk [[]; [1; 2]; []; [3; 4; 5]] r' = [] ->
                prv = EmptyRankCopy).
Proof.
split; [simpl; lia|].
apply (prev_item_of_preceding_rank [[]; [1; 2]; []; [3; 4; 5]] 3 2); simpl; lia.
Defined.

(** * Further properties of unique_labels *)

Section SmallerDistinct.
Implicit Types (l u : list Z) (x y v : Z).

Lemma filter_below_nil l x :
(forall v, v ∈ l -> x <= v) -> filter (fun v => v < x) l = [].
Proof.
induction l as [|a l IH]; intros H; [reflexivity|].
rewrite filter_cons_False.
- apply IH. intros v Hv. apply H. right. exact Hv.
- specialize (H a ltac:(left)). lia.
Qed.

Lemma index_of_nonneg v l : 0 <= index_of v l.
Proof. induction l as [|a l IH]; simpl; [lia|]. destruct (a =? v); lia. Qed.

(** In the sorted distinct values, the index of a value is the number of
  values before it. *)
Lemma index_of_count u x :
StronglySorted Z.lt u -> x ∈ u ->
index_of x u = Z.of_nat (length (filter (fun v => v < x) u)).
Proof.
induction 1 as [|a u Hs IH Ha]; intros Hx; [inversion Hx|].
rewrite Forall_forall in Ha. cbn [index_of].
destruct (Z.eqb_spec a x) as [->|Hne].
- rewrite filter_cons_False by lia.
rewrite filter_below_nil; [reflexivity|].
intros v Hv. specialize (Ha v Hv). simpl in Ha. lia.
- apply elem_of_cons in Hx as [->|Hx]; [congruence|].
specialize (Ha x Hx). simpl in Ha.
rewrite filter_cons_True by lia. rewrite (IH Hx). cbn [length]. lia.
Qed.

Lemma filter_unique_values_length l x :
length (filter (fun v => v < x) (unique_values l)) =
length (remove_dups (filter (fun v => v < x) l)).
Proof.
apply Permutation_length, NoDup_Permutation.
- apply NoDup_filter, strict_NoDup, unique_values_strict.
- apply NoDup_remove_dups.
- intros v. rewrite elem_of_remove_dups, !list_elem_of_filter, elem_of_unique_values.
reflexivity.
Qed.

(** The local label [numpy.unique] gives an element: the number of
  distinct smaller values of the chunk. *)
Lemma index_of_unique_values l x :
x ∈ l -> index_of x (unique_values l) = smaller_distinct l x.
Proof.
intros Hx. unfold smaller_distinct.
rewrite index_of_count, filter_unique_values_length; [reflexivity| |].
- apply unique_values_strict.
- apply elem_of_unique_values, Hx.
Qed.

Lemma smaller_distinct_nonneg l x : 0 <= smaller_distinct l x.
Proof. unfold smaller_distinct. lia. Qed.

Lemma smaller_distinct_lt l x y :
x ∈ l -> x < y -> smaller_distinct l x < smaller_distinct l y.
Proof.
intros Hx Hxy. unfold smaller_distinct.
assert (Hsub : x :: remove_dups (filter (fun v => v < x) l) ⊆+
             remove_dups (filter (fun v => v < y) l)).
{ apply NoDup_submseteq.
- apply NoDup_cons. split; [|apply NoDup_remove_dups].
  rewrite elem_of_remove_dups, list_elem_of_filter. lia.
- intros v Hv. rewrite elem_of_remove_dups, list_elem_of_filter.
  apply elem_of_cons in Hv as [->|Hv]; [auto|].
  rewrite elem_of_remove_dups, list_elem_of_filter in Hv. split; [lia|tauto]. }
apply submseteq_length in Hsub. cbn [length] in Hsub. lia.
Qed.

Lemma smaller_distinct_none l x :
(forall v, v ∈ l -> x <= v) -> smaller_distinct l x = 0.
Proof.
intros H. unfold smaller_distinct.
rewrite filter_below_nil by exact H. reflexivity.
Qed.

Lemma smaller_distinct_all l x :
(forall v, v ∈ l -> v < x) ->
smaller_distinct l x = Z.of_nat (length (remove_dups l)).
Proof.
intros H. unfold smaller_distinct. f_equal.
apply Permutation_length, NoDup_Permutation; try apply NoDup_remove_dups.
intros v. rewrite !elem_of_remove_dups, list_elem_of_filter. split; [tauto|auto].
Qed.

Lemma smaller_distinct_all_but l x :
x ∈ l -> (forall v, v ∈ l -> v <= x) ->
smaller_distinct l x = Z.of_nat (length (remove_dups l)) - 1.
Proof.
intros Hx H. unfold smaller_distinct.
assert (Hp : remove_dups l ≡ₚ x :: remove_dups (filter (fun v => v < x) l)).
{ apply NoDup_Permutation.
- apply NoDup_remove_dups.
- apply NoDup_cons. split; [|apply NoDup_remove_dups].
  rewrite elem_of_remove_dups, list_elem_of_filter. lia.
- intros v. rewrite elem_of_cons, !elem_of_remove_dups, list_elem_of_filter.
  split.
  + intros Hv. destruct (decide (v = x)); [auto|].
    specialize (H v Hv). right. split; [lia|exact Hv].
  + intros [->|[_ Hv]]; assumption. }
apply Permutation_length in Hp. cbn [length] in Hp. lia.
Qed.

(** Values at or above [x] do not count. *)
Lemma smaller_distinct_app_ge l1 l2 x :
(forall v, v ∈ l2 -> x <= v) ->
smaller_distinct (l1 ++ l2) x = smaller_distinct l1 x.
Proof.
intros H. unfold smaller_distinct.
rewrite filter_app, (filter_below_nil l2 x H), app_nil_r. reflexivity.
Qed.

(** A sorted array cut at a value [h] that starts the second part. *)
Lemma smaller_distinct_app l1 l2 h x :
(forall a, a ∈ l1 -> a <= h) -> (forall b, b ∈ l2 -> h <= b) ->
h ∈ l2 -> h <= x ->
smaller_distinct (l1 ++ l2) x = smaller_distinct l1 h + smaller_distinct l2 x.
Proof.
intros H1 H2 Hh Hx. unfold smaller_distinct.
rewrite <- Nat2Z.inj_add, <- length_app. f_equal.
apply Permutation_length, NoDup_Permutation.
- apply NoDup_remove_dups.
- apply NoDup_app. split; [apply NoDup_remove_dups|].
split; [|apply NoDup_remove_dups].
intros v. rewrite !elem_of_remove_dups, !list_elem_of_filter.
intros [Hv1 Hv2] [_ Hv3]. specialize (H2 v Hv3). lia.
- intros v.
rewrite elem_of_app, !elem_of_remove_dups, !list_elem_of_filter, elem_of_app.
split.
+ intros [Hlt [Hv|Hv]]; [|right; auto].
  destruct (decide (v < h)); [left; auto|].
  specialize (H1 v Hv). assert (v = h) as -> by lia. right. auto.
+ intros [[Hlt Hv]|[Hlt Hv]]; [split; [lia|auto]|split; auto].
Qed.

End SmallerDistinct.

Lemma next_value_following chunks r x c :
  chunks !! (r + 1)%nat = Some (x :: c) -> next_value chunks r = Val x.
Proof.
intros Hc.
assert (Hlt : (r + 1 < length chunks)%nat) by (eapply lookup_lt_Some; exact Hc).
rewrite next_value_before by exact Hlt.
unfold chunk. rewrite nth_lookup, Hc. reflexivity.
Qed.

Section Labels.
Variable chunks : list (list Z).

Lemma labels_at_length r : length (labels_at chunks r) = length (chunk chunks r).
Proof. unfold labels_at, numpy_unique. cbn [snd]. rewrite !length_map. reflexivity. Qed.

(** The label of an element: its local label plus the shift of its rank. *)
Lemma labels_at_lookup r (i : nat) x :
chunk chunks r !! i = Some x ->
labels_at chunks r !! i =
Some (smaller_distinct (chunk chunks r) x + label_shift chunks r).
Proof.
intros Hx. unfold labels_at, numpy_unique. cbn [snd].
change (map ?f ?l) with (f <$> l). rewrite !list_lookup_fmap, Hx.
cbn [fmap option_fmap option_map]. rewrite index_of_unique_values; [reflexivity|].
apply list_elem_of_lookup. eauto.
Qed.

Lemma labels_at_lookup_inv r (i : nat) a :
labels_at chunks r !! i = Some a ->
exists x, chunk chunks r !! i = Some x /\
          a = smaller_distinct (chunk chunks r) x + label_shift chunks r.
Proof.
intros Ha. destruct (chunk chunks r !! i) as [x|] eqn:Hx.
- exists x. split; [reflexivity|].
rewrite (labels_at_lookup r i x Hx) in Ha. congruence.
- apply lookup_ge_None in Hx. rewrite <- labels_at_length in Hx.
apply lookup_ge_None in Hx. congruence.
Qed.

Lemma label_shift_S r :
label_shift chunks (S r) = label_shift chunks r + Nunique_at chunks r.
Proof.
unfold label_shift. rewrite seq_S, map_app, fold_left_app. reflexivity.
Qed.

Lemma Nunique_at_empty r : chunk chunks r = [] -> Nunique_at chunks r = 0.
Proof. intros H. unfold Nunique_at, contributed_value. rewrite H. reflexivity. Qed.

Lemma label_shift_empty_before r :
(forall j, (j < r)%nat -> chunk chunks j = []) -> label_shift chunks r = 0.
Proof.
induction r as [|r IH]; intros H; [reflexivity|].
rewrite label_shift_S, IH, Nunique_at_empty; [reflexivity| |]; intros; apply H; lia.
Qed.

(** What a rank whose following rank starts with [h] contributes: its
  number of distinct values below [h]. *)
Lemma Nunique_at_following r l h c' :
last (chunk chunks r) = Some l ->
(forall v, v ∈ chunk chunks r -> v <= l) -> l <= h ->
chunks !! (r + 1)%nat = Some (h :: c') ->
Nunique_at chunks r = smaller_distinct (chunk chunks r) h.
Proof.
intros Hl Hmax Hlh Hnext. unfold Nunique_at, contributed_value.
rewrite Hl, (next_value_following chunks r h c' Hnext).
cbn [numpy_unique fst item_eqb]. rewrite unique_values_length.
destruct (Z.eqb_spec h l) as [->|Hne].
- symmetry. apply smaller_distinct_all_but; [apply last_elem_of, Hl|exact Hmax].
- symmetry. apply smaller_distinct_all. intros v Hv. specialize (Hmax v Hv). lia.
Qed.

Lemma result_labels fuel r :
chunks <> [] -> (r < length chunks)%nat ->
exists res,
  collective (S (S (S (S fuel)))) DistributedArray.unique_labels chunks =
    ([gathered_tails chunks; gathered_heads chunks; gathered_Nunique chunks], Done res) /\
  result_array local res r = Some (labels_at chunks r) /\
  res !! r = Some (DistributedArray_init 1%nat (mkComm r (length chunks)),
                   [chunk chunks r; labels_at chunks r]).
Proof.
intros Hne Hr. rewrite (collective_unique_labels chunks Hne). eexists.
split; [reflexivity|].
unfold result_array, ranks. rewrite !lookup_map_seq by exact Hr.
split; reflexivity.
Qed.

End Labels.

(** X5. [unique_labels()] never raises, whatever the chunks hold: it makes
    three all-gathers and returns one label per local element; within a
    rank two elements get the same label exactly when they are equal, and
    a smaller element gets a smaller label. *)
Theorem unique_labels_orders_each_rank (chunks : list (list Z)) (r fuel : nat) :
  (r < length chunks)%nat -> (4 <= fuel)%nat ->
  exists tails heads gathered res labels,
    collective fuel DistributedArray.unique_labels chunks =
      ([tails; heads; gathered], Done res) /\
    result_array local res r = Some labels /\
    length labels = length (chunk chunks r) /\
    (forall (i j : nat) x y a b,
        chunk chunks r !! i = Some x -> chunk chunks r !! j = Some y ->
        labels !! i = Some a -> labels !! j = Some b ->
        (a = b <-> x = y) /\ (a < b <-> x < y)).
Proof.
intros Hr Hfuel.
assert (Hne : chunks <> []) by (intros ->; simpl in Hr; lia).
destruct (two_more fuel 4 Hfuel) as [f ->]. cbn [Nat.add].
destruct (result_labels chunks f r Hne Hr) as (res & Hrun & Hlab & _).
do 3 eexists. exists res, (labels_at chunks r).
split; [exact Hrun|]. split; [exact Hlab|]. split; [apply labels_at_length|].
intros i j x y a b Hx Hy Ha Hb.
rewrite (labels_at_lookup chunks r i x Hx) in Ha.
rewrite (labels_at_lookup chunks r j y Hy) in Hb.
injection Ha as <-. injection Hb as <-.
assert (Hxin : x ∈ chunk chunks r) by (apply list_elem_of_lookup; eauto).
assert (Hyin : y ∈ chunk chunks r) by (apply list_elem_of_lookup; eauto).
destruct (Z.lt_trichotomy x y) as [Hlt|[->|Hgt]].
- pose proof (smaller_distinct_lt _ x y Hxin Hlt). lia.
- lia.
- pose proof (smaller_distinct_lt _ y x Hyin Hgt). lia.
Qed.

Lemma unique_labels_orders_each_rank_witness :
  (1 < length [[3; 1; 3]; [7; 2; 2]])%nat /\
  exists tails heads gathered res labels,
    collective 4 DistributedArray.unique_labels [[3; 1; 3]; [7; 2; 2]] =
      ([tails; heads; gathered], Done res) /\
    result_array local res 1 = Some labels /\
    length labels = length (chunk [[3; 1; 3]; [7; 2; 2]] 1) /\
    (forall (i j : nat) x y a b,
        chunk [[3; 1; 3]; [7; 2; 2]] 1 !! i = Some x ->
        chunk [[3; 1; 3]; [7; 2; 2]] 1 !! j = Some y ->
        labels !! i = Some a -> labels !! j = Some b ->
        (a = b <-> x = y) /\ (a < b <-> x < y)).
Proof.
split; [simpl; lia|].
apply (unique_labels_orders_each_rank [[3; 1; 3]; [7; 2; 2]] 1 4); simpl; lia.
Defined.

(** X6. On the first rank that holds data the labels are the local ones:
    each element is labelled with the number of distinct smaller values of
    the chunk, so the smallest element of that rank gets the label 0. *)
Theorem unique_labels_start_at_zero (chunks : list (list Z)) (r fuel : nat) :
  (r < length chunks)%nat ->
  (forall j, (j < r)%nat -> chunks !! j = Some []) ->
  (4 <= fuel)%nat ->
  exists res labels,
    snd (collective fuel DistributedArray.unique_labels chunks) = Done res /\
    result_array local res r = Some labels /\
    (forall (i : nat) x,
        chunk chunks r !! i = Some x ->
        labels !! i = Some (smaller_distinct (chunk chunks r) x)) /\
    (forall (i : nat) x,
        chunk chunks r !! i = Some x ->
        (forall y, y ∈ chunk chunks r -> x <= y) ->
        labels !! i = Some 0).
Proof.
intros Hr Hempty Hfuel.
assert (Hne : chunks <> []) by (intros ->; simpl in Hr; lia).
destruct (two_more fuel 4 Hfuel) as [f ->]. cbn [Nat.add].
destruct (result_labels chunks f r Hne Hr) as (res & Hrun & Hlab & _).
exists res, (labels_at chunks r). rewrite Hrun.
split; [reflexivity|]. split; [exact Hlab|].
assert (Hshift : label_shift chunks r = 0).
{ apply label_shift_empty_before. intros j Hj.
  unfold chunk. rewrite nth_lookup, (Hempty j Hj). reflexivity. }
split.
- intros i x Hx. rewrite (labels_at_lookup chunks r i x Hx), Hshift. f_equal. lia.
- intros i x Hx Hmin.
  rewrite (labels_at_lookup chunks r i x Hx), Hshift.
  rewrite (smaller_distinct_none _ x Hmin). reflexivity.
Qed.

Lemma unique_labels_start_at_zero_witness :
  (1 < length [[]; [4; 4; 9]; [9]])%nat /\
  (forall j, (j < 1)%nat -> [[]; [4; 4; 9]; [9]] !! j = Some []) /\
  exists res labels,
    snd (collective 4 DistributedArray.unique_labels [[]; [4; 4; 9]; [9]]) = Done res /\
    result_array local res 1 = Some labels /\
    (forall (i : nat) x,
        chunk [[]; [4; 4; 9]; [9]] 1 !! i = Some x ->
        labels !! i = Some (smaller_distinct (chunk [[]; [4; 4; 9]; [9]] 1) x)) /\
    (forall (i : nat) x,
        chunk [[]; [4; 4; 9]; [9]] 1 !! i = Some x ->
        (forall y, y ∈ chunk [[]; [4; 4; 9]; [9]] 1 -> x <= y) ->
        labels !! i = Some 0).
Proof.
assert (He : forall j, (j < 1)%nat -> [[]; [4; 4; 9]; [9]] !! j = Some []).
{ intros j Hj. assert (j = 0%nat) as -> by lia. reflexivity. }
split; [simpl; lia|]. split; [exact He|].
apply (unique_labels_start_at_zero [[]; [4; 4; 9]; [9]] 1 4); [simpl; lia|exact He|lia].
Defined.

(** X7. Across the boundary of two consecutive ranks that both hold
    sorted data, the labels continue: the first label of the second rank
    is the last label of the first rank when the two boundary values are
    equal, and the next integer when they differ. *)
Theorem unique_labels_continue_across_boundary
    (chunks : list (list Z)) (r fuel : nat) (c c' : list Z) (l h : Z) :
  chunks !! r = Some c -> last c = Some l ->
  (forall v, v ∈ c -> v <= l) ->
  chunks !! (r + 1)%nat = Some (h :: c') ->
  (forall v, v ∈ h :: c' -> h <= v) ->
  l <= h -> (4 <= fuel)%nat ->
  exists res lab lab' a b,
    snd (collective fuel DistributedArray.unique_labels chunks) = Done res /\
    result_array local res r = Some lab /\
    result_array local res (r + 1) = Some lab' /\
    last lab = Some a /\ head lab' = Some b /\
    (l = h -> b = a) /\ (l <> h -> b = a + 1).
Proof.
intros Hc Hl Hmax Hc' Hmin Hlh Hfuel.
assert (Hr' : (r + 1 < length chunks)%nat) by (eapply lookup_lt_Some; exact Hc').
assert (Hr : (r < length chunks)%nat) by lia.
assert (Hne : chunks <> []) by (intros ->; simpl in Hr; lia).
destruct (two_more fuel 4 Hfuel) as [f ->]. cbn [Nat.add].
destruct (result_labels chunks f r Hne Hr) as (res & Hrun & Hlab & _).
destruct (result_labels chunks f (r + 1) Hne Hr') as (res' & Hrun' & Hlab' & _).
rewrite Hrun in Hrun'. injection Hrun' as <-.
assert (Hchunk : chunk chunks r = c) by (unfold chunk; rewrite nth_lookup, Hc; reflexivity).
assert (Hchunk' : chunk chunks (r + 1) = h :: c')
  by (unfold chunk; rewrite nth_lookup, Hc'; reflexivity).
exists res, (labels_at chunks r), (labels_at chunks (r + 1)).
exists (smaller_distinct c l + label_shift chunks r).
exists (smaller_distinct (h :: c') h + label_shift chunks (r + 1)).
rewrite Hrun. split; [reflexivity|]. split; [exact Hlab|]. split; [exact Hlab'|].
split; [|split].
- rewrite last_lookup, labels_at_length, <- Hchunk.
  apply labels_at_lookup. rewrite <- last_lookup, Hchunk. exact Hl.
- rewrite head_lookup, <- Hchunk'. apply labels_at_lookup.
  rewrite Hchunk'. reflexivity.
- rewrite (smaller_distinct_none _ h Hmin).
  replace (r + 1)%nat with (S r) by lia. rewrite label_shift_S.
  rewrite (Nunique_at_following chunks r l h c'); rewrite ?Hchunk; auto.
  split.
  + intros ->. lia.
  + intros Hne'.
    rewrite (smaller_distinct_all_but c l) by (try apply last_elem_of; auto).
    rewrite (smaller_distinct_all c h)
      by (intros v Hv; specialize (Hmax v Hv); lia).
    lia.
Qed.

Lemma unique_labels_continue_across_boundary_witness :
  [[]; [1; 1; 2]; [2; 2; 3]] !! 1%nat = Some [1; 1; 2] /\
  last [1; 1; 2] = Some 2 /\
  (forall v, v ∈ [1; 1; 2] -> v <= 2) /\
  [[]; [1; 1; 2]; [2; 2; 3]] !! (1 + 1)%nat = Some (2 :: [2; 3]) /\
  (forall v, v ∈ 2 :: [2; 3] -> 2 <= v) /\
  exists res lab lab' a b,
    snd (collective 4 DistributedArray.unique_labels [[]; [1; 1; 2]; [2; 2; 3]]) = Done res /\
    result_array local res 1 = Some lab /\
    result_array local res (1 + 1) = Some lab' /\
    last lab = Some a /\ head lab' = Some b /\
    (2 = 2 -> b = a) /\ (2 <> 2 -> b = a + 1).
Proof.
assert (H1 : forall v, v ∈ [1; 1; 2] -> v <= 2).
{ intros v Hv. repeat (apply elem_of_cons in Hv as [->|Hv]; [lia|]). inversion Hv. }
assert (H2 : forall v, v ∈ 2 :: [2; 3] -> 2 <= v).
{ intros v Hv. repeat (apply elem_of_cons in Hv as [->|Hv]; [lia|]). inversion Hv. }
split; [reflexivity|]. split; [reflexivity|]. split; [exact H1|].
split; [reflexivity|]. split; [exact H2|].
apply (unique_labels_continue_across_boundary [[]; [1; 1; 2]; [2; 2; 3]] 1 4
         [1; 1; 2] [2; 3] 2 2); auto; lia.
Defined.

Section DenseLabels.
Variable chunks : list (list Z).
Hypothesis sorted_chunks : StronglySorted Z.le (concat chunks).
Hypothesis all_hold_data : forall i c, chunks !! i = Some c -> c <> [].

Lemma concat_take_elem r a :
a ∈ concat (take r chunks) -> exists i, (i < r)%nat /\ a ∈ chunk chunks i.
Proof.
intros Ha. apply list_elem_of_In, in_concat in Ha as (c & Hc & Ha).
apply list_elem_of_In, elem_of_take in Hc as (i & Hc & Hi).
exists i. split; [exact Hi|].
unfold chunk. rewrite nth_lookup, Hc. apply list_elem_of_In, Ha.
Qed.

Lemma concat_drop_elem r b :
b ∈ concat (drop (S r) chunks) -> exists j, (r < j)%nat /\ b ∈ chunk chunks j.
Proof.
intros Hb. apply list_elem_of_In, in_concat in Hb as (c & Hc & Hb).
apply list_elem_of_In, list_elem_of_lookup in Hc as (k & Hc).
rewrite lookup_drop in Hc.
exists (S r + k)%nat. split; [lia|].
unfold chunk. rewrite nth_lookup, Hc. apply list_elem_of_In, Hb.
Qed.

Lemma chunk_head_exists r :
(r < length chunks)%nat -> exists h c, chunks !! r = Some (h :: c).
Proof using all_hold_data.
intros Hr. destruct (chunks !! r) as [[|h c]|] eqn:E.
- exfalso. apply (all_hold_data r [] E). reflexivity.
- eauto.
- apply lookup_ge_None in E. lia.
Qed.

(** The shift of a rank: the number of distinct values before the rank
  that are smaller than its first value. *)
Lemma label_shift_prefix r h c :
chunks !! r = Some (h :: c) ->
label_shift chunks r = smaller_distinct (concat (take r chunks)) h.
Proof using sorted_chunks all_hold_data.
revert h c. induction r as [|r IH]; intros h' c' Hc'; [reflexivity|].
assert (Hr : (r < length chunks)%nat) by (apply lookup_lt_Some in Hc'; lia).
destruct (chunk_head_exists r Hr) as (h & c & Hc).
assert (Hchunk : chunk chunks r = h :: c)
by (unfold chunk; rewrite nth_lookup, Hc; reflexivity).
assert (Hchunk' : chunk chunks (S r) = h' :: c')
by (unfold chunk; rewrite nth_lookup, Hc'; reflexivity).
destruct (last (chunk chunks r)) as [l|] eqn:Hl;
[|apply last_None in Hl; congruence].
pose proof (chunk_sorted chunks sorted_chunks r) as Hsorted.
assert (Hh' : h' ∈ chunk chunks (S r)) by (rewrite Hchunk'; left).
assert (Hh : h ∈ chunk chunks r) by (rewrite Hchunk; left).
rewrite label_shift_S, (IH h c Hc).
rewrite (Nunique_at_following chunks r l h' c' Hl); cycle 1.
{ intros v Hv. apply (sorted_le_last _ Hsorted l v Hl Hv). }
{ apply (chunks_ordered chunks sorted_chunks r (S r) l h'); auto.
apply last_elem_of, Hl. }
{ replace (r + 1)%nat with (S r) by lia. exact Hc'. }
rewrite (take_S_r chunks r (h :: c) Hc), concat_app. cbn [concat]. rewrite app_nil_r.
rewrite <- Hchunk. symmetry. apply smaller_distinct_app.
- intros a Ha. apply concat_take_elem in Ha as (i & Hi & Ha).
apply (chunks_ordered chunks sorted_chunks i r a h Hi Ha Hh).
- intros b Hb. apply (sorted_head_le _ Hsorted h b); [rewrite Hchunk; reflexivity|exact Hb].
- exact Hh.
- apply (chunks_ordered chunks sorted_chunks r (S r) h h'); auto.
Qed.

(** Every label is the number of distinct smaller values of the whole
  array. *)
Lemma labels_at_dense r (i : nat) x :
chunk chunks r !! i = Some x ->
labels_at chunks r !! i = Some (smaller_distinct (concat chunks) x).
Proof using sorted_chunks all_hold_data.
intros Hx. rewrite (labels_at_lookup chunks r i x Hx). f_equal.
assert (Hxin : x ∈ chunk chunks r) by (apply list_elem_of_lookup; eauto).
assert (Hr : (r < length chunks)%nat) by (eapply chunk_elem_rank; eauto).
destruct (chunk_head_exists r Hr) as (h & c & Hc).
assert (Hchunk : chunk chunks r = h :: c)
by (unfold chunk; rewrite nth_lookup, Hc; reflexivity).
pose proof (chunk_sorted chunks sorted_chunks r) as Hsorted.
assert (Hh : h ∈ chunk chunks r) by (rewrite Hchunk; left).
rewrite (label_shift_prefix r h c Hc).
rewrite <- (take_drop_middle chunks r (h :: c) Hc) at 3.
rewrite concat_app. cbn [concat]. rewrite app_assoc, <- Hchunk.
rewrite smaller_distinct_app_ge; cycle 1.
{ intros b Hb. apply concat_drop_elem in Hb as (j & Hj & Hb).
apply (chunks_ordered chunks sorted_chunks r j x b Hj Hxin Hb). }
rewrite (smaller_distinct_app _ _ h x); [lia| | | |].
- intros a Ha. apply concat_take_elem in Ha as (k & Hk & Ha).
apply (chunks_ordered chunks sorted_chunks k r a h Hk Ha Hh).
- intros b Hb. apply (sorted_head_le _ Hsorted h b); [rewrite Hchunk; reflexivity|exact Hb].
- exact Hh.
- apply (sorted_head_le _ Hsorted h x); [rewrite Hchunk; reflexivity|exact Hxin].
Qed.

End DenseLabels.

Lemma chunk_elem_concat (chunks : list (list Z)) r x :
  x ∈ chunk chunks r -> x ∈ concat chunks.
Proof.
intros Hx. apply list_elem_of_In, in_concat. exists (chunk chunks r).
split; [|apply list_elem_of_In, Hx].
apply list_elem_of_In, list_elem_of_lookup. exists r.
apply chunk_lookup. eapply chunk_elem_rank; eauto.
Qed.

(** X8. For a globally sorted array in which every rank holds data,
    [unique_labels()] labels every element with the number of distinct
    values of the whole array that are smaller than it. *)
Theorem unique_labels_dense_when_every_rank_holds_data
    (chunks : list (list Z)) (r fuel : nat) :
  (r < length chunks)%nat ->
  Sorted Z.le (concat chunks) ->
  (forall i c, chunks !! i = Some c -> c <> []) ->
  (4 <= fuel)%nat ->
  exists res labels,
    snd (collective fuel DistributedArray.unique_labels chunks) = Done res /\
    result_array local res r = Some labels /\
    labels = map (smaller_distinct (concat chunks)) (chunk chunks r).
Proof.
intros Hr Hsorted Hdata Hfuel.
assert (Hss : StronglySorted Z.le (concat chunks)).
{ apply Sorted.Sorted_StronglySorted; [|exact Hsorted].
  intros x y z. apply Z.le_trans. }
assert (Hne : chunks <> []) by (intros ->; simpl in Hr; lia).
destruct (two_more fuel 4 Hfuel) as [f ->]. cbn [Nat.add].
destruct (result_labels chunks f r Hne Hr) as (res & Hrun & Hlab & _).
exists res, (labels_at chunks r). rewrite Hrun.
split; [reflexivity|]. split; [exact Hlab|].
apply list_eq. intros i.
change (map ?g ?l) with (g <$> l). rewrite list_lookup_fmap.
destruct (chunk chunks r !! i) as [x|] eqn:Hx.
- apply (labels_at_dense chunks Hss Hdata r i x Hx).
- apply lookup_ge_None. rewrite labels_at_length. apply lookup_ge_None, Hx.
Qed.

Lemma unique_labels_dense_when_every_rank_holds_data_witness :
  (1 < length [[1; 1; 2]; [2; 2; 3]])%nat /\
  Sorted Z.le (concat [[1; 1; 2]; [2; 2; 3]]) /\
  (forall i c, [[1; 1; 2]; [2; 2; 3]] !! i = Some c -> c <> []) /\
  exists res labels,
    snd (collective 4 DistributedArray.unique_labels [[1; 1; 2]; [2; 2; 3]]) = Done res /\
    result_array local res 1 = Some labels /\
    labels = map (smaller_distinct (concat [[1; 1; 2]; [2; 2; 3]]))
                 (chunk [[1; 1; 2]; [2; 2; 3]] 1).
Proof.
assert (Hs : Sorted Z.le (concat [[1; 1; 2]; [2; 2; 3]])).
{ simpl. repeat first [apply Sorted_cons | apply Sorted_nil
                      | apply HdRel_cons | apply HdRel_nil]; lia. }
assert (Hd : forall i c, [[1; 1; 2]; [2; 2; 3]] !! i = Some c -> c <> []).
{ intros [|[|i]] c Hc; simpl in Hc; try discriminate; injection Hc as <-; discriminate. }
split; [simpl; lia|]. split; [exact Hs|]. split; [exact Hd|].
apply (unique_labels_dense_when_every_rank_holds_data [[1; 1; 2]; [2; 2; 3]] 1 4);
  [simpl; lia|exact Hs|exact Hd|lia].
Defined.

(** X9. For a globally sorted array in which every rank holds data, two
    elements, on the same rank or on different ranks, get the same label
    exactly when they are equal, and the smaller element gets the smaller
    label. *)
Theorem unique_labels_agree_across_ranks
    (chunks : list (list Z)) (r1 r2 fuel : nat) :
  (r1 < length chunks)%nat -> (r2 < length chunks)%nat ->
  Sorted Z.le (concat chunks) ->
  (forall i c, chunks !! i = Some c -> c <> []) ->
  (4 <= fuel)%nat ->
  exists res lab1 lab2,
    snd (collective fuel DistributedArray.unique_labels chunks) = Done res /\
    result_array local res r1 = Some lab1 /\
    result_array local res r2 = Some lab2 /\
    (forall (i j : nat) x y a b,
        chunk chunks r1 !! i = Some x -> chunk chunks r2 !! j = Some y ->
        lab1 !! i = Some a -> lab2 !! j = Some b ->
        (a = b <-> x = y) /\ (a < b <-> x < y)).
Proof.
intros Hr1 Hr2 Hsorted Hdata Hfuel.
assert (Hss : StronglySorted Z.le (concat chunks)).
{ apply Sorted.Sorted_StronglySorted; [|exact Hsorted].
  intros x y z. apply Z.le_trans. }
assert (Hne : chunks <> []) by (intros ->; simpl in Hr1; lia).
destruct (two_more fuel 4 Hfuel) as [f ->]. cbn [Nat.add].
destruct (result_labels chunks f r1 Hne Hr1) as (res & Hrun & Hlab1 & _).
destruct (result_labels chunks f r2 Hne Hr2) as (res' & Hrun' & Hlab2 & _).
rewrite Hrun in Hrun'. injection Hrun' as <-.
exists res, (labels_at chunks r1), (labels_at chunks r2). rewrite Hrun.
split; [reflexivity|]. split; [exact Hlab1|]. split; [exact Hlab2|].
intros i j x y a b Hx Hy Ha Hb.
rewrite (labels_at_dense chunks Hss Hdata r1 i x Hx) in Ha.
rewrite (labels_at_dense chunks Hss Hdata r2 j y Hy) in Hb.
injection Ha as <-. injection Hb as <-.
assert (Hxin : x ∈ concat chunks).
{ apply (chunk_elem_concat chunks r1), list_elem_of_lookup. eauto. }
assert (Hyin : y ∈ concat chunks).
{ apply (chunk_elem_concat chunks r2), list_elem_of_lookup. eauto. }
destruct (Z.lt_trichotomy x y) as [Hlt|[->|Hgt]].
- pose proof (smaller_distinct_lt _ x y Hxin Hlt). lia.
- lia.
- pose proof (smaller_distinct_lt _ y x Hyin Hgt). lia.
Qed.

Lemma unique_labels_agree_across_ranks_witness :
  (0 < length [[1; 1; 2]; [2; 2; 3]])%nat /\ (1 < length [[1; 1; 2]; [2; 2; 3]])%nat /\
  Sorted Z.le (concat [[1; 1; 2]; [2; 2; 3]]) /\
  (forall i c, [[1; 1; 2]; [2; 2; 3]] !! i = Some c -> c <> []) /\
  exists res lab1 lab2,
    snd (collective 4 DistributedArray.unique_labels [[1; 1; 2]; [2; 2; 3]]) = Done res /\
    result_array local res 0 = Some lab1 /\
    result_array local res 1 = Some lab2 /\
    (forall (i j : nat) x y a b,
        chunk [[1; 1; 2]; [2; 2; 3]] 0 !! i = Some x ->
        chunk [[1; 1; 2]; [2; 2; 3]] 1 !! j = Some y ->
        lab1 !! i = Some a -> lab2 !! j = Some b ->
        (a = b <-> x = y) /\ (a < b <-> x < y)).
Proof.
assert (Hs : Sorted Z.le (concat [[1; 1; 2]; [2; 2; 3]])).
{ simpl. repeat first [apply Sorted_cons | apply Sorted_nil
                      | apply HdRel_cons | apply HdRel_nil]; lia. }
assert (Hd : forall i c, [[1; 1; 2]; [2; 2; 3]] !! i = Some c -> c <> []).
{ intros [|[|i]] c Hc; simpl in Hc; try discriminate; injection Hc as <-; discriminate. }
split; [simpl; lia|]. split; [simpl; lia|]. split; [exact Hs|]. split; [exact Hd|].
apply (unique_labels_agree_across_ranks [[1; 1; 2]; [2; 2; 3]] 0 1 4);
  [simpl; lia|simpl; lia|exact Hs|exact Hd|lia].
Defined.

(** * Further properties of bincount *)

Lemma numpy_bincount_negative (x : list Z) v :
  v ∈ x -> v < 0 -> numpy_bincount x = None.
Proof.
intros Hv Hneg. unfold numpy_bincount.
destruct (forallb (fun v => 0 <=? v) x) eqn:E; [|reflexivity].
rewrite forallb_forall in E. specialize (E v ltac:(apply list_elem_of_In, Hv)).
apply Z.leb_le in E. lia.
Qed.

Lemma bincount_minus_below (arr : list Z) (o x : Z) :
  x ∈ arr -> x < o -> bincount_minus arr (Val o) = None.
Proof.
intros Hx Hlt. cbn [bincount_minus].
apply (numpy_bincount_negative _ (x - o)); [|lia].
change ((x - o) ∈ (fun y => y - o) <$> arr).
apply list_elem_of_fmap. exists x. split; [reflexivity|exact Hx].
Qed.

Section BincountFailure.
Variable chunks : list (list Z).
Hypothesis nonempty_group : chunks <> [].

(** The local count on a rank where [numpy.bincount] may raise. *)
Lemma advance_local_count_any {B : Type} i (k : loc -> prog B) :
advance
  (offset <- DistributedArray.bincount_offset
               (DistributedArray_init 0%nat (mkComm i (length chunks)))
               (prev_value chunks i) ;;
   arr <- read 0%nat ;;
   N <- try (bincount_minus arr offset) ;;
   N <- new_array N ;;
   k N)
  [chunk chunks i] =
match local_count_at chunks i with
| Some N => advance (k 1%nat) [chunk chunks i; N]
| None => Raised
end.
Proof.
local_step ltac:(apply (advance_bincount_offset _ _ (chunk chunks i)); reflexivity).
local_step ltac:(apply advance_read; reflexivity).
fold (offset_object chunks i). fold (local_count_at chunks i).
destruct (local_count_at chunks i) as [N|].
- local_step ltac:(apply advance_try; reflexivity).
local_step ltac:(apply advance_new_array).
reflexivity.
- reflexivity.
Qed.

(** [bincount(local=True)] when rank [i] raises: every rank ends after
  the exchange of the tails, each with its own result. *)
Lemma collective_bincount_local_failed fuel i :
(i < length chunks)%nat -> local_count_at chunks i = None ->
collective (S (S fuel)) (DistributedArray.bincount true) chunks =
([gathered_tails chunks], Failed (map (local_result chunks) (ranks chunks))).
Proof using nonempty_group.
intros Hi Hnone. unfold collective, group. fold (ranks chunks).
erewrite run_group_gather; [|apply ranks_nonempty, nonempty_group|]; cycle 1.
{ intros j Hj. cbn [fst snd].
unfold DistributedArray.bincount, DistributedArray_init. cbn [topology local comm].
fold (chunk chunks j).
rewrite (advance_bind_gathering _ _ _ _ _ _
           (advance_prev chunks j 0%nat _ [chunk chunks j] eq_refl)).
reflexivity. }
cbv beta. rewrite map_unpickled_chunk. simpl app.
apply (run_group_failed _ _ _ _ (local_result chunks) i).
- apply in_ranks, Hi.
- unfold local_result. rewrite Hnone. reflexivity.
- intros j Hj. cbn [fst snd]. apply in_ranks in Hj.
rewrite (advance_bind_returned _ _ _ _ _ (prev_after_gather chunks j _ Hj)).
rewrite (advance_local_count_any j). unfold local_result.
destruct (local_count_at chunks j); reflexivity.
Qed.

(** The global [bincount()] when rank [i] raises and rank [j] does not:
  rank [j] goes on to the exchange of the heads, which rank [i] never
  reaches. *)
Lemma collective_bincount_global_deadlock fuel i j :
(i < length chunks)%nat -> local_count_at chunks i = None ->
(j < length chunks)%nat -> is_Some (local_count_at chunks j) ->
collective (S (S fuel)) (DistributedArray.bincount false) chunks =
([gathered_tails chunks], Deadlock).
Proof using nonempty_group.
intros Hi Hnone Hj [N HN]. unfold collective, group. fold (ranks chunks).
erewrite run_group_gather; [|apply ranks_nonempty, nonempty_group|]; cycle 1.
{ intros k Hk. cbn [fst snd].
unfold DistributedArray.bincount, DistributedArray_init. cbn [topology local comm].
fold (chunk chunks k).
rewrite (advance_bind_gathering _ _ _ _ _ _
           (advance_prev chunks k 0%nat _ [chunk chunks k] eq_refl)).
reflexivity. }
cbv beta. rewrite map_unpickled_chunk. simpl app.
eapply (run_group_deadlock _ _ _ _ i j).
- apply in_ranks, Hi.
- apply in_ranks, Hj.
- cbn [fst snd].
rewrite (advance_bind_returned _ _ _ _ _ (prev_after_gather chunks i _ Hi)).
rewrite (advance_local_count_any i), Hnone. reflexivity.
- cbn [fst snd].
rewrite (advance_bind_returned _ _ _ _ _ (prev_after_gather chunks j _ Hj)).
rewrite (advance_local_count_any j), HN.
rewrite (advance_bind_gathering _ _ _ _ _ _
           (advance_heads (mkTopology 0%nat _)
              [chunk chunks j; N] (chunk chunks j) eq_refl)).
reflexivity.
Qed.

(** The global [bincount()] when every rank raises. *)
Lemma collective_bincount_global_failed fuel :
(forall i, (i < length chunks)%nat -> local_count_at chunks i = None) ->
collective (S (S fuel)) (DistributedArray.bincount false) chunks =
([gathered_tails chunks], Failed (map (fun _ => None) (ranks chunks))).
Proof using nonempty_group.
intros Hall. unfold collective, group. fold (ranks chunks).
erewrite run_group_gather; [|apply ranks_nonempty, nonempty_group|]; cycle 1.
{ intros k Hk. cbn [fst snd].
unfold DistributedArray.bincount, DistributedArray_init. cbn [topology local comm].
fold (chunk chunks k).
rewrite (advance_bind_gathering _ _ _ _ _ _
           (advance_prev chunks k 0%nat _ [chunk chunks k] eq_refl)).
reflexivity. }
cbv beta. rewrite map_unpickled_chunk. simpl app.
assert (H0 : (0 < length chunks)%nat).
{ destruct chunks; [congruence|simpl; lia]. }
apply (run_group_failed _ _ _ _ (fun _ => None) 0%nat).
- apply in_ranks, H0.
- reflexivity.
- intros j Hj. cbn [fst snd]. apply in_ranks in Hj.
rewrite (advance_bind_returned _ _ _ _ _ (prev_after_gather chunks j _ Hj)).
rewrite (advance_local_count_any j), (Hall j Hj). reflexivity.
Qed.

End BincountFailure.

(** X10. [numpy.bincount] raises on a rank in three cases: rank 0 holds a
    negative element; a later rank holds an element smaller than its own
    first element; a later rank is empty and the rank just before it is
    empty too (its offset is then an [EmptyRankType] object).  The rank
    raises after the one exchange that [prev()] makes.  With [local=True]
    every other rank ends as it would otherwise.  With [local=False] a
    rank that does not raise goes on to the exchange of the heads and
    waits there for ever. *)
Theorem bincount_fails_below_offset (chunks : list (list Z)) (r fuel : nat) :
  (r < length chunks)%nat ->
  (r = 0%nat /\ exists x, x ∈ chunk chunks r /\ x < 0) \/
  (r <> 0%nat /\ exists f x,
      head (chunk chunks r) = Some f /\ x ∈ chunk chunks r /\ x < f) \/
  (exists r', r = S r' /\ chunk chunks r' = [] /\ chunk chunks r = []) ->
  (2 <= fuel)%nat ->
  local_result chunks r = None /\
  collective fuel (DistributedArray.bincount true) chunks =
    ([gathered_tails chunks], Failed (map (local_result chunks) (ranks chunks))) /\
  ((exists j, (j < length chunks)%nat /\ is_Some (local_count_at chunks j)) ->
   collective fuel (DistributedArray.bincount false) chunks =
     ([gathered_tails chunks], Deadlock)) /\
  ((forall j, (j < length chunks)%nat -> local_count_at chunks j = None) ->
   collective fuel (DistributedArray.bincount false) chunks =
     ([gathered_tails chunks], Failed (map (fun _ => None) (ranks chunks)))).
Proof.
intros Hr Hcase Hfuel.
assert (Hne : chunks <> []) by (intros ->; simpl in Hr; lia).
destruct (two_more fuel 2 Hfuel) as [k ->]. cbn [Nat.add].
assert (Hnone : local_count_at chunks r = None).
{ unfold local_count_at.
  destruct Hcase as [[-> (x & Hx & Hneg)]|[[Hr0 (f & x & Hf & Hx & Hlt)]|(r' & -> & He' & He)]].
  - rewrite offset_object_first. apply (bincount_minus_below _ 0 x Hx Hneg).
  - destruct r as [|r']; [congruence|].
    rewrite (offset_object_data chunks r' f) by (try exact Hf; lia).
    apply (bincount_minus_below _ f x Hx Hlt).
  - rewrite offset_object_empty by (try exact He; lia).
    rewrite He', He. reflexivity. }
split; [unfold local_result; rewrite Hnone; reflexivity|].
split; [apply (collective_bincount_local_failed chunks Hne k r Hr Hnone)|].
split.
- intros (j & Hj & Hsome).
  apply (collective_bincount_global_deadlock chunks Hne k r j Hr Hnone Hj Hsome).
- intros Hall. apply (collective_bincount_global_failed chunks Hne k Hall).
Qed.

Lemma bincount_fails_below_offset_witness :
  (1 < length [[3]; [5; 4]])%nat /\
  ((1%nat = 0%nat /\ exists x, x ∈ chunk [[3]; [5; 4]] 1 /\ x < 0) \/
   (1%nat <> 0%nat /\ exists f x,
       head (chunk [[3]; [5; 4]] 1) = Some f /\ x ∈ chunk [[3]; [5; 4]] 1 /\ x < f) \/
   (exists r', 1%nat = S r' /\ chunk [[3]; [5; 4]] r' = [] /\
               chunk [[3]; [5; 4]] 1 = [])) /\
  local_result [[3]; [5; 4]] 1 = None /\
  collective 2 (DistributedArray.bincount true) [[3]; [5; 4]] =
    ([gathered_tails [[3]; [5; 4]]],
     Failed (map (local_result [[3]; [5; 4]]) (ranks [[3]; [5; 4]]))) /\
  ((exists j, (j < length [[3]; [5; 4]])%nat /\
              is_Some (local_count_at [[3]; [5; 4]] j)) ->
   collective 2 (DistributedArray.bincount false) [[3]; [5; 4]] =
     ([gathered_tails [[3]; [5; 4]]], Deadlock)) /\
  ((forall j, (j < length [[3]; [5; 4]])%nat -> local_count_at [[3]; [5; 4]] j = None) ->
   collective 2 (DistributedArray.bincount false) [[3]; [5; 4]] =
     ([gathered_tails [[3]; [5; 4]]],
      Failed (map (fun _ => None) (ranks [[3]; [5; 4]])))).
Proof.
assert (Hcase :
  (1%nat = 0%nat /\ exists x, x ∈ chunk [[3]; [5; 4]] 1 /\ x < 0) \/
  (1%nat <> 0%nat /\ exists f x,
      head (chunk [[3]; [5; 4]] 1) = Some f /\ x ∈ chunk [[3]; [5; 4]] 1 /\ x < f) \/
  (exists r', 1%nat = S r' /\ chunk [[3]; [5; 4]] r' = [] /\
              chunk [[3]; [5; 4]] 1 = [])).
{ right. left. split; [discriminate|]. exists 5, 4.
  split; [reflexivity|]. split; [right; left|lia]. }
split; [simpl; lia|]. split; [exact Hcase|].
apply (bincount_fails_below_offset [[3]; [5; 4]] 1 2); [simpl; lia|exact Hcase|lia].
Defined.

(** X11. When no rank raises, a rank whose chunk is empty gets an empty
    count array from [bincount()], local or global: the fix-up adds
    nothing to it. *)
Theorem bincount_empty_rank (chunks : list (list Z)) (r fuel : nat) :
  chunks !! r = Some [] -> counts_defined chunks -> (6 <= fuel)%nat ->
  exists resL res,
    snd (collective fuel (DistributedArray.bincount true) chunks) = Done resL /\
    snd (collective fuel (DistributedArray.bincount false) chunks) = Done res /\
    result_array counts_loc resL r = Some [] /\
    result_array counts_loc res r = Some [].
Proof.
intros Hc Hdef Hfuel.
assert (Hr : (r < length chunks)%nat) by (eapply lookup_lt_Some; exact Hc).
assert (Hne : chunks <> []) by (intros ->; simpl in Hr; lia).
assert (Hchunk : chunk chunks r = []) by (unfold chunk; rewrite nth_lookup, Hc; reflexivity).
destruct (two_more fuel 6 Hfuel) as [k ->]. cbn [Nat.add].
rewrite (collective_bincount_local chunks Hne Hdef).
rewrite (collective_bincount_global chunks Hne Hdef).
do 2 eexists. split; [reflexivity|]. split; [reflexivity|].
unfold result_array, ranks. rewrite !lookup_map_seq by exact Hr.
cbn [counts_loc local DistributedArray_init lookup list_lookup].
unfold global_count_at, fixup_value.
rewrite (count_at_empty chunks Hdef r Hr Hchunk). split; reflexivity.
Qed.

Lemma bincount_empty_rank_witness :
  [[0; 0]; []; [0; 1]] !! 1%nat = Some [] /\ counts_defined [[0; 0]; []; [0; 1]] /\
  exists resL res,
    snd (collective 6 (DistributedArray.bincount true) [[0; 0]; []; [0; 1]]) = Done resL /\
    snd (collective 6 (DistributedArray.bincount false) [[0; 0]; []; [0; 1]]) = Done res /\
    result_array counts_loc resL 1 = Some [] /\
    result_array counts_loc res 1 = Some [].
Proof.
assert (Hd : counts_defined [[0; 0]; []; [0; 1]])
  by (apply counts_defined_by_evaluation; vm_compute; reflexivity).
split; [reflexivity|]. split; [exact Hd|].
apply (bincount_empty_rank [[0; 0]; []; [0; 1]] 1 6); [reflexivity|exact Hd|lia].
Defined.

(** X12. When no rank raises, the global [bincount()] returns an array
    of the same length as the local count, and changes no bin but the
    first and the last. *)
Theorem bincount_fixup_keeps_inner_bins (chunks : list (list Z)) (r fuel : nat) :
  (r < length chunks)%nat -> counts_defined chunks -> (6 <= fuel)%nat ->
  exists resL res NL NG,
    snd (collective fuel (DistributedArray.bincount true) chunks) = Done resL /\
    snd (collective fuel (DistributedArray.bincount false) chunks) = Done res /\
    result_array counts_loc resL r = Some NL /\
    result_array counts_loc res r = Some NG /\
    length NG = length NL /\
    (forall b : nat, (0 < b)%nat -> (S b < length NL)%nat -> NG !! b = NL !! b).
Proof.
intros Hr Hdef Hfuel.
assert (Hne : chunks <> []) by (intros ->; simpl in Hr; lia).
destruct (two_more fuel 6 Hfuel) as [k ->]. cbn [Nat.add].
rewrite (collective_bincount_local chunks Hne Hdef).
rewrite (collective_bincount_global chunks Hne Hdef).
do 2 eexists. exists (count_at chunks r), (global_count_at chunks r).
split; [reflexivity|]. split; [reflexivity|].
unfold result_array, ranks. rewrite !lookup_map_seq by exact Hr.
split; [reflexivity|]. split; [reflexivity|].
unfold global_count_at, fixup_value. split.
- rewrite add_last_length, add_first_length. reflexivity.
- intros b Hb0 Hb1.
  rewrite add_last_lookup, add_first_lookup, add_first_length.
  destruct (count_at chunks r !! b) as [n|]; [|reflexivity].
  cbn [fmap option_fmap option_map].
  destruct (decide (b = 0%nat)); [lia|].
  destruct (decide (S b = length (count_at chunks r))); [lia|reflexivity].
Qed.

Lemma bincount_fixup_keeps_inner_bins_witness :
  (1 < length [[1; 1]; [1; 2; 3; 3]; [3]])%nat /\
  counts_defined [[1; 1]; [1; 2; 3; 3]; [3]] /\
  exists resL res NL NG,
    snd (collective 6 (DistributedArray.bincount true) [[1; 1]; [1; 2; 3; 3]; [3]]) = Done resL /\
    snd (collective 6 (DistributedArray.bincount false) [[1; 1]; [1; 2; 3; 3]; [3]]) = Done res /\
    result_array counts_loc resL 1 = Some NL /\
    result_array counts_loc res 1 = Some NG /\
    length NG = length NL /\
    (forall b : nat, (0 < b)%nat -> (S b < length NL)%nat -> NG !! b = NL !! b).
Proof.
assert (Hd : counts_defined [[1; 1]; [1; 2; 3; 3]; [3]])
  by (apply counts_defined_by_evaluation; vm_compute; reflexivity).
split; [simpl; lia|]. split; [exact Hd|].
apply (bincount_fixup_keeps_inner_bins [[1; 1]; [1; 2; 3; 3]; [3]] 1 6);
  [simpl; lia|exact Hd|lia].
Defined.

(** X13. When no rank raises, in the array [bincount(local=True)]
    returns, the bin [v - offset] of every local element [v] exists and
    holds the number of local elements equal to [v]; in general bin [b]
    counts the local elements equal to [offset + b].  The offset is 0 on
    rank 0 and the first local element on every later rank that holds
    data. *)
Theorem local_bincount_bins (chunks : list (list Z)) (r fuel : nat) :
  (r < length chunks)%nat -> counts_defined chunks -> (2 <= fuel)%nat ->
  exists res N,
    snd (collective fuel (DistributedArray.bincount true) chunks) = Done res /\
    result_array counts_loc res r = Some N /\
    (forall b : nat, (b < length N)%nat ->
        N !! b = Some (count_of (chunk chunks r) (offset_at chunks r + Z.of_nat b))) /\
    (forall v, v ∈ chunk chunks r ->
        offset_at chunks r <= v /\
        N !! Z.to_nat (v - offset_at chunks r) = Some (count_of (chunk chunks r) v)) /\
    (r = 0%nat -> offset_at chunks r = 0) /\
    (forall f, r <> 0%nat -> head (chunk chunks r) = Some f -> offset_at chunks r = f).
Proof.
intros Hr Hdef Hfuel.
assert (Hne : chunks <> []) by (intros ->; simpl in Hr; lia).
destruct (two_more fuel 2 Hfuel) as [k ->]. cbn [Nat.add].
rewrite (collective_bincount_local chunks Hne Hdef).
eexists. exists (count_at chunks r). split; [reflexivity|].
split; [unfold result_array, ranks; rewrite lookup_map_seq by exact Hr; reflexivity|].
pose proof (count_at_numeric chunks Hdef r Hr) as HN.
split; [|split; [|split]].
- intros b Hb. apply bincount_sorted_lookup; assumption.
- intros v Hv.
  assert (Hshift : (v - offset_at chunks r) ∈
                   map (fun x => x - offset_at chunks r) (chunk chunks r)).
  { change ((v - offset_at chunks r) ∈
            (fun x => x - offset_at chunks r) <$> chunk chunks r).
    apply list_elem_of_fmap. exists v. split; [reflexivity|exact Hv]. }
  assert (Hle : offset_at chunks r <= v).
  { destruct (Z.le_gt_cases (offset_at chunks r) v) as [|Hlt]; [assumption|].
    rewrite (numpy_bincount_negative _ _ Hshift) in HN by lia. discriminate. }
  split; [exact Hle|].
  assert (Hlen : (Z.to_nat (v - offset_at chunks r) < length (count_at chunks r))%nat).
  { rewrite (numpy_bincount_length _ _ HN)
      by (intros He; rewrite He in Hshift; inversion Hshift).
    pose proof (foldr_max_ge _ _ Hshift). lia. }
  rewrite (bincount_sorted_lookup _ _ _ _ HN Hlen). do 2 f_equal. lia.
- intros ->. unfold offset_at. rewrite offset_object_first. reflexivity.
- intros x Hr0 Hx. unfold offset_at. destruct r as [|r']; [congruence|].
  rewrite (offset_object_data chunks r' x) by (try exact Hx; lia). reflexivity.
Qed.

Lemma local_bincount_bins_witness :
  (1 < length [[3; 3]; [3; 5; 4]])%nat /\ counts_defined [[3; 3]; [3; 5; 4]] /\
  exists res N,
    snd (collective 2 (DistributedArray.bincount true) [[3; 3]; [3; 5; 4]]) = Done res /\
    result_array counts_loc res 1 = Some N /\
    (forall b : nat, (b < length N)%nat ->
        N !! b = Some (count_of (chunk [[3; 3]; [3; 5; 4]] 1)
                         (offset_at [[3; 3]; [3; 5; 4]] 1 + Z.of_nat b))) /\
    (forall v, v ∈ chunk [[3; 3]; [3; 5; 4]] 1 ->
        offset_at [[3; 3]; [3; 5; 4]] 1 <= v /\
        N !! Z.to_nat (v - offset_at [[3; 3]; [3; 5; 4]] 1) =
          Some (count_of (chunk [[3; 3]; [3; 5; 4]] 1) v)) /\
    (1%nat = 0%nat -> offset_at [[3; 3]; [3; 5; 4]] 1 = 0) /\
    (forall f, 1%nat <> 0%nat -> head (chunk [[3; 3]; [3; 5; 4]] 1) = Some f ->
               offset_at [[3; 3]; [3; 5; 4]] 1 = f).
Proof.
assert (Hd : counts_defined [[3; 3]; [3; 5; 4]])
  by (apply counts_defined_by_evaluation; vm_compute; reflexivity).
split; [simpl; lia|]. split; [exact Hd|].
apply (local_bincount_bins [[3; 3]; [3; 5; 4]] 1 2); [simpl; lia|exact Hd|lia].
Defined.

(** * One collective call after another *)

Section Sequence.
Context {A B : Type}.
Variable F : A -> prog B.

Let then_F (ph : prog A * heap) : prog B * heap := (bind (fst ph) F, snd ph).
Let start_F (ah : A * heap) : prog B * heap := (F (fst ah), snd ah).
Let status_of {C : Type} (ph : prog C * heap) : status C := advance (fst ph) (snd ph).

Lemma all_returned_then cfgs res :
all_returned (map status_of cfgs) = Some res ->
map status_of (map then_F cfgs) = map status_of (map start_F res).
Proof.
revert res. induction cfgs as [|[p h] cfgs IH]; intros res Hres.
- injection Hres as <-. reflexivity.
- cbn [map] in Hres. unfold status_of at 1 in Hres. cbn [fst snd] in Hres.
cbn [all_returned] in Hres.
destruct (advance p h) as [a h'| |v k h'] eqn:Hadv; try discriminate Hres.
destruct (all_returned (map status_of cfgs)) as [res'|] eqn:Hrest;
  [|discriminate Hres].
injection Hres as <-. cbn [map]. rewrite (IH res' eq_refl). f_equal.
unfold status_of, then_F, start_F. cbn [fst snd].
apply advance_bind_returned, Hadv.
Qed.

Lemma all_gathering_then cfgs gs :
all_gathering (map status_of cfgs) = Some gs ->
map status_of (map then_F cfgs) =
map (fun g => Gathering (fst (fst g)) (fun r => bind (snd (fst g) r) F) (snd g)) gs.
Proof.
revert gs. induction cfgs as [|[p h] cfgs IH]; intros gs Hgs.
- injection Hgs as <-. reflexivity.
- cbn [map] in Hgs. unfold status_of at 1 in Hgs. cbn [fst snd] in Hgs.
cbn [all_gathering] in Hgs.
destruct (advance p h) as [a h'| |v k h'] eqn:Hadv; try discriminate Hgs.
destruct (all_gathering (map status_of cfgs)) as [gs'|] eqn:Hrest;
  [|discriminate Hgs].
injection Hgs as <-. cbn [map]. rewrite (IH gs' eq_refl). f_equal.
unfold status_of, then_F. cbn [fst snd].
apply advance_bind_gathering, Hadv.
Qed.

Lemma statuses_gathering (gs : list (item * (list item -> prog B) * heap)) :
let sts := map (fun g => Gathering (fst (fst g)) (snd (fst g)) (snd g)) gs in
all_gathering sts = Some gs /\
(gs <> [] -> all_returned sts = None).
Proof.
induction gs as [|[[v k] h] gs (IH2 & IH3)]; cbn zeta.
- repeat split. congruence.
- cbn [map fst snd all_gathering all_returned].
cbn zeta in IH2. rewrite IH2. repeat split.
Qed.

(** When the group completes the first call, the group running the first
  call and then [F] goes through the same exchanges and continues as
  the group that starts [F] on the results. *)
Lemma run_group_then n :
forall cfgs tr tr' res,
  run_group n cfgs tr = (tr', Done res) ->
  exists k, (k < n)%nat /\
    forall m, run_group (k + m) (map then_F cfgs) tr =
              run_group m (map start_F res) tr'.
Proof.
induction n as [|n IH]; intros cfgs tr tr' res Hrun; [discriminate Hrun|].
cbn [run_group] in Hrun. fold (@status_of A) in Hrun.
destruct (all_returned (map status_of cfgs)) as [res0|] eqn:Hret.
- injection Hrun as <- <-. exists 0%nat. split; [lia|].
intros [|m]; [reflexivity|]. cbn [Nat.add run_group].
fold (@status_of B). rewrite (all_returned_then cfgs res0 Hret). reflexivity.
- destruct (all_gathering (map status_of cfgs)) as [gs|] eqn:Hgs;
  [|destruct (existsb is_gathering (map status_of cfgs)); discriminate Hrun].
destruct (IH _ _ _ _ Hrun) as (k & Hk & Hcont).
exists (S k). split; [lia|]. intros m.
cbn [Nat.add run_group]. fold (@status_of B).
rewrite (all_gathering_then cfgs gs Hgs).
assert (Hne : gs <> []).
{ intros ->. destruct cfgs; [discriminate Hret|].
  cbn [map all_gathering] in Hgs.
  destruct (status_of p); try discriminate Hgs.
  destruct (all_gathering (map status_of cfgs)); discriminate Hgs. }
set (gs' := map (fun g => (fst (fst g), (fun r => bind (snd (fst g) r) F), snd g)) gs).
assert (Hsts :
  map (fun g => Gathering (fst (fst g)) (fun r => bind (snd (fst g) r) F) (snd g)) gs =
  map (fun g => Gathering (fst (fst g)) (snd (fst g)) (snd g)) gs').
{ unfold gs'. rewrite map_map. reflexivity. }
rewrite Hsts.
destruct (statuses_gathering gs') as (H2 & H3). cbn zeta in H2, H3.
rewrite H2, H3.
+ unfold gs'. rewrite !map_map. cbn [fst snd].
  rewrite <- (Hcont m). unfold then_F. rewrite map_map. reflexivity.
+ unfold gs'. intros He. apply Hne. destruct gs; [reflexivity|discriminate He].
Qed.

End Sequence.

(** * bincount on an array that is not the first of the store *)

Section FixupAt.
Variables (pre : heap) (arr : list Z) (r n : nat).
Variables (heads tails headsN tailsN : list item).

Let self := DistributedArray_init (length pre) (mkComm r n).

Lemma lookup_at_local N : (pre ++ [arr; N]) !! length pre = Some arr.
Proof. apply list_lookup_middle. reflexivity. Qed.

Lemma lookup_at_counts N : (pre ++ [arr; N]) !! S (length pre) = Some N.
Proof.
rewrite lookup_app_r by lia.
replace (S (length pre) - length pre)%nat with 1%nat by lia. reflexivity.
Qed.

Lemma store_at_counts N N' :
<[S (length pre) := N']> (pre ++ [arr; N]) = pre ++ [arr; N'].
Proof.
rewrite insert_app_r_alt by lia.
replace (S (length pre) - length pre)%nat with 1%nat by lia. reflexivity.
Qed.

Lemma advance_loop_before_at (js : list nat) N first :
head arr = Some first -> N <> [] ->
boundary_counts tails tailsN js ->
advance
  (for_each js (fun i =>
     t <- try (getitem tails (Z.of_nat i)) ;;
     first <- array_get (local self) 0 ;;
     if item_eqb t first then
       c <- try (getitem tailsN (Z.of_nat i)) ;;
       array_iadd_at (S (length pre)) 0 c
     else Ret tt))
  (pre ++ [arr; N]) =
Returned tt
  (pre ++ [arr; add_first N (Zsum (map (matching_count tails tailsN first) js))]).
Proof.
intros Hfirst. revert N. induction js as [|i js IH]; intros N HN Hb.
- simpl. rewrite add_first_zero. reflexivity.
- destruct (Hb i (or_introl eq_refl)) as (t & Ht & Hc).
cbn [for_each map Zsum foldr]. fold (Zsum (map (matching_count tails tailsN first) js)).
rewrite <- add_first_add.
assert (Hbody :
  advance
    (t <- try (getitem tails (Z.of_nat i)) ;;
     first <- array_get (local self) 0 ;;
     if item_eqb t first then
       c <- try (getitem tailsN (Z.of_nat i)) ;;
       array_iadd_at (S (length pre)) 0 c
     else Ret tt) (pre ++ [arr; N]) =
  Returned tt (pre ++ [arr; add_first N (matching_count tails tailsN first i)])).
{ local_step ltac:(apply (advance_try _ t); rewrite getitem_nat; exact Ht).
  local_step ltac:(apply (advance_array_get _ _ arr 0 first);
                   [apply lookup_at_local
                   |destruct arr; [discriminate Hfirst|exact Hfirst]]).
  unfold matching_count. rewrite Ht. cbn [default from_option id].
  destruct (item_eqb t first) eqn:Heq.
  - destruct t as [| |tx]; try discriminate Heq.
    destruct (Hc tx eq_refl) as (c & Hcount).
    local_step ltac:(apply (advance_try _ (Val c)); rewrite getitem_nat; exact Hcount).
    rewrite Hcount. cbn [default from_option id item_count].
    destruct N as [|x N]; [congruence|].
    rewrite (advance_array_iadd_at _ _ (x :: N) 0 x c
               (lookup_at_counts (x :: N)) eq_refl).
    rewrite store_at_counts. reflexivity.
  - rewrite add_first_zero. reflexivity. }
rewrite (advance_bind_returned _ _ _ _ _ Hbody).
apply IH.
+ destruct N; [congruence|discriminate].
+ intros j Hj. apply Hb. right. exact Hj.
Qed.

Lemma advance_loop_after_at (js : list nat) N lst :
last arr = Some lst -> N <> [] ->
boundary_counts heads headsN js ->
advance
  (for_each js (fun i =>
     h <- try (getitem heads (Z.of_nat i)) ;;
     last <- array_get (local self) (-1) ;;
     if item_eqb h last then
       c <- try (getitem headsN (Z.of_nat i)) ;;
       array_iadd_at (S (length pre)) (-1) c
     else Ret tt))
  (pre ++ [arr; N]) =
Returned tt
  (pre ++ [arr; add_last N (Zsum (map (matching_count heads headsN lst) js))]).
Proof.
intros Hlast. revert N. induction js as [|i js IH]; intros N HN Hb.
- simpl. rewrite add_last_zero. reflexivity.
- destruct (Hb i (or_introl eq_refl)) as (t & Ht & Hc).
cbn [for_each map Zsum foldr]. fold (Zsum (map (matching_count heads headsN lst) js)).
rewrite <- add_last_add.
assert (Hbody :
  advance
    (h <- try (getitem heads (Z.of_nat i)) ;;
     last <- array_get (local self) (-1) ;;
     if item_eqb h last then
       c <- try (getitem headsN (Z.of_nat i)) ;;
       array_iadd_at (S (length pre)) (-1) c
     else Ret tt) (pre ++ [arr; N]) =
  Returned tt (pre ++ [arr; add_last N (matching_count heads headsN lst i)])).
{ local_step ltac:(apply (advance_try _ t); rewrite getitem_nat; exact Ht).
  local_step ltac:(apply (advance_array_get _ _ arr (-1) lst);
                   [apply lookup_at_local|rewrite getitem_last; exact Hlast]).
  unfold matching_count. rewrite Ht. cbn [default from_option id].
  destruct (item_eqb t lst) eqn:Heq.
  - destruct t as [| |tx]; try discriminate Heq.
    destruct (Hc tx eq_refl) as (c & Hcount).
    local_step ltac:(apply (advance_try _ (Val c)); rewrite getitem_nat; exact Hcount).
    rewrite Hcount. cbn [default from_option id item_count].
    destruct (getitem N (-1)) as [x|] eqn:Hget.
    + rewrite (advance_array_iadd_at _ _ N (-1) x c (lookup_at_counts N) Hget).
      rewrite store_at_counts. unfold add_last. rewrite Hget. reflexivity.
    + rewrite getitem_last in Hget. apply last_None in Hget. congruence.
  - rewrite add_last_zero. reflexivity. }
rewrite (advance_bind_returned _ _ _ _ _ Hbody).
apply IH.
+ intros HN'. apply HN. apply (f_equal length) in HN'.
  rewrite add_last_length in HN'. destruct N; [reflexivity|discriminate HN'].
+ intros j Hj. apply Hb. right. exact Hj.
Qed.

Lemma advance_fixup_at N :
(N <> [] -> arr <> []) ->
boundary_counts tails tailsN (rev (seq 0 r)) ->
boundary_counts heads headsN (seq (r + 1) (n - (r + 1))) ->
advance (DistributedArray.fixup self (S (length pre)) heads tails headsN tailsN)
        (pre ++ [arr; N]) =
Returned tt (pre ++ [arr; fixup_value r n arr N heads tails headsN tailsN]).
Proof.
intros Harr Hb Ha. unfold DistributedArray.fixup, fixup_value.
local_step ltac:(apply (advance_array_len _ _ N); apply lookup_at_counts).
destruct N as [|x N'] eqn:EN.
- reflexivity.
- destruct (decide (0 < length (x :: N'))%nat) as [_|Hlen]; [|simpl in Hlen; lia].
rewrite <- EN in *.
assert (HN : N <> []) by (rewrite EN; discriminate).
specialize (Harr HN).
destruct (head arr) as [first|] eqn:Hfirst;
  [|apply head_None in Hfirst; congruence].
destruct (last arr) as [lst|] eqn:Hlast;
  [|apply last_None in Hlast; congruence].
unfold first_of, last_of. rewrite Hfirst, Hlast. cbn [default from_option id].
cbn [rank size comm self DistributedArray_init].
erewrite advance_bind_returned;
  [|apply (advance_loop_before_at _ N first Hfirst HN Hb)].
apply advance_loop_after_at; auto.
intros HN'. apply (f_equal length) in HN'.
rewrite add_first_length in HN'. rewrite EN in HN'. discriminate HN'.
Qed.

End FixupAt.

Section BincountAt.
Variable chunks : list (list Z).
Variable pre : nat -> heap.
Hypothesis nonempty_group : chunks <> [].
Hypothesis defined : counts_defined chunks.

Lemma advance_local_count_at {B : Type} i (k : loc -> prog B) :
(i < length chunks)%nat ->
advance
  (offset <- DistributedArray.bincount_offset
               (DistributedArray_init (length (pre i)) (mkComm i (length chunks)))
               (prev_value chunks i) ;;
   arr <- read (length (pre i)) ;;
   N <- try (bincount_minus arr offset) ;;
   N <- new_array N ;;
   k N)
  (pre i ++ [chunk chunks i]) =
advance (k (S (length (pre i)))) (pre i ++ [chunk chunks i; count_at chunks i]).
Proof using defined.
intros Hi.
assert (Hl : (pre i ++ [chunk chunks i]) !! length (pre i) = Some (chunk chunks i))
by (apply list_lookup_middle; reflexivity).
local_step ltac:(apply (advance_bincount_offset _ _ (chunk chunks i)); exact Hl).
local_step ltac:(apply advance_read; exact Hl).
local_step ltac:(apply advance_try; apply (local_count_at_defined chunks defined i Hi)).
local_step ltac:(apply advance_new_array).
rewrite <- app_assoc, length_app. cbn [app length]. rewrite Nat.add_1_r.
reflexivity.
Qed.

(** The global [bincount] called by every rank on the array that follows
  [pre] in its store. *)
Lemma run_group_bincount_global_at fuel tr :
run_group (S (S (S (S (S (S fuel))))))
  (map (fun i =>
          (DistributedArray.bincount false
             (DistributedArray_init (length (pre i)) (mkComm i (length chunks))),
           pre i ++ [chunk chunks i]))
       (ranks chunks)) tr =
(tr ++ [gathered_tails chunks; gathered_heads chunks; gathered_tails chunks;
        gathered_headsN chunks; gathered_tailsN chunks],
 Done (map (fun i =>
              (GlobalCounts
                 (DistributedArray_init (S (length (pre i))) (mkComm i (length chunks))),
               pre i ++ [chunk chunks i; global_count_at chunks i]))
           (ranks chunks))).
Proof using nonempty_group defined.
(* prev(): tails of the values *)
erewrite run_group_gather; [|apply ranks_nonempty, nonempty_group|]; cycle 1.
{ intros i Hi. cbn [fst snd].
unfold DistributedArray.bincount, DistributedArray_init. cbn [topology local comm].
rewrite (advance_bind_gathering _ _ _ _ _ _
           (advance_prev chunks i (length (pre i)) _ (pre i ++ [chunk chunks i])
              (list_lookup_middle _ _ _ _ eq_refl))).
reflexivity. }
cbv beta. rewrite map_unpickled_chunk.
(* heads of the values *)
erewrite run_group_gather; [|apply ranks_nonempty, nonempty_group|]; cycle 1.
{ intros i Hi. cbn [fst snd]. apply in_ranks in Hi.
rewrite (advance_bind_returned _ _ _ _ _ (prev_after_gather chunks i _ Hi)).
rewrite (advance_local_count_at i _ Hi).
rewrite (advance_bind_gathering _ _ _ _ _ _
           (advance_heads (mkTopology (length (pre i)) _)
              (pre i ++ [chunk chunks i; count_at chunks i]) (chunk chunks i)
              (lookup_at_local _ _ _))).
reflexivity. }
cbv beta. rewrite map_unpickled_chunk.
(* tails of the values *)
erewrite run_group_gather; [|apply ranks_nonempty, nonempty_group|]; cycle 1.
{ intros i Hi. cbn [fst snd]. cbn [bind].
rewrite (advance_bind_gathering _ _ _ _ _ _
           (advance_tails (mkTopology (length (pre i)) _)
              (pre i ++ [chunk chunks i; count_at chunks i]) (chunk chunks i)
              (lookup_at_local _ _ _))).
reflexivity. }
cbv beta. rewrite map_unpickled_chunk.
(* heads of the counts *)
erewrite run_group_gather; [|apply ranks_nonempty, nonempty_group|]; cycle 1.
{ intros i Hi. cbn [fst snd]. cbn [bind].
rewrite (advance_bind_gathering _ _ _ _ _ _
           (advance_heads (mkTopology (S (length (pre i))) _)
              (pre i ++ [chunk chunks i; count_at chunks i]) (count_at chunks i)
              (lookup_at_counts _ _ _))).
reflexivity. }
fold (gathered_headsN chunks).
(* tails of the counts *)
erewrite run_group_gather; [|apply ranks_nonempty, nonempty_group|]; cycle 1.
{ intros i Hi. cbn [fst snd]. cbn [bind].
rewrite (advance_bind_gathering _ _ _ _ _ _
           (advance_tails (mkTopology (S (length (pre i))) _)
              (pre i ++ [chunk chunks i; count_at chunks i]) (count_at chunks i)
              (lookup_at_counts _ _ _))).
reflexivity. }
fold (gathered_tailsN chunks).
(* the fix-up *)
rewrite <- !app_assoc. cbn [app].
apply run_group_return.
intros i Hi. cbn [fst snd]. cbn [bind]. apply in_ranks in Hi.
erewrite advance_bind_returned; cycle 1.
{ apply (advance_fixup_at (pre i) (chunk chunks i) i (length chunks)).
- intros HN He. apply HN. apply count_at_empty; assumption.
- apply boundary_counts_tails; [exact defined|]. intros j Hj.
  apply in_rev, in_seq in Hj. lia.
- apply boundary_counts_heads; [exact defined|]. intros j Hj.
  apply in_seq in Hj. lia. }
reflexivity.
Qed.

End BincountAt.


(** * unique_labels, then bincount *)

Lemma label_arrays_length chunks : length (label_arrays chunks) = length chunks.
Proof. unfold label_arrays, ranks. rewrite length_map, length_seq. reflexivity. Qed.

Lemma chunk_label_arrays chunks i :
  (i < length chunks)%nat -> chunk (label_arrays chunks) i = labels_at chunks i.
Proof.
intros Hi. unfold chunk, label_arrays, ranks.
rewrite nth_lookup, lookup_map_seq by exact Hi. reflexivity.
Qed.

(** The group running the pipeline: the labels, then their global
    counts in a third array of each store. *)
Lemma collective_labels_then_counts chunks fuel :
  chunks <> [] -> counts_defined (label_arrays chunks) -> (9 <= fuel)%nat ->
  snd (collective fuel labels_then_counts chunks) =
  Done (map (fun i =>
               (GlobalCounts (DistributedArray_init 2%nat (mkComm i (length chunks))),
                [chunk chunks i; labels_at chunks i;
                 global_count_at (label_arrays chunks) i]))
            (ranks chunks)).
Proof.
intros Hne Hdef Hfuel.
pose proof (collective_unique_labels chunks Hne 0) as Hlabels.
unfold collective in Hlabels.
destruct (run_group_then (DistributedArray.bincount false) _ _ _ _ _ Hlabels)
  as (k & Hk & Hthen).
specialize (Hthen (fuel - k)%nat).
replace (k + (fuel - k))%nat with fuel in Hthen by lia.
unfold collective.
replace (group labels_then_counts chunks)
  with (map (fun ph : prog DistributedArray * heap =>
               (bind (fst ph) (DistributedArray.bincount false), snd ph))
            (group DistributedArray.unique_labels chunks))
  by (unfold group; rewrite map_map; reflexivity).
rewrite Hthen. rewrite map_map. cbn [fst snd].
assert (Hlen : length (label_arrays chunks) <> 0%nat).
{ rewrite label_arrays_length. destruct chunks; [congruence|discriminate]. }
assert (HneL : label_arrays chunks <> []) by (intros He; rewrite He in Hlen; auto).
pose proof (run_group_bincount_global_at (label_arrays chunks)
              (fun i => [chunk chunks i]) HneL Hdef (fuel - k - 6)
              [gathered_tails chunks; gathered_heads chunks; gathered_Nunique chunks])
  as Hcount.
replace (S (S (S (S (S (S (fuel - k - 6))))))) with (fuel - k)%nat in Hcount by lia.
unfold ranks in Hcount. rewrite label_arrays_length in Hcount. fold (ranks chunks) in Hcount.
rewrite (map_ext_in _
  (fun i => (DistributedArray.bincount false
               (DistributedArray_init (length [chunk chunks i])
                  (mkComm i (length chunks))),
             [chunk chunks i] ++ [chunk (label_arrays chunks) i]))).
- rewrite Hcount. cbn [snd]. f_equal. apply map_ext_in.
  intros i Hi. apply in_ranks in Hi.
  rewrite (chunk_label_arrays chunks i Hi). reflexivity.
- intros i Hi. apply in_ranks in Hi.
  rewrite (chunk_label_arrays chunks i Hi). reflexivity.
Qed.

Lemma smaller_distinct_mono l x y :
  x <= y -> smaller_distinct l x <= smaller_distinct l y.
Proof.
intros Hxy. unfold smaller_distinct.
assert (Hsub : remove_dups (filter (fun v => v < x) l) ⊆+
               remove_dups (filter (fun v => v < y) l)).
{ apply NoDup_submseteq; [apply NoDup_remove_dups|].
  intros v. rewrite !elem_of_remove_dups, !list_elem_of_filter.
  intros [Hv Hin]. split; [lia|exact Hin]. }
apply submseteq_length in Hsub. lia.
Qed.

Lemma smaller_distinct_inj l x y :
  x ∈ l -> y ∈ l -> smaller_distinct l x = smaller_distinct l y -> x = y.
Proof.
intros Hx Hy Heq. destruct (Z.lt_trichotomy x y) as [Hlt|[->|Hgt]]; [|reflexivity|].
- pose proof (smaller_distinct_lt l x y Hx Hlt). lia.
- pose proof (smaller_distinct_lt l y x Hy Hgt). lia.
Qed.

Lemma count_of_map_inj (f : Z -> Z) (l : list Z) x :
  (forall y, y ∈ l -> f y = f x -> y = x) ->
  count_of (map f l) (f x) = count_of l x.
Proof.
unfold count_of. intros Hinj. f_equal.
induction l as [|a l IH]; [reflexivity|]. cbn [map count_occ].
assert (IH' : count_occ Z.eq_dec (map f l) (f x) = count_occ Z.eq_dec l x).
{ apply IH. intros y Hy. apply Hinj. right. exact Hy. }
destruct (Z.eq_dec (f a) (f x)) as [Hfa|Hfa], (Z.eq_dec a x) as [Ha|Ha];
  try (rewrite IH'; reflexivity).
- exfalso. apply Ha. apply Hinj; [left|exact Hfa].
- exfalso. apply Hfa. rewrite Ha. reflexivity.
Qed.

Lemma sorted_map_mono (f : Z -> Z) (l : list Z) :
  (forall x y, x <= y -> f x <= f y) ->
  StronglySorted Z.le l -> StronglySorted Z.le (map f l).
Proof.
intros Hf. induction 1 as [|a l Hs IH Ha]; cbn [map]; constructor; [exact IH|].
rewrite Forall_forall in *. intros y Hy.
change (y ∈ f <$> l) in Hy. apply list_elem_of_fmap in Hy as (z & -> & Hz).
apply Hf, Ha, Hz.
Qed.

Section Pipeline.
Variable chunks : list (list Z).
Hypothesis sorted_chunks : StronglySorted Z.le (concat chunks).
Hypothesis all_hold_data : forall i c, chunks !! i = Some c -> c <> [].

Let label_of : Z -> Z := smaller_distinct (concat chunks).

Lemma label_arrays_dense : label_arrays chunks = map (map label_of) chunks.
Proof using sorted_chunks all_hold_data.
unfold label_arrays. rewrite <- (map_chunk chunks (map label_of)).
apply map_ext_in. intros i Hi. apply list_eq. intros j.
change (map label_of (chunk chunks i)) with (label_of <$> chunk chunks i).
rewrite list_lookup_fmap.
destruct (chunk chunks i !! j) as [x|] eqn:Hx.
- apply (labels_at_dense chunks sorted_chunks all_hold_data i j x Hx).
- apply lookup_ge_None. rewrite labels_at_length. apply lookup_ge_None, Hx.
Qed.

Lemma concat_label_arrays :
concat (label_arrays chunks) = map label_of (concat chunks).
Proof using sorted_chunks all_hold_data.
rewrite label_arrays_dense. symmetry. apply concat_map.
Qed.

Lemma label_arrays_sorted : StronglySorted Z.le (concat (label_arrays chunks)).
Proof using sorted_chunks all_hold_data.
rewrite concat_label_arrays. apply sorted_map_mono; [|exact sorted_chunks].
intros x y Hxy. apply smaller_distinct_mono, Hxy.
Qed.

Lemma label_arrays_nonneg x : x ∈ concat (label_arrays chunks) -> 0 <= x.
Proof using sorted_chunks all_hold_data.
rewrite concat_label_arrays. intros Hx.
change (x ∈ label_of <$> concat chunks) in Hx.
apply list_elem_of_fmap in Hx as (y & -> & _). apply smaller_distinct_nonneg.
Qed.

Lemma label_arrays_hold_data r :
(S r < length (label_arrays chunks))%nat ->
chunk (label_arrays chunks) r = [] -> chunk (label_arrays chunks) (S r) <> [].
Proof using sorted_chunks all_hold_data.
intros Hr _ He. rewrite label_arrays_length in Hr.
rewrite label_arrays_dense in He. unfold chunk in He.
change (@nil Z) with (map label_of []) in He at 1. rewrite map_nth in He.
apply map_eq_nil in He.
apply (all_hold_data (S r) (chunk chunks (S r))); [|exact He].
apply chunk_lookup, Hr.
Qed.

(** The bin of the label of [x] holds the number of occurrences of [x]
  in the whole array. *)
Lemma label_bin r x :
(r < length chunks)%nat -> x ∈ chunk chunks r ->
offset_at (label_arrays chunks) r <= label_of x /\
global_count_at (label_arrays chunks) r
  !! Z.to_nat (label_of x - offset_at (label_arrays chunks) r) =
Some (count_of (concat chunks) x).
Proof using sorted_chunks all_hold_data.
intros Hr Hx.
assert (HrL : (r < length (label_arrays chunks))%nat)
by (rewrite label_arrays_length; exact Hr).
assert (HxL : label_of x ∈ chunk (label_arrays chunks) r).
{ rewrite label_arrays_dense. unfold chunk.
change [] with (map label_of []). rewrite map_nth.
change (label_of x ∈ label_of <$> nth r chunks []).
apply list_elem_of_fmap. exists x. split; [reflexivity|exact Hx]. }
pose proof (global_count_at_covers (label_arrays chunks) label_arrays_sorted
            label_arrays_nonneg label_arrays_hold_data r (label_of x) HrL HxL) as Hcov.
split; [lia|].
rewrite (global_count_at_lookup (label_arrays chunks) label_arrays_sorted
         label_arrays_nonneg label_arrays_hold_data r) by (try exact HrL; lia).
f_equal. rewrite concat_label_arrays.
replace (offset_at (label_arrays chunks) r +
       Z.of_nat (Z.to_nat (label_of x - offset_at (label_arrays chunks) r)))
with (label_of x) by lia.
apply count_of_map_inj. intros y Hy Heq.
apply (smaller_distinct_inj (concat chunks)); auto.
apply (chunk_elem_concat chunks r x Hx).
Qed.

End Pipeline.

(** X14. The pipeline of [test], [unique_labels()] followed by
    [bincount()] on its result, on a globally sorted array in which every
    rank holds data: no rank raises, and in the count array a rank gets,
    the bin of the label of each local element (taken from the rank's
    offset) holds the number of occurrences of that element in the whole
    array. *)
Theorem labels_then_counts_count_each_value
    (chunks : list (list Z)) (r fuel : nat) :
  (r < length chunks)%nat ->
  Sorted Z.le (concat chunks) ->
  (forall i c, chunks !! i = Some c -> c <> []) ->
  (9 <= fuel)%nat ->
  let label_of := smaller_distinct (concat chunks) in
  let labels := map (map label_of) chunks in
  exists res N,
    snd (collective fuel labels_then_counts chunks) = Done res /\
    result_array counts_loc res r = Some N /\
    (forall x, x ∈ chunk chunks r ->
        offset_at labels r <= label_of x /\
        N !! Z.to_nat (label_of x - offset_at labels r) =
          Some (count_of (concat chunks) x)).
Proof.
intros Hr Hsorted Hdata Hfuel label_of labels.
assert (Hss : StronglySorted Z.le (concat chunks)).
{ apply Sorted.Sorted_StronglySorted; [|exact Hsorted].
  intros x y z. apply Z.le_trans. }
assert (Hne : chunks <> []) by (intros ->; simpl in Hr; lia).
assert (Hlabels : label_arrays chunks = labels)
  by (apply (label_arrays_dense chunks Hss Hdata)).
assert (Hdef : counts_defined (label_arrays chunks)).
{ apply counts_defined_sorted.
  - apply (label_arrays_sorted chunks Hss Hdata).
  - apply (label_arrays_nonneg chunks Hss Hdata).
  - apply (label_arrays_hold_data chunks Hss Hdata). }
rewrite (collective_labels_then_counts chunks fuel Hne Hdef Hfuel).
eexists. exists (global_count_at (label_arrays chunks) r).
split; [reflexivity|].
split; [unfold result_array, ranks; rewrite lookup_map_seq by exact Hr; reflexivity|].
intros x Hx. rewrite <- Hlabels.
apply (label_bin chunks Hss Hdata r x Hr Hx).
Qed.

Lemma labels_then_counts_count_each_value_witness :
  (1 < length [[1; 1; 2]; [2; 2; 3]])%nat /\
  Sorted Z.le (concat [[1; 1; 2]; [2; 2; 3]]) /\
  (forall i c, [[1; 1; 2]; [2; 2; 3]] !! i = Some c -> c <> []) /\
  let label_of := smaller_distinct (concat [[1; 1; 2]; [2; 2; 3]]) in
  let labels := map (map label_of) [[1; 1; 2]; [2; 2; 3]] in
  exists res N,
    snd (collective 9 labels_then_counts [[1; 1; 2]; [2; 2; 3]]) = Done res /\
    result_array counts_loc res 1 = Some N /\
    (forall x, x ∈ chunk [[1; 1; 2]; [2; 2; 3]] 1 ->
        offset_at labels 1 <= label_of x /\
        N !! Z.to_nat (label_of x - offset_at labels 1) =
          Some (count_of (concat [[1; 1; 2]; [2; 2; 3]]) x)).
Proof.
assert (Hs : Sorted Z.le (concat [[1; 1; 2]; [2; 2; 3]])).
{ simpl. repeat first [apply Sorted_cons | apply Sorted_nil
                      | apply HdRel_cons | apply HdRel_nil]; lia. }
assert (Hd : forall i c, [[1; 1; 2]; [2; 2; 3]] !! i = Some c -> c <> []).
{ intros [|[|i]] c Hc; simpl in Hc; try discriminate; injection Hc as <-; discriminate. }
split; [simpl; lia|]. split; [exact Hs|]. split; [exact Hd|].
apply (labels_then_counts_count_each_value [[1; 1; 2]; [2; 2; 3]] 1 9);
  [simpl; lia|exact Hs|exact Hd|lia].
Defined.

(** The pipeline on the example of the specification. *)
Example labels_then_counts_example :
  snd (collective 9 labels_then_counts [[1; 1; 2]; [2; 2; 3]]) =
  Done [(GlobalCounts (DistributedArray_init 2%nat (mkComm 0 2)),
         [[1; 1; 2]; [0; 0; 1]; [2; 3]]);
        (GlobalCounts (DistributedArray_init 2%nat (mkComm 1 2)),
         [[2; 2; 3]; [1; 1; 2]; [3; 1]])].
Proof. vm_compute. reflexivity. Qed.
